(** * DICOM series loading and slice viewing (visual.py)

    A shallow embedding of [find_t1_series], [load_dicom_series],
    [MRIVisualization] and [create_mri_visualization], with the properties
    of the volume assembly and of the slice view proved about it.

    Python exceptions are an explicit error result, the [logging] calls are
    records appended to a log that is threaded through every call, numpy
    arrays are a shape together with an index function, float32 values are
    rationals rounded to a 24-bit significand, the value of a DICOM element
    is empty, single or multiple as pydicom hands it out, and the figures
    of matplotlib.pyplot are a registry that [view] reads and writes. *)

From Stdlib Require Import List ZArith QArith Qabs Qround Qpower Bool Lia Lqa Arith.
From Stdlib Require Import Ascii String Permutation Sorted.
Import ListNotations.

Local Open Scope string_scope.
Local Open Scope list_scope.

(** ** Python strings *)

Module PyStr.

(** [str.lower] on one character: the ASCII capitals move to lower case.
    A string is its UTF-8 bytes; no character outside ASCII lowers to one
    of the letters that visual.py looks for ('.dcm' and 't1'), and the
    bytes of such a character are never ASCII, so the two tests made on
    lowered text see what Python sees. *)
Definition lower_ascii (c : ascii) : ascii :=
  let n := nat_of_ascii c in
  if (65 <=? n)%nat && (n <=? 90)%nat then ascii_of_nat (n + 32) else c.

Fixpoint lower (s : string) : string :=
  match s with
  | EmptyString => EmptyString
  | String c s' => String (lower_ascii c) (lower s')
  end.

(** [s.startswith(p)] *)
Fixpoint startswith (s p : string) : bool :=
  match p, s with
  | EmptyString, _ => true
  | String _ _, EmptyString => false
  | String a p', String b s' => Ascii.eqb a b && startswith s' p'
  end.

(** [s.endswith(p)]: some tail of [s] is [p]. *)
Fixpoint endswith (s p : string) : bool :=
  String.eqb s p ||
  match s with
  | EmptyString => false
  | String _ s' => endswith s' p
  end.

(** [p in s]: [p] starts at some position of [s]. *)
Fixpoint contains (p s : string) : bool :=
  startswith s p ||
  match s with
  | EmptyString => false
  | String _ s' => contains p s'
  end.

(** [os.path.join(a, b)] of posixpath: an absolute [b] replaces [a], and
    the separator is added only between a non-empty [a] that does not end
    in one and [b]. *)
Definition path_join (a b : string) : string :=
  if startswith b "/" then b
  else if String.eqb a "" || endswith a "/" then a ++ b
  else a ++ "/" ++ b.

End PyStr.

(** ** Exceptions, log records and the monad of the module *)

(** The exception classes that the calls of visual.py raise, with one
    constructor for any other class; all of them derive from
    [Exception]. *)
Inductive exn : Set :=
| InvalidDicomError
| IsADirectoryError
| PermissionError
| AttributeError
| IndexError
| ValueError
| TypeError
| NotImplementedError
| OtherError (class_name : string).

Inductive result (A : Type) : Type :=
| Ok (a : A)
| Raise (e : exn).
Arguments Ok {A} a.
Arguments Raise {A} e.

(** One constructor per [logging] call of visual.py, with the values its
    format string interpolates. *)
Inductive log_message : Set :=
| Searching_for_T1_series
| T1_series_found_at (root : string)
| Invalid_DICOM_file (filepath : string)
| No_T1_weighted_series_found
| Loading_DICOM_series_from (directory : string)
| Failed_to_create_visualization (e : exn).

Inductive log_record : Set :=
| INFO (m : log_message)
| WARNING (m : log_message)
| ERROR (m : log_message).

Definition log := list log_record.

(** A computation reads the log so far and returns its outcome with the
    log extended by what it wrote. *)
Definition M (A : Type) : Type := log -> result A * log.

Definition ret {A} (a : A) : M A := fun l => (Ok a, l).
Definition raise {A} (e : exn) : M A := fun l => (Raise e, l).
Definition bind {A B} (m : M A) (k : A -> M B) : M B :=
  fun l => match m l with
           | (Ok a, l') => k a l'
           | (Raise e, l') => (Raise e, l')
           end.
Definition lift {A} (r : result A) : M A := fun l => (r, l).
Definition logging (r : log_record) : M unit := fun l => (Ok tt, l ++ [r]).

(** [try: body except E: handler]; [catches e] says whether [e] is an
    instance of the class the clause names. *)
Definition try_except {A} (body : M A) (catches : exn -> bool)
    (handler : exn -> M A) : M A :=
  fun l => match body l with
           | (Ok a, l') => (Ok a, l')
           | (Raise e, l') => if catches e then handler e l' else (Raise e, l')
           end.

Declare Scope py_scope.
Delimit Scope py_scope with py.
Notation "x <- m ;; k" := (bind m (fun x => k))
  (at level 61, m at next level, right associativity) : py_scope.
Notation "m ;;; k" := (bind m (fun _ => k))
  (at level 61, right associativity) : py_scope.
Local Open Scope py_scope.

Definition rbind {A B} (r : result A) (k : A -> result B) : result B :=
  match r with
  | Ok a => k a
  | Raise e => Raise e
  end.

Declare Scope res_scope.
Notation "x <~ r ;; k" := (rbind r (fun x => k))
  (at level 61, r at next level, right associativity) : res_scope.
Local Open Scope res_scope.

(** An index into a Python list or a numpy axis of length [n]: negative
    indices count from the end, anything else outside raises. *)
Definition py_index (n : nat) (i : Z) : result nat :=
  if (0 <=? i)%Z && (i <? Z.of_nat n)%Z then Ok (Z.to_nat i)
  else if (- Z.of_nat n <=? i)%Z && (i <? 0)%Z then Ok (Z.to_nat (i + Z.of_nat n))
  else Raise IndexError.

(** [l[i]] *)
Definition getitem {A} (l : list A) (i : Z) : result A :=
  match py_index (List.length l) i with
  | Ok k => match nth_error l k with
            | Some a => Ok a
            | None => Raise IndexError
            end
  | Raise e => Raise e
  end.

(** ** float32 arithmetic *)

Local Open Scope Q_scope.

Module Float32.

(** [floor (log2 q)] for a positive [q]: the difference of the bit
    lengths of numerator and denominator, or one less. *)
Definition ilog2 (q : Q) : Z :=
  let k := (Z.log2 (Qnum q) - Z.log2 (Zpos (Qden q)))%Z in
  if Qle_bool (2 ^ k) q then k else (k - 1)%Z.

(** Rounding to the nearest integer, ties to even. *)
Definition round_half_even (q : Q) : Z :=
  let f := Qfloor q in
  match Qcompare (q - inject_Z f) (1 # 2) with
  | Lt => f
  | Gt => (f + 1)%Z
  | Eq => if Z.even f then f else (f + 1)%Z
  end.

(** Significand bits of binary32. *)
Definition prec : Z := 24.

(** A positive rational rounded to [prec] significant bits. *)
Definition round_pos (q : Q) : Q :=
  let s := (ilog2 q - (prec - 1))%Z in
  inject_Z (round_half_even (q * 2 ^ (- s))) * 2 ^ s.

(** Round to nearest, ties to even.  The exponent is not bounded: the
    samples are machine integers, and their float32 images, differences
    and quotients stay inside the exponent range of binary32. *)
Definition round (q : Q) : Q :=
  match Qcompare q 0 with
  | Eq => 0
  | Gt => round_pos q
  | Lt => - round_pos (- q)
  end.

Inductive f32 : Set :=
| Finite (q : Q)
| PInf
| NInf
| NaN.

Definition zero : f32 := Finite 0.

(** [numpy.float32(z)], as [astype(np.float32)] does on each sample. *)
Definition of_Z (z : Z) : f32 := Finite (round (inject_Z z)).

Definition isnan (a : f32) : bool :=
  match a with NaN => true | _ => false end.

(** [a < b]; false as soon as one side is NaN. *)
Definition lt (a b : f32) : bool :=
  match a, b with
  | NaN, _ | _, NaN => false
  | _, NInf => false
  | NInf, _ => true
  | PInf, _ => false
  | _, PInf => true
  | Finite x, Finite y => negb (Qle_bool y x)
  end.

(** [a - b] *)
Definition sub (a b : f32) : f32 :=
  match a, b with
  | NaN, _ | _, NaN => NaN
  | PInf, PInf | NInf, NInf => NaN
  | PInf, _ | _, NInf => PInf
  | NInf, _ | _, PInf => NInf
  | Finite x, Finite y => Finite (round (x - y))
  end.

Definition sign_inf (negative : bool) : f32 :=
  if negative then NInf else PInf.

Definition negative (a : f32) : bool :=
  match a with
  | Finite x => negb (Qle_bool 0 x)
  | NInf => true
  | _ => false
  end.

(** [a / b]: numpy divides by zero without raising, [0 / 0] is NaN and
    [x / 0] an infinity of the sign of [x]. *)
Definition div (a b : f32) : f32 :=
  match a, b with
  | NaN, _ | _, NaN => NaN
  | (PInf | NInf), (PInf | NInf) => NaN
  | (PInf | NInf), Finite _ => sign_inf (xorb (negative a) (negative b))
  | Finite _, (PInf | NInf) => zero
  | Finite x, Finite y =>
      if Qeq_bool y 0 then
        if Qeq_bool x 0 then NaN else sign_inf (negative a)
      else Finite (round (x / y))
  end.

(** [numpy.minimum] and [numpy.maximum]: a NaN operand wins. *)
Definition minimum (a b : f32) : f32 :=
  if isnan a then a else if isnan b then b else if lt b a then b else a.

Definition maximum (a b : f32) : f32 :=
  if isnan a then a else if isnan b then b else if lt a b then b else a.

End Float32.
Import Float32.

(** ** numpy arrays *)

(** An array is its shape and the element at each index; only indices
    inside the shape are meaningful. *)
Record ndarray2 (A : Type) : Type := {
  shape2 : nat * nat;
  at2 : nat -> nat -> A
}.
Arguments shape2 {A} _.
Arguments at2 {A} _ _ _.

Record ndarray3 (A : Type) : Type := {
  shape3 : nat * nat * nat;
  at3 : nat -> nat -> nat -> A
}.
Arguments shape3 {A} _.
Arguments at3 {A} _ _ _ _.

(** [a.astype(np.float32)] *)
Definition astype_float32 (a : ndarray2 Z) : ndarray2 f32 :=
  {| shape2 := shape2 a; at2 := fun r c => of_Z (at2 a r c) |}.

(** [np.zeros(shape, dtype=np.float32)] *)
Definition np_zeros (shape : nat * nat * nat) : ndarray3 f32 :=
  {| shape3 := shape; at3 := fun _ _ _ => zero |}.

(** numpy broadcasting of one dimension: an extent fits the target when it
    is the same or 1. *)
Definition broadcastable (n target : nat) : bool :=
  (n =? target)%nat || (n =? 1)%nat.

(** The source index that a broadcast dimension reads for target index [i]. *)
Definition broadcast_index (n i : nat) : nat :=
  if (n =? 1)%nat then 0%nat else i.

(** [volume[:, :, i] = a]: [a] is broadcast to the shape of the slice, and
    numpy raises when it cannot be. *)
Definition setitem_z (volume : ndarray3 f32) (i : nat) (a : ndarray2 f32)
  : result (ndarray3 f32) :=
  let '(R, C, N) := shape3 volume in
  let '(r, c) := shape2 a in
  if (i <? N)%nat then
    if broadcastable r R && broadcastable c C then
      Ok {| shape3 := (R, C, N);
            at3 := fun x y z =>
                     if (z =? i)%nat
                     then at2 a (broadcast_index r x) (broadcast_index c y)
                     else at3 volume x y z |}
    else Raise ValueError
  else Raise IndexError.

(** The elements of an array in index order. *)
Definition voxels {A} (v : ndarray3 A) : list A :=
  let '(R, C, N) := shape3 v in
  flat_map (fun x =>
    flat_map (fun y => map (fun z => at3 v x y z) (seq 0 N)) (seq 0 C))
    (seq 0 R).

(** [a.min()] and [a.max()]; numpy raises on an array without elements. *)
Definition np_min (v : ndarray3 f32) : result f32 :=
  match voxels v with
  | [] => Raise ValueError
  | x :: xs => Ok (fold_left minimum xs x)
  end.

Definition np_max (v : ndarray3 f32) : result f32 :=
  match voxels v with
  | [] => Raise ValueError
  | x :: xs => Ok (fold_left maximum xs x)
  end.

(** [a - s] and [a / s] for a scalar [s]. *)
Definition np_sub_scalar (v : ndarray3 f32) (s : f32) : ndarray3 f32 :=
  {| shape3 := shape3 v; at3 := fun x y z => sub (at3 v x y z) s |}.

Definition np_div_scalar (v : ndarray3 f32) (s : f32) : ndarray3 f32 :=
  {| shape3 := shape3 v; at3 := fun x y z => div (at3 v x y z) s |}.

(** [volume[i, :, :]], [volume[:, i, :]] and [volume[:, :, i]]. *)
Definition getitem_x {A} (v : ndarray3 A) (i : Z) : result (ndarray2 A) :=
  let '(R, C, N) := shape3 v in
  k <~ py_index R i ;;
  Ok {| shape2 := (C, N); at2 := fun a b => at3 v k a b |}.

Definition getitem_y {A} (v : ndarray3 A) (i : Z) : result (ndarray2 A) :=
  let '(R, C, N) := shape3 v in
  k <~ py_index C i ;;
  Ok {| shape2 := (R, N); at2 := fun a b => at3 v a k b |}.

Definition getitem_z {A} (v : ndarray3 A) (i : Z) : result (ndarray2 A) :=
  let '(R, C, N) := shape3 v in
  k <~ py_index N i ;;
  Ok {| shape2 := (R, C); at2 := fun a b => at3 v a b k |}.

(** ** DICOM files *)

(** The value of a data element as pydicom hands it out.  An element
    without a value reads as None (as '' when it holds text); one value
    reads as that value; several values, separated by a backslash in the
    file, read as a MultiValue sequence of at least two. *)
Inductive value (A : Type) : Type :=
| Empty
| Single (a : A)
| MultiValue (a b : A) (more : list A).
Arguments Empty {A}.
Arguments Single {A} a.
Arguments MultiValue {A} a b more.

(** The elements of a data set that visual.py reads, absent or present
    with a value, and what the property [pixel_array] gives: the decoded
    image of a single-frame, one-sample-per-pixel slice, or the exception
    of the pixel data handler. *)
Record dataset : Type := {
  SeriesDescription : option (value string);
  InstanceNumber : option (value Z);
  Rows : option (value nat);
  Columns : option (value nat);
  pixel_array : result (ndarray2 Z);
  PixelSpacing : option (value Q);
  SliceThickness : option (value Q)
}.

Set Warnings "-register-all".

(** What a path names: a file on which [pydicom.dcmread] raises
    (InvalidDicomError when its content is not DICOM, PermissionError when
    it may not be opened, and so on), a file that parses, or a directory
    with its entries in listing order. *)
Inductive entry : Type :=
| Unreadable (e : exn)
| Dicom (ds : dataset)
| Dir (entries : list (string * entry)).

(** A file whose content is not DICOM. *)
Abbreviation NotDicom := (Unreadable InvalidDicomError).

Definition directory : Type := list (string * entry).

(** [pydicom.dcmread]: with or without [stop_before_pixels] the same file
    parses or does not; opening a directory fails. *)
Definition dcmread (f : entry) : result dataset :=
  match f with
  | Unreadable e => Raise e
  | Dicom ds => Ok ds
  | Dir _ => Raise IsADirectoryError
  end.

(** [ds.name]: attribute access on an absent element raises. *)
Definition getattr {A} (v : option A) : result A :=
  match v with
  | Some a => Ok a
  | None => Raise AttributeError
  end.

(** [ds.get(name, default)] *)
Definition get {A} (v : option A) (default : A) : A :=
  match v with
  | Some a => a
  | None => default
  end.

(** [v.lower()] on the value of a text element: a str, '' for an element
    without a value, or a MultiValue, which has no method [lower]. *)
Definition value_lower (v : value string) : result string :=
  match v with
  | Empty => Ok (PyStr.lower "")
  | Single s => Ok (PyStr.lower s)
  | MultiValue _ _ _ => Raise AttributeError
  end.

(** [int(v)] on the value of a numeric element: None and a MultiValue are
    not numbers. *)
Definition py_int {A} (v : value A) : result A :=
  match v with
  | Single a => Ok a
  | Empty | MultiValue _ _ _ => Raise TypeError
  end.

(** [v[i]] on the value of a numeric element: None and a single number are
    not subscriptable. *)
Definition value_getitem {A} (v : value A) (i : Z) : result A :=
  match v with
  | MultiValue a b more => getitem (a :: b :: more) i
  | Empty | Single _ => Raise TypeError
  end.

Definition is_dir (e : entry) : bool :=
  match e with Dir _ => true | _ => false end.

(** [os.walk(top)], top-down: the directory itself, then the walk of each
    of its subdirectories in listing order.  Each triple is
    [(root, dirnames, files)]; a path that is not a directory yields
    nothing. *)
Fixpoint walk (top : string) (e : entry)
  : list (string * list string * list (string * entry)) :=
  match e with
  | Dir entries =>
      (top,
       map fst (filter (fun p => is_dir (snd p)) entries),
       filter (fun p => negb (is_dir (snd p))) entries)
      :: flat_map (fun p => walk (PyStr.path_join top (fst p)) (snd p)) entries
  | _ => []
  end.

Definition os_walk (top : string) (d : directory)
  : list (string * list string * list (string * entry)) :=
  walk top (Dir d).

(** [os.listdir(directory)]: files and subdirectories alike. *)
Definition os_listdir (d : directory) : list (string * entry) := d.

Definition is_dcm (filename : string) : bool :=
  PyStr.endswith (PyStr.lower filename) ".dcm".

(** ** find_t1_series (visual.py, lines 17-32) *)

Definition is_InvalidDicomError (e : exn) : bool :=
  match e with InvalidDicomError => true | _ => false end.

(** The body of the two loops; [Some root] is the early [return root],
    [None] is falling out of the loop.  The [except] clause of line 29
    names one class: any other exception of the [try] block leaves the
    function. *)
Fixpoint t1_scan_files (root : string) (files : list (string * entry))
  : M (option string) :=
  match files with
  | [] => ret None
  | (filename, f) :: rest =>
      if is_dcm filename then
        let filepath := PyStr.path_join root filename in
        r <- try_except
               (dicom_data <- lift (dcmread f) ;;
                series_description <-
                  lift (value_lower
                          (get (SeriesDescription dicom_data) (Single ""))) ;;
                if PyStr.contains "t1" series_description then
                  logging (INFO (T1_series_found_at root)) ;;;
                  ret (Some root)
                else ret None)
               is_InvalidDicomError
               (fun _ => logging (WARNING (Invalid_DICOM_file filepath)) ;;;
                         ret None) ;;
        match r with
        | Some found => ret (Some found)
        | None => t1_scan_files root rest
        end
      else t1_scan_files root rest
  end.

Fixpoint t1_scan_walk (w : list (string * list string * list (string * entry)))
  : M (option string) :=
  match w with
  | [] => ret None
  | (root, _, files) :: rest =>
      r <- t1_scan_files root files ;;
      match r with
      | Some found => ret (Some found)
      | None => t1_scan_walk rest
      end
  end.

Definition find_t1_series (path : string) (d : directory) : M (option string) :=
  logging (INFO Searching_for_T1_series) ;;;
  r <- t1_scan_walk (os_walk path d) ;;
  match r with
  | Some root => ret (Some root)
  | None =>
      logging (WARNING No_T1_weighted_series_found) ;;;
      ret None
  end.

(** ** list.sort(key=...) *)

(** The keys of all elements, computed in list order before anything is
    moved; the first key that raises ends the sort. *)
Fixpoint sort_keys {A} (key : A -> result Z) (l : list A)
  : result (list (Z * A)) :=
  match l with
  | [] => Ok []
  | x :: xs =>
      rbind (key x) (fun k =>
      rbind (sort_keys key xs) (fun ks => Ok ((k, x) :: ks)))
  end.

(** [x] goes in front of the first element whose key is not smaller. *)
Fixpoint insert_by_key {A} (x : Z * A) (l : list (Z * A)) : list (Z * A) :=
  match l with
  | [] => [x]
  | y :: l' =>
      if (fst y <? fst x)%Z then y :: insert_by_key x l' else x :: y :: l'
  end.

(** Python's sort is stable; the stable sort by insertion has the same
    result. *)
Fixpoint stable_sort {A} (l : list (Z * A)) : list (Z * A) :=
  match l with
  | [] => []
  | x :: xs => insert_by_key x (stable_sort xs)
  end.

Definition list_sort {A} (key : A -> result Z) (l : list A) : result (list A) :=
  rbind (sort_keys key l) (fun ks => Ok (map snd (stable_sort ks))).

(** ** load_dicom_series (visual.py, lines 34-54) *)

(** The sort key of line 37: [int(dcmread(path).InstanceNumber)]. *)
Definition instance_key (f : string * entry) : result Z :=
  ds <~ dcmread (snd f) ;;
  number <~ getattr (InstanceNumber ds) ;;
  py_int number.

(** Line 36: the '.dcm' entries of the listing. *)
Definition listed_dicom_files (d : directory) : list (string * entry) :=
  filter (fun f => is_dcm (fst f)) (os_listdir d).

(** Lines 36-37: the '.dcm' entries of the listing, sorted by key. *)
Definition sorted_dicom_files (d : directory) : result (list (string * entry)) :=
  let dicom_files := listed_dicom_files d in
  list_sort instance_key dicom_files.

(** Lines 44-46: the loop over [enumerate(dicom_files)] from index [i]
    on; its state is the volume and the variable [ds]. *)
Fixpoint stack_loop (files : list (string * entry)) (i : nat)
    (st : ndarray3 f32 * dataset) : result (ndarray3 f32 * dataset) :=
  match files with
  | [] => Ok st
  | file :: rest =>
      ds <~ dcmread (snd file) ;;
      pixels <~ pixel_array ds ;;
      volume <~ setitem_z (fst st) i (astype_float32 pixels) ;;
      stack_loop rest (S i) (volume, ds)
  end.

(** Lines 40-41: [(int(ds.Rows), int(ds.Columns), len(dicom_files))]. *)
Definition img_shape (ds : dataset) (n : nat) : result (nat * nat * nat) :=
  rows <~ getattr (Rows ds) ;;
  rows <~ py_int rows ;;
  columns <~ getattr (Columns ds) ;;
  columns <~ py_int columns ;;
  Ok (rows, columns, n).

(** Lines 36-46: the sorted files, the volume before normalization and
    the data set last read. *)
Definition stack_dicom_series (d : directory)
  : result (list (string * entry) * ndarray3 f32 * dataset) :=
  dicom_files <~ sorted_dicom_files d ;;
  first <~ getitem dicom_files 0 ;;
  ds <~ dcmread (snd first) ;;
  shape <~ img_shape ds (List.length dicom_files) ;;
  let volume := np_zeros shape in
  st <~ stack_loop dicom_files 0 (volume, ds) ;;
  Ok (dicom_files, fst st, snd st).

(** Line 49: [(volume - volume.min()) / (volume.max() - volume.min())]. *)
Definition normalize (volume : ndarray3 f32) : result (ndarray3 f32) :=
  lo <~ np_min volume ;;
  let shifted := np_sub_scalar volume lo in
  hi <~ np_max volume ;;
  lo' <~ np_min volume ;;
  Ok (np_div_scalar shifted (sub hi lo')).

(** Lines 51-54: the spacing triple read from [ds].  The two attributes
    are read first, the tuple is built from them afterwards; the slice
    thickness goes into it as it is. *)
Definition read_spacing (ds : dataset) : result (Q * Q * value Q) :=
  pixel_spacing <~ getattr (PixelSpacing ds) ;;
  slice_thickness <~ getattr (SliceThickness ds) ;;
  p0 <~ value_getitem pixel_spacing 0 ;;
  p1 <~ value_getitem pixel_spacing 1 ;;
  Ok (p0, p1, slice_thickness).

Definition load_dicom_series (path : string) (d : directory)
  : M (ndarray3 f32 * (Q * Q * value Q)) :=
  logging (INFO (Loading_DICOM_series_from path)) ;;;
  lift (stacked <~ stack_dicom_series d ;;
        let '(_, volume, ds) := stacked in
        volume <~ normalize volume ;;
        spacing <~ read_spacing ds ;;
        Ok (volume, spacing)).

(** ** MRIVisualization (visual.py, lines 56-100) *)

(** The instance: the two parameters, the bounds of [slice_index] held by
    its parameter object, and the attributes set by [__init__]. *)
Record MRIVisualization : Type := {
  slice_index : Z;
  view_axis : string;
  slice_index_bounds : Z * Z;
  volume : ndarray3 f32;
  spacing : Q * Q * value Q
}.

(** Class-level declarations of lines 57-58. *)
Definition default_slice_index : Z := 0.
Definition default_bounds : Z * Z := (0, 100)%Z.
Definition default_view_axis : string := "z".
Definition view_axis_objects : list string := ["x"; "y"; "z"].

(** [param.Integer] accepts a value inside its bounds, both ends included. *)
Definition in_bounds (bounds : Z * Z) (v : Z) : bool :=
  (fst bounds <=? v)%Z && (v <=? snd bounds)%Z.

Definition validate_slice_index (bounds : Z * Z) (v : Z) : result Z :=
  if in_bounds bounds v then Ok v else Raise ValueError.

(** [param.ObjectSelector] accepts one of its objects. *)
Definition validate_view_axis (a : string) : result string :=
  if existsb (String.eqb a) view_axis_objects then Ok a else Raise ValueError.

(** The keyword arguments [**params] that name a parameter. *)
Record params : Type := {
  p_slice_index : option Z;
  p_view_axis : option string
}.

Definition no_params : params :=
  {| p_slice_index := None; p_view_axis := None |}.

(** Lines 60-63. *)
Definition init (dicom_directory : string) (d : directory) (ps : params)
  : M MRIVisualization :=
  si <- lift (match p_slice_index ps with
              | Some v => validate_slice_index default_bounds v
              | None => Ok default_slice_index
              end) ;;
  va <- lift (match p_view_axis ps with
              | Some a => validate_view_axis a
              | None => Ok default_view_axis
              end) ;;
  loaded <- load_dicom_series dicom_directory d ;;
  let '(vol, sp) := loaded in
  let '(_, _, n) := shape3 vol in
  ret {| slice_index := si;
         view_axis := va;
         slice_index_bounds := (0, Z.of_nat n - 1)%Z;
         volume := vol;
         spacing := sp |}.

(** *** matplotlib.pyplot *)

(** The matplotlib calls that draw on the figure of [view]. *)
Inductive plot_call : Type :=
| Imshow (data : ndarray2 f32) (cmap : string)
| Axis_off
| Tight_layout.

(** A figure and what was drawn on it. *)
Record figure : Type := {
  figsize : Q * Q;
  drawn : list plot_call
}.

Definition blank (size : Q * Q) : figure :=
  {| figsize := size; drawn := [] |}.

(** The state that the module [matplotlib.pyplot] keeps between calls:
    the open figures by number, the current figure first.  visual.py
    never writes rcParams, which stay what they were at import. *)
Definition pyplot : Type := list (nat * figure).

Definition fignums (plt : pyplot) : list nat := map fst plt.

(** [plt.subplots(figsize=size)]: a new figure, numbered one past the
    highest open number, becomes the current figure. *)
Definition subplots (size : Q * Q) (plt : pyplot) : nat * pyplot :=
  let num := S (list_max (fignums plt)) in
  (num, (num, blank size) :: plt).

(** A call on the axes of figure [num] adds to what is drawn on it. *)
Definition draw (num : nat) (c : plot_call) (plt : pyplot) : pyplot :=
  map (fun p => if (fst p =? num)%nat
                then (fst p, {| figsize := figsize (snd p);
                                drawn := drawn (snd p) ++ [c] |})
                else p) plt.

(** The figure size of rcParams, for a figure opened without one. *)
Definition rc_figsize : Q * Q := (64 # 10, 48 # 10).

(** [plt.gcf()]: the current figure; one is opened when there is none. *)
Definition gcf (plt : pyplot) : nat * figure * pyplot :=
  match plt with
  | (num, fig) :: _ => (num, fig, plt)
  | [] => (1%nat, blank rc_figsize, [(1%nat, blank rc_figsize)])
  end.

(** [plt.tight_layout()] acts on the current figure. *)
Definition tight_layout (plt : pyplot) : pyplot :=
  let '(num, _, plt) := gcf plt in
  draw num Tight_layout plt.

(** [plt.savefig(buf, format='png')] writes the current figure. *)
Definition savefig (plt : pyplot) : figure * pyplot :=
  let '(_, fig, plt) := gcf plt in
  (fig, plt).

(** [plt.close(fig)] *)
Definition close (num : nat) (plt : pyplot) : pyplot :=
  filter (fun p => negb (fst p =? num)%nat) plt.

(** [pn.pane.PNG(buf, width, height)] where [buf] holds the figure that
    [plt.savefig] wrote. *)
Record png_pane : Type := {
  png : figure;
  width : nat;
  height : nat
}.

(** Lines 65-85.  The figure is opened before the volume is indexed and
    closed on the last line but one: an exception of lines 69-74 leaves it
    open. *)
Definition view (self : MRIVisualization) (plt : pyplot)
  : result png_pane * pyplot :=
  let '(fig, plt) := subplots (8, 8) plt in
  match (if String.eqb (view_axis self) "x" then
           getitem_x (volume self) (slice_index self)
         else if String.eqb (view_axis self) "y" then
           getitem_y (volume self) (slice_index self)
         else
           getitem_z (volume self) (slice_index self)) with
  | Raise e => (Raise e, plt)
  | Ok slice_data =>
      let plt := draw fig (Imshow slice_data "gray") plt in
      let plt := draw fig Axis_off plt in
      let plt := tight_layout plt in
      let '(buf, plt) := savefig plt in
      let plt := close fig plt in
      (Ok {| png := buf; width := 400; height := 400 |}, plt)
  end.

(** The parameters named by [@param.depends] on [view]. *)
Definition view_depends : list string := ["slice_index"; "view_axis"].

Inductive widget : Set :=
| IntSlider
| RadioBoxGroup.

(** The panel objects that [panel] builds.  [ParamMethod] is [self.view]
    placed in a layout: panel renders it, and again whenever one of the
    parameters it depends on changes. *)
Inductive viewable : Type :=
| Markdown (text : string)
| Param (self : MRIVisualization) (widgets : list (string * widget))
| ParamMethod (self : MRIVisualization) (depends : list string)
| Column (objects : list viewable) (column_width : option nat)
| Row (objects : list viewable).

(** Lines 87-100. *)
Definition panel (self : MRIVisualization) : viewable :=
  Column
    [ Markdown "# MRI Visualization";
      Row [ Column [ Param self [("slice_index", IntSlider);
                                 ("view_axis", RadioBoxGroup)] ]
                   (Some 200%nat);
            ParamMethod self view_depends ] ]
    None.

(** ** create_mri_visualization (visual.py, lines 104-110) *)

Definition create_mri_visualization (dicom_directory : string) (d : directory)
  : M viewable :=
  try_except
    (mri_vis <- init dicom_directory d no_params ;;
     ret (panel mri_vis))
    (fun _ => true)
    (fun e => logging (ERROR (Failed_to_create_visualization e)) ;;;
              raise e).

(** ** The served panel *)

(** What the page shows: the instance behind the widgets, the outcome of
    the last rendering of [view], and the figures pyplot holds. *)
Record session : Type := {
  instance : MRIVisualization;
  displayed : result png_pane;
  figures : pyplot
}.

(** A widget sets one parameter. *)
Inductive event : Type :=
| Set_slice_index (v : Z)
| Set_view_axis (a : string).

Definition event_parameter (e : event) : string :=
  match e with
  | Set_slice_index _ => "slice_index"
  | Set_view_axis _ => "view_axis"
  end.

(** Assignment to a parameter: the value is validated against the
    parameter object of the instance and nothing else changes. *)
Definition set_parameter (e : event) (self : MRIVisualization)
  : result MRIVisualization :=
  match e with
  | Set_slice_index v =>
      v' <~ validate_slice_index (slice_index_bounds self) v ;;
      Ok {| slice_index := v';
            view_axis := view_axis self;
            slice_index_bounds := slice_index_bounds self;
            volume := volume self;
            spacing := spacing self |}
  | Set_view_axis a =>
      a' <~ validate_view_axis a ;;
      Ok {| slice_index := slice_index self;
            view_axis := a';
            slice_index_bounds := slice_index_bounds self;
            volume := volume self;
            spacing := spacing self |}
  end.

(** Param notifies the watchers of a parameter only when the value set
    differs from the value held. *)
Definition parameter_changed (e : event) (self : MRIVisualization) : bool :=
  match e with
  | Set_slice_index v => negb (v =? slice_index self)%Z
  | Set_view_axis a => negb (String.eqb a (view_axis self))
  end.

(** The page when the panel is first served. *)
Definition serve (self : MRIVisualization) (plt : pyplot) : session :=
  let '(pane, plt) := view self plt in
  {| instance := self; displayed := pane; figures := plt |}.

(** One event: a rejected value changes nothing; an accepted one is
    stored, and [view] runs again when the value has changed and the
    parameter is one it depends on. *)
Definition step (depends : list string) (s : session) (e : event) : session :=
  match set_parameter e (instance s) with
  | Raise _ => s
  | Ok self' =>
      if parameter_changed e (instance s) &&
         existsb (String.eqb (event_parameter e)) depends
      then
        let '(pane, plt) := view self' (figures s) in
        {| instance := self'; displayed := pane; figures := plt |}
      else
        {| instance := self'; displayed := displayed s; figures := figures s |}
  end.

Definition run (depends : list string) (s : session) (es : list event) : session :=
  fold_left (step depends) es s.

(** ** The script entry point (visual.py, lines 113-117) *)

(** [d] is the directory that the relative path names; [panel.show()]
    serves the panel that was built. *)
Definition main (d : directory) : M viewable :=
  let dicom_directory := "dicom/SER00002" in
  _ <- find_t1_series dicom_directory d ;;
  panel <- create_mri_visualization dicom_directory d ;;
  ret panel.

(** ** Reference definitions for the statements *)

(** The files of a walk in the order the two loops of [find_t1_series]
    reach them, each with the root it was found under. *)
Definition walk_entries (w : list (string * list string * list (string * entry)))
  : list (string * (string * entry)) :=
  flat_map (fun t => map (pair (fst (fst t))) (snd t)) w.

(** What one pass of the inner loop does with a file: go on silently, go
    on after a warning, return, or let an exception out. *)
Inductive verdict : Set :=
| Pass
| Warn
| Found
| Stops (e : exn).

Definition verdict_of (f : string * entry) : verdict :=
  if is_dcm (fst f) then
    match dcmread (snd f) with
    | Raise InvalidDicomError => Warn
    | Raise e => Stops e
    | Ok ds =>
        match value_lower (get (SeriesDescription ds) (Single "")) with
        | Raise e => Stops e
        | Ok text => if PyStr.contains "t1" text then Found else Pass
        end
    end
  else Pass.

(** The outcome of the search over a sequence of entries. *)
Fixpoint scan_outcome (es : list (string * (string * entry)))
  : result (option string) :=
  match es with
  | [] => Ok None
  | (root, f) :: rest =>
      match verdict_of f with
      | Found => Ok (Some root)
      | Stops e => Raise e
      | Pass | Warn => scan_outcome rest
      end
  end.

(** What the search logs while it goes through the entries. *)
Fixpoint scan_log (es : list (string * (string * entry))) : log :=
  match es with
  | [] => []
  | (root, f) :: rest =>
      match verdict_of f with
      | Found => [INFO (T1_series_found_at root)]
      | Stops _ => []
      | Warn => WARNING (Invalid_DICOM_file (PyStr.path_join root (fst f)))
                :: scan_log rest
      | Pass => scan_log rest
      end
  end.

(** Entries that the loops go past. *)
Definition goes_on (e : string * (string * entry)) : Prop :=
  verdict_of (snd e) = Pass \/ verdict_of (snd e) = Warn.

(** *** File names and descriptions, stated on the text itself *)

(** A name that ends in ".dcm", each letter in either case. *)
Definition dcm_name (name : string) : Prop :=
  exists stem d c m,
    name = (stem ++ String "." (String d (String c (String m ""))))%string /\
    (d = "d" \/ d = "D")%char /\
    (c = "c" \/ c = "C")%char /\
    (m = "m" \/ m = "M")%char.

(** A text in which "t1" occurs, the letter in either case. *)
Definition mentions_t1 (text : string) : Prop :=
  exists before t after,
    text = (before ++ String t (String "1" after))%string /\
    (t = "t" \/ t = "T")%char.

(** A '.dcm' file that parses and whose SeriesDescription is one text
    that mentions t1. *)
Definition t1_file (f : string * entry) : Prop :=
  dcm_name (fst f) /\
  exists ds text,
    snd f = Dicom ds /\
    SeriesDescription ds = Some (Single text) /\
    mentions_t1 text.

(** A '.dcm' file that pydicom refuses as not DICOM. *)
Definition unparsable_file (f : string * entry) : Prop :=
  dcm_name (fst f) /\ snd f = NotDicom.

(** A '.dcm' file at which the search stops with exception [e]: it
    parses and its SeriesDescription has several values, which have no
    [lower] (AttributeError), or reading it raises an exception other
    than InvalidDicomError. *)
Definition stopping_file (f : string * entry) (e : exn) : Prop :=
  dcm_name (fst f) /\
  ((e = AttributeError /\
    exists ds a b more,
      snd f = Dicom ds /\
      SeriesDescription ds = Some (MultiValue a b more)) \/
   (snd f = Unreadable e /\ e <> InvalidDicomError)).

(** An entry that neither ends the search nor stops it. *)
Definition passed_over (e : string * (string * entry)) : Prop :=
  ~ t1_file (snd e) /\ forall x, ~ stopping_file (snd e) x.

(** The warnings left by the unparsable files of a sequence of entries,
    one for each, in order. *)
Inductive warnings : list (string * (string * entry)) -> log -> Prop :=
| warnings_nil : warnings [] []
| warnings_unparsable root f es l :
    unparsable_file f ->
    warnings es l ->
    warnings ((root, f) :: es)
             (WARNING (Invalid_DICOM_file (PyStr.path_join root (fst f))) :: l)
| warnings_other root f es l :
    ~ unparsable_file f ->
    warnings es l ->
    warnings ((root, f) :: es) l.

(** No name below the directory starts with a separator (a listing never
    yields such a name). *)
Fixpoint relative_names (e : entry) : bool :=
  match e with
  | Dir entries =>
      forallb (fun p => negb (PyStr.startswith (fst p) "/") &&
                        relative_names (snd p)) entries
  | _ => true
  end.

(** *** Parameters and panes *)

(** The instance after both widgets have been set. *)
Definition with_parameters (self : MRIVisualization) (i : Z) (a : string)
  : MRIVisualization :=
  {| slice_index := i;
     view_axis := a;
     slice_index_bounds := slice_index_bounds self;
     volume := volume self;
     spacing := spacing self |}.

(** The number of slices a volume has along an axis of the selector. *)
Definition axis_extent {A} (v : ndarray3 A) (a : string) : nat :=
  let '(R, C, N) := shape3 v in
  if String.eqb a "x" then R else if String.eqb a "y" then C else N.

(** The pane that [view] returns when it has drawn [s]. *)
Definition pane_of (s : ndarray2 f32) : png_pane :=
  {| png := {| figsize := (8, 8);
               drawn := [Imshow s "gray"; Axis_off; Tight_layout] |};
     width := 400;
     height := 400 |}.

(** The slice that lines 69-74 select. *)
Definition selected_slice (self : MRIVisualization) : result (ndarray2 f32) :=
  if String.eqb (view_axis self) "x" then
    getitem_x (volume self) (slice_index self)
  else if String.eqb (view_axis self) "y" then
    getitem_y (volume self) (slice_index self)
  else
    getitem_z (volume self) (slice_index self).

(** The page shows the rendering of the parameters as they are. *)
Definition up_to_date (s : session) : Prop :=
  displayed s = (x <~ selected_slice (instance s) ;; Ok (pane_of x)).

(** The two parameters hold values that their parameter objects accept. *)
Definition valid_parameters (self : MRIVisualization) : Prop :=
  in_bounds (slice_index_bounds self) (slice_index self) = true /\
  In (view_axis self) view_axis_objects.

(** ** Sample series *)

Module Sample.

(** A slice with the given description and samples, and the spacing
    metadata of an MRI series. *)
Definition slice_as (description : option (value string)) (number : Z)
    (rows columns : nat) (samples : nat -> nat -> Z) : entry :=
  Dicom {| SeriesDescription := description;
           InstanceNumber := Some (Single number);
           Rows := Some (Single rows);
           Columns := Some (Single columns);
           pixel_array := Ok {| shape2 := (rows, columns); at2 := samples |};
           PixelSpacing := Some (MultiValue (1 # 2) (1 # 2) []);
           SliceThickness := Some (Single 5) |}.

(** A slice of a T1 series. *)
Definition slice (number : Z) (rows columns : nat) (samples : nat -> nat -> Z)
  : entry :=
  slice_as (Some (Single "Ax T1 SE")) number rows columns samples.

(** Samples that count up row by row from [start]. *)
Definition ramp (columns : nat) (start : Z) (r c : nat) : Z :=
  (start + Z.of_nat (r * columns + c))%Z.

(** Two 2 x 2 slices listed out of order, next to a text file. *)
Definition square : directory :=
  [("a.dcm", slice 2 2 2 (ramp 2 1));
   ("notes.txt", NotDicom);
   ("B.DCM", slice 1 2 2 (ramp 2 10))].

(** Two slices of a single pixel: more slices than rows or columns. *)
Definition thin : directory :=
  [("1.dcm", slice 1 1 1 (ramp 1 7));
   ("2.dcm", slice 2 1 1 (ramp 1 9))].

(** A 2 x 2 slice followed by a slice of one row of two pixels. *)
Definition ragged : directory :=
  [("a.dcm", slice 1 2 2 (ramp 2 1));
   ("b.dcm", slice 2 1 2 (ramp 2 5))].

(** A 2 x 2 slice followed by a 3 x 3 slice. *)
Definition mismatched : directory :=
  [("a.dcm", slice 1 2 2 (ramp 2 1));
   ("b.dcm", slice 2 3 3 (ramp 3 1))].

(** Two slices whose samples are all 4. *)
Definition flat : directory :=
  [("a.dcm", slice 1 2 2 (fun _ _ => 4%Z));
   ("b.dcm", slice 2 2 2 (fun _ _ => 4%Z))].

(** A localizer whose SeriesDescription holds two values, listed before
    a slice of a T1 series. *)
Definition two_descriptions : directory :=
  [("loc.dcm", slice_as (Some (MultiValue "LOC" "3-plane" [])) 1 1 1 (ramp 1 0));
   ("t1.dcm", slice 2 1 1 (ramp 1 0))].

End Sample.

(** *** Sorted series *)

(** Ascending order of keys. *)
Definition key_le {A} (a b : Z * A) : Prop := (fst a <= fst b)%Z.

(** The elements of a keyed list that carry key [k], in list order. *)
Definition with_key {A} (k : Z) (l : list (Z * A)) : list (Z * A) :=
  filter (fun p => (fst p =? k)%Z) l.

(** The sample of a pixel array that lands at row [x], column [y] of a
    slice when the array is broadcast into the volume. *)
Definition broadcast_sample (a : ndarray2 Z) (x y : nat) : Z :=
  at2 a (broadcast_index (fst (shape2 a)) x) (broadcast_index (snd (shape2 a)) y).

(** A file whose pixel array decodes and can be assigned to a slice of
    R x C. *)
Definition fits_slice (R C : nat) (f : string * entry) : Prop :=
  exists ds a, snd f = Dicom ds /\
               pixel_array ds = Ok a /\
               broadcastable (fst (shape2 a)) R = true /\
               broadcastable (snd (shape2 a)) C = true.

(** A file whose pixel array decodes. *)
Definition decodes (f : string * entry) : Prop :=
  exists ds a, snd f = Dicom ds /\ pixel_array ds = Ok a.

(** A file that parses and carries one InstanceNumber. *)
Definition readable (f : string * entry) : Prop :=
  exists ds n, snd f = Dicom ds /\ InstanceNumber ds = Some (Single n).

(** The InstanceNumber of a readable file. *)
Definition instance_number (f : string * entry) : Z :=
  match snd f with
  | Dicom ds =>
      match InstanceNumber ds with
      | Some (Single n) => n
      | _ => 0%Z
      end
  | _ => 0%Z
  end.

Definition instance_le (f g : string * entry) : Prop :=
  (instance_number f <= instance_number g)%Z.

(** The files of a list that carry InstanceNumber [k], in list order. *)
Definition with_instance (k : Z) (l : list (string * entry))
  : list (string * entry) :=
  filter (fun f => (instance_number f =? k)%Z) l.

(** A file that parses, declares R rows and C columns, and has a pixel
    array of that shape. *)
Definition slice_of_shape (R C : nat) (f : string * entry) : Prop :=
  exists ds a,
    snd f = Dicom ds /\
    Rows ds = Some (Single R) /\
    Columns ds = Some (Single C) /\
    pixel_array ds = Ok a /\
    shape2 a = (R, C).

(** All files of a list declare the same dimensions. *)
Definition uniform_shape (l : list (string * entry)) : Prop :=
  exists R C, Forall (slice_of_shape R C) l.

(** A DICOM slice image: a file that parses, with one InstanceNumber, an
    image of Rows x Columns of at least one row and one column, a
    PixelSpacing of two values at least and a SliceThickness. *)
Definition slice_image (f : string * entry) : Prop :=
  exists ds n R C a p0 p1 more st,
    snd f = Dicom ds /\
    InstanceNumber ds = Some (Single n) /\
    Rows ds = Some (Single R) /\
    Columns ds = Some (Single C) /\
    (1 <= R)%nat /\ (1 <= C)%nat /\
    pixel_array ds = Ok a /\
    shape2 a = (R, C) /\
    PixelSpacing ds = Some (MultiValue p0 p1 more) /\
    SliceThickness ds = Some st.

(** The pixel arrays of the series have, or broadcast to, the dimensions
    that the first file in sorted order declares. *)
Definition broadcast_compatible (d : directory) : Prop :=
  forall first rest ds0 R C,
    sorted_dicom_files d = Ok (first :: rest) ->
    snd first = Dicom ds0 ->
    Rows ds0 = Some (Single R) ->
    Columns ds0 = Some (Single C) ->
    Forall (fits_slice R C) (first :: rest).

(** Why the sort key of a listed entry raises. *)
Inductive key_failure : entry -> exn -> Prop :=
| key_unreadable e : key_failure (Unreadable e) e
| key_directory entries : key_failure (Dir entries) IsADirectoryError
| key_absent ds :
    InstanceNumber ds = None -> key_failure (Dicom ds) AttributeError
| key_empty ds :
    InstanceNumber ds = Some Empty -> key_failure (Dicom ds) TypeError
| key_multi_valued ds a b more :
    InstanceNumber ds = Some (MultiValue a b more) ->
    key_failure (Dicom ds) TypeError.

(** * Properties *)

(** ** Text matching *)

Lemma lower_app (s t : string) :
  PyStr.lower (s ++ t) = (PyStr.lower s ++ PyStr.lower t)%string.
Proof.
  induction s as [|c s IH]; simpl; [reflexivity | now rewrite IH].
Qed.

Lemma lower_split (s t1 t2 : string) :
  PyStr.lower s = (t1 ++ t2)%string ->
  exists s1 s2, s = (s1 ++ s2)%string /\
                PyStr.lower s1 = t1 /\ PyStr.lower s2 = t2.
Proof.
  revert s; induction t1 as [|c t1 IH]; intros s H.
  - exists EmptyString, s. auto.
  - destruct s as [|a s]; [discriminate|].
    simpl in H. inversion H as [[Ha Hs]].
    destruct (IH s Hs) as (s1 & s2 & -> & H1 & H2).
    exists (String a s1), s2. simpl. now rewrite H1.
Qed.

Lemma startswith_spec (s p : string) :
  PyStr.startswith s p = true <-> exists rest, s = (p ++ rest)%string.
Proof.
  revert s; induction p as [|a p IH]; intros s.
  - destruct s; simpl; split; eauto.
  - destruct s as [|b s]; simpl.
    + split; [discriminate | intros [rest H]; discriminate].
    + rewrite andb_true_iff, Ascii.eqb_eq, IH. split.
      * intros [-> [rest ->]]. now exists rest.
      * intros [rest H]. inversion H. eauto.
Qed.

Lemma endswith_spec (s p : string) :
  PyStr.endswith s p = true <-> exists stem, s = (stem ++ p)%string.
Proof.
  induction s as [|c s IH].
  - cbn [PyStr.endswith]. rewrite orb_false_r, String.eqb_eq. split.
    + intros <-. now exists EmptyString.
    + intros [stem H]. destruct stem; [exact H | discriminate].
  - cbn [PyStr.endswith]. rewrite orb_true_iff, String.eqb_eq, IH. split.
    + intros [<-|[stem ->]]; [now exists EmptyString|].
      now exists (String c stem).
    + intros [stem H]. destruct stem as [|a stem]; [now left|].
      right. inversion H. eauto.
Qed.

Lemma contains_spec (p s : string) :
  PyStr.contains p s = true <->
  exists before after, s = (before ++ p ++ after)%string.
Proof.
  induction s as [|c s IH].
  - cbn [PyStr.contains]. rewrite orb_false_r, startswith_spec. split.
    + intros [rest H]. now exists EmptyString, rest.
    + intros (before & after & H).
      destruct before; [eauto | discriminate].
  - cbn [PyStr.contains]. rewrite orb_true_iff, startswith_spec, IH. split.
    + intros [[rest H]|(before & after & ->)].
      * now exists EmptyString, rest.
      * now exists (String c before), after.
    + intros (before & after & H). destruct before as [|a before].
      * left. eauto.
      * right. inversion H. eauto.
Qed.

Lemma lower_ascii_dot c : PyStr.lower_ascii c = "."%char -> c = "."%char.
Proof.
  destruct c as [[] [] [] [] [] [] [] []]; cbv; intros H;
    first [discriminate H | reflexivity].
Qed.

Lemma lower_ascii_1 c : PyStr.lower_ascii c = "1"%char -> c = "1"%char.
Proof.
  destruct c as [[] [] [] [] [] [] [] []]; cbv; intros H;
    first [discriminate H | reflexivity].
Qed.

Lemma lower_ascii_d c :
  PyStr.lower_ascii c = "d"%char -> (c = "d" \/ c = "D")%char.
Proof.
  destruct c as [[] [] [] [] [] [] [] []]; cbv; intros H;
    first [discriminate H | now left | now right].
Qed.

Lemma lower_ascii_c c :
  PyStr.lower_ascii c = "c"%char -> (c = "c" \/ c = "C")%char.
Proof.
  destruct c as [[] [] [] [] [] [] [] []]; cbv; intros H;
    first [discriminate H | now left | now right].
Qed.

Lemma lower_ascii_m c :
  PyStr.lower_ascii c = "m"%char -> (c = "m" \/ c = "M")%char.
Proof.
  destruct c as [[] [] [] [] [] [] [] []]; cbv; intros H;
    first [discriminate H | now left | now right].
Qed.

Lemma lower_ascii_t c :
  PyStr.lower_ascii c = "t"%char -> (c = "t" \/ c = "T")%char.
Proof.
  destruct c as [[] [] [] [] [] [] [] []]; cbv; intros H;
    first [discriminate H | now left | now right].
Qed.

(** The test of lines 21 and 36 accepts the names that end in ".dcm",
    each letter in either case, and no others. *)
Lemma is_dcm_spec (name : string) : is_dcm name = true <-> dcm_name name.
Proof.
  unfold is_dcm, dcm_name. rewrite endswith_spec. split.
  - intros [stem H]. apply lower_split in H.
    destruct H as (s1 & s2 & -> & _ & H2).
    destruct s2 as [|a [|b [|c [|d [|x s2]]]]]; try discriminate.
    simpl in H2. injection H2 as Ha Hb Hc Hd.
    apply lower_ascii_dot in Ha. subst a.
    exists s1, b, c, d. split; [reflexivity|].
    split; [now apply lower_ascii_d|].
    split; [now apply lower_ascii_c | now apply lower_ascii_m].
  - intros (stem & d & c & m & -> & Hd & Hc & Hm).
    exists (PyStr.lower stem). rewrite lower_app.
    destruct Hd as [->| ->], Hc as [->| ->], Hm as [->| ->]; reflexivity.
Qed.

(** The test of line 26 on the lowered text accepts the texts in which
    "t1" or "T1" occurs, and no others. *)
Lemma contains_t1_spec (text : string) :
  PyStr.contains "t1" (PyStr.lower text) = true <-> mentions_t1 text.
Proof.
  unfold mentions_t1. rewrite contains_spec. split.
  - intros (before & after & H). apply lower_split in H.
    destruct H as (s1 & s2 & -> & _ & H2).
    destruct s2 as [|a [|b s2]]; try discriminate.
    simpl in H2. injection H2 as Ha Hb Hs.
    apply lower_ascii_1 in Hb. subst b.
    exists s1, a, s2. split; [reflexivity|]. now apply lower_ascii_t.
  - intros (before & t & after & -> & Ht).
    exists (PyStr.lower before), (PyStr.lower after). rewrite lower_app.
    destruct Ht as [->| ->]; reflexivity.
Qed.

(** ** find_t1_series *)

Lemma t1_scan_files_spec root files l :
  t1_scan_files root files l =
  (scan_outcome (map (pair root) files),
   l ++ scan_log (map (pair root) files)).
Proof.
  revert l; induction files as [|[filename f] rest IH]; intros l.
  - simpl. now rewrite app_nil_r.
  - cbn [t1_scan_files map scan_outcome scan_log].
    unfold verdict_of. cbn [fst snd].
    destruct (is_dcm filename); [|apply IH].
    unfold bind, try_except, lift.
    destruct (dcmread f) as [ds|e].
    + destruct (get (SeriesDescription ds) (Single "")) as [|text|a b more];
        cbn [value_lower].
      * destruct (PyStr.contains "t1" (PyStr.lower "")); unfold logging, ret;
          simpl; [reflexivity | apply IH].
      * destruct (PyStr.contains "t1" (PyStr.lower text)); unfold logging, ret;
          simpl; [reflexivity | apply IH].
      * simpl. now rewrite app_nil_r.
    + destruct e; simpl; try now rewrite app_nil_r.
      unfold logging, ret. simpl. rewrite IH.
      now rewrite <- app_assoc.
Qed.

Lemma scan_outcome_app es es' :
  scan_outcome (es ++ es') =
  match scan_outcome es with
  | Ok None => scan_outcome es'
  | r => r
  end.
Proof.
  induction es as [|[root f] es IH]; simpl; [now destruct (scan_outcome es')|].
  now destruct (verdict_of f).
Qed.

Lemma scan_log_app es es' :
  scan_log (es ++ es') =
  match scan_outcome es with
  | Ok None => scan_log es ++ scan_log es'
  | _ => scan_log es
  end.
Proof.
  induction es as [|[root f] es IH]; simpl; [reflexivity|].
  destruct (verdict_of f); try reflexivity; rewrite IH;
    now destruct (scan_outcome es) as [[r|]|e].
Qed.

Lemma t1_scan_walk_spec w l :
  t1_scan_walk w l =
  (scan_outcome (walk_entries w), l ++ scan_log (walk_entries w)).
Proof.
  revert l; induction w as [|[[root dirs] files] rest IH]; intros l; simpl.
  - now rewrite app_nil_r.
  - unfold bind. rewrite t1_scan_files_spec.
    rewrite scan_outcome_app, scan_log_app.
    destruct (scan_outcome (map (pair root) files)) as [[r|]|e];
      try reflexivity.
    rewrite IH. now rewrite <- app_assoc.
Qed.

(** The outcome and the log of the whole search, in closed form. *)
Lemma find_t1_series_spec path d l :
  find_t1_series path d l =
  let es := walk_entries (os_walk path d) in
  (scan_outcome es,
   l ++ [INFO Searching_for_T1_series] ++ scan_log es ++
   match scan_outcome es with
   | Ok None => [WARNING No_T1_weighted_series_found]
   | _ => []
   end).
Proof.
  unfold find_t1_series, bind, logging. cbv zeta.
  rewrite t1_scan_walk_spec.
  destruct (scan_outcome _) as [[r|]|e]; unfold ret;
    now rewrite <- !app_assoc, ?app_nil_r.
Qed.

Lemma scan_goes_on pre :
  Forall goes_on pre -> scan_outcome pre = Ok None.
Proof.
  induction 1 as [|[root f] pre [H|H] _ IH]; simpl in *; [reflexivity| |];
    now rewrite H.
Qed.

Lemma scan_first pre root f post :
  Forall goes_on pre ->
  scan_outcome (pre ++ (root, f) :: post) =
    match verdict_of f with
    | Found => Ok (Some root)
    | Stops e => Raise e
    | Pass | Warn => scan_outcome post
    end /\
  scan_log (pre ++ (root, f) :: post) = scan_log pre ++ scan_log ((root, f) :: post).
Proof.
  intros H. rewrite scan_outcome_app, scan_log_app, (scan_goes_on pre H).
  split; reflexivity.
Qed.

(** The files that a walk lists are not directories. *)
Lemma walk_files : forall e top t,
  In t (walk top e) -> Forall (fun p => is_dir (snd p) = false) (snd t).
Proof.
  fix IH 1. intros [x | ds | entries] top t Hin; simpl in Hin; try contradiction.
  destruct Hin as [<-|Hin].
  - simpl. apply Forall_forall. intros p Hp. apply filter_In in Hp.
    destruct Hp as [_ Hp]. now apply negb_true_iff in Hp.
  - induction entries as [|[n sd] entries IHs]; simpl in Hin; [destruct Hin|].
    apply in_app_or in Hin. destruct Hin as [Hin|Hin]; [|now apply IHs].
    now apply IH in Hin.
Qed.

Lemma walk_entries_files w e :
  In e (walk_entries w) ->
  exists t, In t w /\ fst (fst t) = fst e /\ In (snd e) (snd t).
Proof.
  unfold walk_entries. intros H. apply in_flat_map in H.
  destruct H as (t & Ht & H). apply in_map_iff in H.
  destruct H as (f & <- & Hf). eauto.
Qed.

Lemma os_walk_entries_files path d e :
  In e (walk_entries (os_walk path d)) -> is_dir (snd (snd e)) = false.
Proof.
  intros H. apply walk_entries_files in H. destruct H as (t & Ht & _ & Hin).
  apply walk_files in Ht. rewrite Forall_forall in Ht. now apply Ht.
Qed.

(** The verdicts, stated on the names and the elements of the files. *)
Lemma verdict_found f : verdict_of f = Found <-> t1_file f.
Proof.
  unfold verdict_of, t1_file. rewrite <- is_dcm_spec.
  destruct (is_dcm (fst f)); [|split; [discriminate | intros [H _]; discriminate]].
  destruct (snd f) as [x | ds | entries]; simpl.
  - split; [destruct x; discriminate|].
    intros (_ & ds & text & H & _); discriminate.
  - destruct (SeriesDescription ds) as [[|text|a b more]|] eqn:Es;
      cbn [get value_lower].
    + split; [discriminate | intros (_ & ds' & text & H1 & H2 & _)].
      inversion H1; subst. congruence.
    + destruct (PyStr.contains "t1" (PyStr.lower text)) eqn:E.
      * apply contains_t1_spec in E. split; [|reflexivity].
        intros _. split; [reflexivity|]. now exists ds, text.
      * split; [discriminate|]. intros (_ & ds' & text' & H1 & H2 & H3).
        inversion H1; subst. rewrite Es in H2. inversion H2; subst.
        apply contains_t1_spec in H3. congruence.
    + split; [discriminate | intros (_ & ds' & text & H1 & H2 & _)].
      inversion H1; subst. congruence.
    + split; [discriminate | intros (_ & ds' & text & H1 & H2 & _)].
      inversion H1; subst. congruence.
  - split; [discriminate | intros (_ & ds & text & H & _); discriminate].
Qed.

Lemma verdict_stops f e :
  is_dir (snd f) = false ->
  (verdict_of f = Stops e <-> stopping_file f e).
Proof.
  intros Hd. unfold verdict_of, stopping_file. rewrite <- is_dcm_spec.
  destruct (is_dcm (fst f));
    [|split; [discriminate | intros [H _]; discriminate]].
  destruct (snd f) as [x | ds | entries]; simpl; [| |discriminate].
  - split.
    + intros H. split; [reflexivity|]. right.
      destruct x; inversion H; subst; (split; [reflexivity | discriminate]).
    + intros [_ [[_ (ds & a & b & more & H & _)] | [H Hne]]]; [discriminate|].
      inversion H; subst. destruct e; try reflexivity. congruence.
  - destruct (SeriesDescription ds) as [[|text|a b more]|] eqn:E;
      cbn [get value_lower].
    + split; [discriminate|].
      intros [_ [[_ (ds' & a & b & more & H1 & H2)] | [H _]]]; [|discriminate].
      inversion H1; subst. congruence.
    + destruct (PyStr.contains "t1" (PyStr.lower text));
        (split; [discriminate|];
         intros [_ [[_ (ds' & a & b & more & H1 & H2)] | [H _]]];
         [inversion H1; subst; congruence | discriminate]).
    + split.
      * intros H. inversion H. split; [reflexivity|]. left.
        split; [reflexivity|]. now exists ds, a, b, more.
      * intros [_ [[-> _] | [H _]]]; [reflexivity | discriminate].
    + split; [discriminate|].
      intros [_ [[_ (ds' & a & b & more & H1 & H2)] | [H _]]]; [|discriminate].
      inversion H1; subst. congruence.
Qed.

Lemma verdict_warn f : verdict_of f = Warn <-> unparsable_file f.
Proof.
  unfold verdict_of, unparsable_file. rewrite <- is_dcm_spec.
  destruct (is_dcm (fst f)); [|split; [discriminate | intros [H _]; discriminate]].
  destruct (snd f) as [x | ds | entries]; simpl.
  - destruct x; (split; [auto; discriminate | intros [_ H]; auto; discriminate]).
  - destruct (value_lower _) as [text|e];
      [destruct (PyStr.contains "t1" text)|];
      (split; [discriminate | intros [_ H]; discriminate]).
  - split; [discriminate | intros [_ H]; discriminate].
Qed.

Lemma passed_over_goes_on e :
  is_dir (snd (snd e)) = false -> passed_over e -> goes_on e.
Proof.
  intros Hd [Ht Hm]. unfold goes_on.
  destruct (verdict_of (snd e)) as [| | |x] eqn:E; auto.
  - apply verdict_found in E. contradiction.
  - apply (verdict_stops _ _ Hd) in E. now apply Hm in E.
Qed.

Lemma goes_on_passed_over e :
  is_dir (snd (snd e)) = false -> goes_on e -> passed_over e.
Proof.
  intros Hd H. split; [intros Hx | intros x Hx].
  - apply verdict_found in Hx. destruct H; congruence.
  - apply (verdict_stops _ _ Hd) in Hx. destruct H; congruence.
Qed.

Lemma warnings_scan_log es :
  Forall goes_on es -> warnings es (scan_log es).
Proof.
  induction 1 as [|[root f] es [H|H] _ IH]; simpl in *; [constructor| |];
    rewrite H.
  - apply warnings_other; [|exact IH].
    intros Hu. apply verdict_warn in Hu. congruence.
  - apply warnings_unparsable; [|exact IH]. now apply verdict_warn.
Qed.

(** Either some entry ends the search, or every entry is gone past. *)
Lemma scan_decides es :
  (exists pre root f post,
      es = pre ++ (root, f) :: post /\ Forall goes_on pre /\
      (verdict_of f = Found \/ exists e, verdict_of f = Stops e))
  \/ Forall goes_on es.
Proof.
  induction es as [|[root f] es IH]; [right; constructor|].
  destruct (verdict_of f) as [| | |x] eqn:E.
  - destruct IH as [(pre & r & g & post & -> & Hpre & Hg)|Hall].
    + left. exists ((root, f) :: pre), r, g, post.
      split; [reflexivity|]. split; [|exact Hg].
      constructor; [now left | exact Hpre].
    + right. constructor; [now left | exact Hall].
  - destruct IH as [(pre & r & g & post & -> & Hpre & Hg)|Hall].
    + left. exists ((root, f) :: pre), r, g, post.
      split; [reflexivity|]. split; [|exact Hg].
      constructor; [now right | exact Hpre].
    + right. constructor; [now right | exact Hall].
  - left. exists [], root, f, es. split; [reflexivity|]. split; [constructor|].
    now left.
  - left. exists [], root, f, es. split; [reflexivity|]. split; [constructor|].
    right. eauto.
Qed.

Lemma passed_over_all_go_on path d es :
  (forall e, In e es -> In e (walk_entries (os_walk path d))) ->
  Forall passed_over es -> Forall goes_on es.
Proof.
  intros Hin H. rewrite Forall_forall in *. intros e He.
  apply passed_over_goes_on; [|now apply H].
  apply (os_walk_entries_files path d). now apply Hin.
Qed.

(** C4, amended: the search goes through the '.dcm' files in walk order.
    Files that are not DICOM leave a warning each and are passed over, and
    so are files without a SeriesDescription that mentions t1.  The first
    file whose SeriesDescription is one text that mentions "t1", in either
    case of the letter, ends the search: its walk root is returned.  When
    every file is passed over, None is returned.  A file reached before
    any T1 file stops the search instead when its SeriesDescription has
    several values, with the AttributeError of [lower], or when reading
    it raises an exception other than InvalidDicomError, with that
    exception.  One of these three always happens. *)
Theorem find_t1_series_first_match (path : string) (d : directory) (l : log) :
  let es := walk_entries (os_walk path d) in
  (forall pre root f post,
      es = pre ++ (root, f) :: post ->
      Forall passed_over pre ->
      t1_file f ->
      exists w,
        warnings pre w /\
        find_t1_series path d l =
          (Ok (Some root),
           l ++ [INFO Searching_for_T1_series] ++ w ++
                [INFO (T1_series_found_at root)])) /\
  (Forall passed_over es ->
      exists w,
        warnings es w /\
        find_t1_series path d l =
          (Ok None,
           l ++ [INFO Searching_for_T1_series] ++ w ++
                [WARNING No_T1_weighted_series_found])) /\
  (forall pre root f post e,
      es = pre ++ (root, f) :: post ->
      Forall passed_over pre ->
      stopping_file f e ->
      exists w,
        warnings pre w /\
        find_t1_series path d l =
          (Raise e, l ++ [INFO Searching_for_T1_series] ++ w)) /\
  ((exists pre root f post,
       es = pre ++ (root, f) :: post /\
       Forall passed_over pre /\
       (t1_file f \/ exists e, stopping_file f e))
   \/ Forall passed_over es).
Proof.
  intros es.
  assert (Hsub : forall pre root f post,
             es = pre ++ (root, f) :: post ->
             forall e, In e pre -> In e (walk_entries (os_walk path d))).
  { intros pre root f post E e He. fold es. rewrite E.
    apply in_or_app. now left. }
  split; [|split; [|split]].
  - intros pre root f post E Hpre Hf.
    pose proof (passed_over_all_go_on path d pre (Hsub _ _ _ _ E) Hpre) as Hgo.
    exists (scan_log pre). split; [now apply warnings_scan_log|].
    rewrite find_t1_series_spec. cbv zeta. fold es. rewrite E.
    destruct (scan_first pre root f post Hgo) as [Ho Hl].
    apply verdict_found in Hf. rewrite Hf in Ho.
    rewrite Ho, Hl. cbn [scan_log]. rewrite Hf.
    now rewrite app_nil_r.
  - intros Hall.
    pose proof (passed_over_all_go_on path d es (fun e H => H) Hall) as Hgo.
    exists (scan_log es). split; [now apply warnings_scan_log|].
    rewrite find_t1_series_spec. cbv zeta. fold es.
    now rewrite (scan_goes_on es Hgo).
  - intros pre root f post e E Hpre Hf.
    pose proof (passed_over_all_go_on path d pre (Hsub _ _ _ _ E) Hpre) as Hgo.
    exists (scan_log pre). split; [now apply warnings_scan_log|].
    rewrite find_t1_series_spec. cbv zeta. fold es. rewrite E.
    destruct (scan_first pre root f post Hgo) as [Ho Hl].
    assert (Hv : verdict_of f = Stops e).
    { apply verdict_stops; [|exact Hf].
      apply (os_walk_entries_files path d (root, f)). fold es. rewrite E.
      apply in_or_app. right. now left. }
    rewrite Hv in Ho. rewrite Ho, Hl. cbn [scan_log]. rewrite Hv.
    now rewrite !app_nil_r.
  - assert (Hdir : forall e, In e es -> is_dir (snd (snd e)) = false)
      by (intros e He; now apply (os_walk_entries_files path d)).
    destruct (scan_decides es) as [(pre & root & f & post & E & Hpre & Hf)|Hall].
    + left. exists pre, root, f, post. split; [exact E|]. split.
      * rewrite Forall_forall in *. intros e He.
        apply goes_on_passed_over; [|now apply Hpre].
        apply Hdir. rewrite E. apply in_or_app. now left.
      * destruct Hf as [Hf|[x Hf]]; [left; now apply verdict_found|].
        right. exists x. apply (verdict_stops f x); [|exact Hf].
        apply (Hdir (root, f)). rewrite E. apply in_or_app. right. now left.
    + right. rewrite Forall_forall in *. intros e He.
      apply goes_on_passed_over; [now apply Hdir | now apply Hall].
Qed.

Lemma sample_slice_is_t1 stem number rows columns samples :
  t1_file ((stem ++ ".dcm")%string, Sample.slice number rows columns samples).
Proof.
  split.
  - exists stem, "d"%char, "c"%char, "m"%char. auto.
  - eexists _, _. split; [reflexivity|]. split; [reflexivity|].
    exists "Ax ", "T"%char, " SE". auto.
Qed.

Lemma find_t1_series_first_match_witness :
  let d := [("broken.dcm", NotDicom);
            ("notes.txt", NotDicom);
            ("plain.dcm", Sample.slice_as None 1 1 1 (Sample.ramp 1 0));
            ("sub", Dir [("x.dcm", Sample.slice 1 1 1 (Sample.ramp 1 0))])] in
  let pre := [("scans", ("broken.dcm", NotDicom));
              ("scans", ("notes.txt", NotDicom));
              ("scans", ("plain.dcm",
                         Sample.slice_as None 1 1 1 (Sample.ramp 1 0)))] in
  exists w,
    warnings pre w /\
    find_t1_series "scans" d [] =
      (Ok (Some "scans/sub"),
       [] ++ [INFO Searching_for_T1_series] ++ w ++
             [INFO (T1_series_found_at "scans/sub")]).
Proof.
  intros d pre.
  apply (proj1 (find_t1_series_first_match "scans" d [])
           pre "scans/sub"
           ("x.dcm", Sample.slice 1 1 1 (Sample.ramp 1 0)) []).
  - reflexivity.
  - assert (Hn : forall name, passed_over ("scans", (name, NotDicom))).
    { intros name. split.
      - intros (_ & ds & text & H & _). discriminate H.
      - intros x [_ [[_ (ds & a & b & more & H & _)] | [H Hne]]].
        + discriminate H.
        + apply Hne. simpl in H. now inversion H. }
    apply Forall_cons; [apply Hn|]. apply Forall_cons; [apply Hn|].
    apply Forall_cons; [|constructor]. split.
    + intros (_ & ds & text & H1 & H2 & _). simpl in H1.
      inversion H1; subst. discriminate H2.
    + intros x [_ [[_ (ds & a & b & more & H1 & H2)] | [H _]]].
      * simpl in H1. inversion H1; subst. discriminate H2.
      * discriminate H.
  - apply (sample_slice_is_t1 "x").
Defined.

(** C4 as stated fails: both '.dcm' files of this directory parse and the
    second is a T1 file, so the search is expected to return "scans"; but
    the SeriesDescription of the first holds two values, [lower] raises
    AttributeError on it, the [except] clause does not name that class,
    and the search ends there with nothing returned. *)
Lemma find_t1_series_stopped_by_two_descriptions :
  let es := walk_entries (os_walk "scans" Sample.two_descriptions) in
  (exists first,
      es = [("scans", ("loc.dcm", first));
            ("scans", ("t1.dcm", Sample.slice 2 1 1 (Sample.ramp 1 0)))] /\
      exists ds, first = Dicom ds) /\
  t1_file ("t1.dcm", Sample.slice 2 1 1 (Sample.ramp 1 0)) /\
  find_t1_series "scans" Sample.two_descriptions [] =
    (Raise AttributeError, [INFO Searching_for_T1_series]).
Proof.
  split; [|split].
  - eexists. split; [reflexivity|]. eexists. reflexivity.
  - apply (sample_slice_is_t1 "t1").
  - reflexivity.
Qed.

(** ** Directories without '.dcm' files *)

Lemma filter_none {A} (f : A -> bool) (l : list A) :
  (forall a, In a l -> f a = false) -> filter f l = [].
Proof.
  induction l as [|a l IH]; simpl; intros H; [reflexivity|].
  rewrite (H a (or_introl eq_refl)). apply IH. intros b Hb. apply H. now right.
Qed.

Lemma no_dcm_sorted_empty (d : directory) :
  (forall e, In e (os_listdir d) -> is_dcm (fst e) = false) ->
  sorted_dicom_files d = Ok [].
Proof.
  intros H. unfold sorted_dicom_files.
  unfold listed_dicom_files.
  rewrite (filter_none (fun f => is_dcm (fst f))) by exact H. reflexivity.
Qed.

(** C9: in a directory where no entry name ends in '.dcm' (whatever the
    case of the letters, as the listing of line 36 tests it), the sorted
    file list is empty, [load_dicom_series] raises the IndexError of
    [dicom_files[0]] after its own log line, and
    [create_mri_visualization] logs the failure and raises the same
    exception; no panel is returned. *)
Theorem create_mri_visualization_no_dcm
    (path : string) (d : directory) (l : log) :
  (forall e, In e (os_listdir d) -> is_dcm (fst e) = false) ->
  sorted_dicom_files d = Ok [] /\
  getitem (@nil (string * entry)) 0 = Raise IndexError /\
  load_dicom_series path d l =
    (Raise IndexError, l ++ [INFO (Loading_DICOM_series_from path)]) /\
  create_mri_visualization path d l =
    (Raise IndexError,
     l ++ [INFO (Loading_DICOM_series_from path);
           ERROR (Failed_to_create_visualization IndexError)]).
Proof.
  intros H. pose proof (no_dcm_sorted_empty d H) as E.
  assert (L : load_dicom_series path d l =
              (Raise IndexError, l ++ [INFO (Loading_DICOM_series_from path)])).
  { unfold load_dicom_series, bind, logging, lift, stack_dicom_series.
    rewrite E. reflexivity. }
  repeat split; auto.
  unfold create_mri_visualization, try_except, init, bind, lift.
  cbn -[load_dicom_series]. rewrite L.
  unfold logging, raise. simpl. now rewrite <- app_assoc.
Qed.

Lemma create_mri_visualization_no_dcm_witness :
  let d := [("notes.txt", NotDicom); ("series", Dir [])] in
  create_mri_visualization "scans" d [] =
    (Raise IndexError,
     [INFO (Loading_DICOM_series_from "scans");
      ERROR (Failed_to_create_visualization IndexError)]).
Proof.
  intros d.
  apply (create_mri_visualization_no_dcm "scans" d []).
  intros e [<-|[<-|[]]]; reflexivity.
Defined.

(** ** Indexing *)

Lemma py_index_inside (n : nat) (i : Z) :
  (0 <= i < Z.of_nat n)%Z -> py_index n i = Ok (Z.to_nat i).
Proof.
  intros H. unfold py_index.
  replace (0 <=? i)%Z with true by (symmetry; apply Z.leb_le; lia).
  replace (i <? Z.of_nat n)%Z with true by (symmetry; apply Z.ltb_lt; lia).
  reflexivity.
Qed.

Lemma py_index_beyond (n : nat) (i : Z) :
  (Z.of_nat n <= i)%Z -> py_index n i = Raise IndexError.
Proof.
  intros H. unfold py_index.
  replace (i <? Z.of_nat n)%Z with false by (symmetry; apply Z.ltb_ge; lia).
  replace (i <? 0)%Z with false by (symmetry; apply Z.ltb_ge; lia).
  now rewrite !andb_false_r.
Qed.

Lemma in_bounds_spec (lo hi v : Z) :
  in_bounds (lo, hi) v = true <-> (lo <= v <= hi)%Z.
Proof.
  unfold in_bounds; simpl. rewrite andb_true_iff, !Z.leb_le. tauto.
Qed.

(** ** The figures of pyplot *)

Lemma fresh_fignum (plt : pyplot) :
  ~ In (S (list_max (fignums plt))) (fignums plt).
Proof.
  intros H.
  assert (Hle : Forall (fun k => k <= list_max (fignums plt))%nat (fignums plt))
    by now apply list_max_le.
  rewrite Forall_forall in Hle. specialize (Hle _ H). lia.
Qed.

Lemma draw_elsewhere (num : nat) (c : plot_call) (plt : pyplot) :
  ~ In num (fignums plt) -> draw num c plt = plt.
Proof.
  unfold draw, fignums. induction plt as [|p plt IH]; simpl; intros H;
    [reflexivity|].
  destruct (fst p =? num)%nat eqn:E.
  - apply Nat.eqb_eq in E. tauto.
  - rewrite IH by tauto. reflexivity.
Qed.

Lemma close_elsewhere (num : nat) (plt : pyplot) :
  ~ In num (fignums plt) -> close num plt = plt.
Proof.
  unfold close, fignums. induction plt as [|p plt IH]; simpl; intros H;
    [reflexivity|].
  destruct (fst p =? num)%nat eqn:E.
  - apply Nat.eqb_eq in E. tauto.
  - simpl. rewrite IH by tauto. reflexivity.
Qed.

(** ** view *)

(** What [view] returns and what it leaves behind: the pane of the
    selected slice with the figures as they were, or the exception of the
    indexing with the figure of line 67 still open. *)
Lemma view_spec (self : MRIVisualization) (plt : pyplot) :
  view self plt =
  match selected_slice self with
  | Ok s => (Ok (pane_of s), plt)
  | Raise e => (Raise e, (S (list_max (fignums plt)), blank (8, 8)) :: plt)
  end.
Proof.
  unfold view, subplots, selected_slice.
  destruct (if String.eqb (view_axis self) "x" then _ else _) as [s|e];
    [|reflexivity].
  pose proof (fresh_fignum plt) as Hfresh.
  set (n := S (list_max (fignums plt))) in *.
  unfold tight_layout, savefig, draw at 1 2. cbn [map fst snd gcf].
  rewrite !Nat.eqb_refl. cbn [fst snd figsize drawn blank map gcf draw].
  rewrite !Nat.eqb_refl. cbn [fst snd figsize drawn].
  fold (draw n (Imshow s "gray") plt).
  rewrite (draw_elsewhere n (Imshow s "gray") plt Hfresh).
  fold (draw n Axis_off plt). rewrite (draw_elsewhere n Axis_off plt Hfresh).
  fold (draw n Tight_layout plt).
  rewrite (draw_elsewhere n Tight_layout plt Hfresh).
  unfold close. cbn [filter fst]. rewrite Nat.eqb_refl. cbn [negb].
  fold (close n plt). rewrite (close_elsewhere n plt Hfresh).
  reflexivity.
Qed.

Lemma view_pane (self : MRIVisualization) (plt : pyplot) :
  fst (view self plt) = s <~ selected_slice self ;; Ok (pane_of s).
Proof.
  rewrite view_spec. now destruct (selected_slice self).
Qed.

Lemma selected_x (self : MRIVisualization) :
  view_axis self = "x"%string ->
  selected_slice self = getitem_x (volume self) (slice_index self).
Proof.
  intros E. unfold selected_slice. now rewrite E.
Qed.

Lemma selected_y (self : MRIVisualization) :
  view_axis self = "y"%string ->
  selected_slice self = getitem_y (volume self) (slice_index self).
Proof.
  intros E. unfold selected_slice. now rewrite E.
Qed.

Lemma selected_z (self : MRIVisualization) :
  view_axis self = "z"%string ->
  selected_slice self = getitem_z (volume self) (slice_index self).
Proof.
  intros E. unfold selected_slice. now rewrite E.
Qed.

Lemma view_axis_cases (a : string) :
  In a view_axis_objects -> a = "x"%string \/ a = "y"%string \/ a = "z"%string.
Proof.
  simpl. intuition auto.
Qed.

(** C2, amended: when [slice_index] is a valid index along the selected
    axis, [view] draws one image and nothing else on its figure, the image
    being [volume[i, :, :]] for 'x', [volume[:, i, :]] for 'y' and
    [volume[:, :, i]] for 'z', returns the pane of that figure and leaves
    the figures of pyplot as it found them. *)
Theorem view_renders_selected_slice
    (self : MRIVisualization) (plt : pyplot) (R C N : nat) :
  shape3 (volume self) = (R, C, N) ->
  In (view_axis self) view_axis_objects ->
  (0 <= slice_index self < Z.of_nat (axis_extent (volume self) (view_axis self)))%Z ->
  exists s,
    view self plt = (Ok (pane_of s), plt) /\
    let i := Z.to_nat (slice_index self) in
    (view_axis self = "x"%string ->
       shape2 s = (C, N) /\ forall p q, at2 s p q = at3 (volume self) i p q) /\
    (view_axis self = "y"%string ->
       shape2 s = (R, N) /\ forall p q, at2 s p q = at3 (volume self) p i q) /\
    (view_axis self = "z"%string ->
       shape2 s = (R, C) /\ forall p q, at2 s p q = at3 (volume self) p q i).
Proof.
  intros Hs Ha Hi. unfold axis_extent in Hi. rewrite Hs in Hi.
  rewrite view_spec.
  destruct (view_axis_cases _ Ha) as [E|[E|E]]; rewrite E in Hi; simpl in Hi.
  - rewrite (selected_x self E). unfold getitem_x. rewrite Hs.
    rewrite (py_index_inside R _ Hi). simpl. eexists. split; [reflexivity|].
    rewrite E. repeat split; try discriminate; reflexivity.
  - rewrite (selected_y self E). unfold getitem_y. rewrite Hs.
    rewrite (py_index_inside C _ Hi). simpl. eexists. split; [reflexivity|].
    rewrite E. repeat split; try discriminate; reflexivity.
  - rewrite (selected_z self E). unfold getitem_z. rewrite Hs.
    rewrite (py_index_inside N _ Hi). simpl. eexists. split; [reflexivity|].
    rewrite E. repeat split; try discriminate; reflexivity.
Qed.

(** ** The bounds of slice_index *)

Lemma init_inv path d ps l self l' :
  init path d ps l = (Ok self, l') ->
  load_dicom_series path d l = (Ok (volume self, spacing self), l') /\
  slice_index_bounds self =
    (0, Z.of_nat (snd (shape3 (volume self))) - 1)%Z.
Proof.
  unfold init, bind, lift, ret.
  destruct (match p_slice_index ps with Some _ => _ | None => _ end);
    [|discriminate].
  destruct (match p_view_axis ps with Some _ => _ | None => _ end);
    [|discriminate].
  destruct (load_dicom_series path d l) as [[[vol sp]|e] l0]; [|discriminate].
  destruct (shape3 vol) as [[R C] N] eqn:Hs.
  intros H; inversion H; subst; simpl. now rewrite Hs.
Qed.

Lemma set_parameter_keeps e self self' :
  set_parameter e self = Ok self' ->
  slice_index_bounds self' = slice_index_bounds self /\
  volume self' = volume self /\ spacing self' = spacing self.
Proof.
  destruct e as [v|a]; simpl.
  - destruct (validate_slice_index _ _); simpl; [|discriminate].
    intros H; inversion H; subst; simpl; auto.
  - destruct (validate_view_axis _); simpl; [|discriminate].
    intros H; inversion H; subst; simpl; auto.
Qed.

Lemma step_instance deps s e :
  instance (step deps s e) =
  match set_parameter e (instance s) with
  | Ok self' => self'
  | Raise _ => instance s
  end.
Proof.
  unfold step. destruct (set_parameter e (instance s)) as [self'|x];
    [|reflexivity].
  destruct (_ && _); [|reflexivity].
  now destruct (view self' (figures s)).
Qed.

Lemma step_keeps deps s e :
  slice_index_bounds (instance (step deps s e)) = slice_index_bounds (instance s) /\
  volume (instance (step deps s e)) = volume (instance s).
Proof.
  rewrite step_instance.
  destruct (set_parameter e (instance s)) as [self'|x] eqn:E; auto.
  destruct (set_parameter_keeps _ _ _ E) as (H1 & H2 & _). auto.
Qed.

Lemma run_keeps deps es s :
  slice_index_bounds (instance (run deps s es)) = slice_index_bounds (instance s) /\
  volume (instance (run deps s es)) = volume (instance s).
Proof.
  revert s; induction es as [|e es IH]; intros s; simpl; auto.
  destruct (IH (step deps s e)) as [H1 H2].
  destruct (step_keeps deps s e) as [H3 H4].
  unfold run in *. split; congruence.
Qed.

Lemma serve_instance self plt : instance (serve self plt) = self.
Proof.
  unfold serve. now destruct (view self plt).
Qed.

Lemma view_with_x self plt i R C N :
  shape3 (volume self) = (R, C, N) ->
  fst (view (with_parameters self i "x") plt) =
  k <~ py_index R i ;;
  Ok (pane_of {| shape2 := (C, N); at2 := fun a b => at3 (volume self) k a b |}).
Proof.
  intros Hs. rewrite view_pane, selected_x by reflexivity. simpl.
  unfold getitem_x. rewrite Hs. now destruct (py_index R i).
Qed.

Lemma view_with_y self plt i R C N :
  shape3 (volume self) = (R, C, N) ->
  fst (view (with_parameters self i "y") plt) =
  k <~ py_index C i ;;
  Ok (pane_of {| shape2 := (R, N); at2 := fun a b => at3 (volume self) a k b |}).
Proof.
  intros Hs. rewrite view_pane, selected_y by reflexivity. simpl.
  unfold getitem_y. rewrite Hs. now destruct (py_index C i).
Qed.

Lemma view_with_z self plt i R C N :
  shape3 (volume self) = (R, C, N) ->
  fst (view (with_parameters self i "z") plt) =
  k <~ py_index N i ;;
  Ok (pane_of {| shape2 := (R, C); at2 := fun a b => at3 (volume self) a b k |}).
Proof.
  intros Hs. rewrite view_pane, selected_z by reflexivity. simpl.
  unfold getitem_z. rewrite Hs. now destruct (py_index N i).
Qed.

(** Every index that the bounds (0, N - 1) permit is valid along an axis
    of extent [n] exactly when [N <= n]; when it is not, the last
    permitted index raises. *)
Lemma permitted_indices_fit (N n : nat) (f : nat -> png_pane) :
  ((forall i, in_bounds (0, Z.of_nat N - 1)%Z i = true ->
      exists pane, (k <~ py_index n i ;; Ok (f k)) = Ok pane)
   <-> (N <= n)%nat) /\
  ((n < N)%nat ->
     in_bounds (0, Z.of_nat N - 1)%Z (Z.of_nat N - 1) = true /\
     (k <~ py_index n (Z.of_nat N - 1) ;; Ok (f k)) = Raise IndexError).
Proof.
  assert (Hlast : (n < N)%nat ->
     in_bounds (0, Z.of_nat N - 1)%Z (Z.of_nat N - 1) = true /\
     (k <~ py_index n (Z.of_nat N - 1) ;; Ok (f k)) = Raise IndexError).
  { intros H. split.
    - apply in_bounds_spec. lia.
    - rewrite py_index_beyond by lia. reflexivity. }
  split; [split|exact Hlast].
  - intros H. destruct (Nat.le_gt_cases N n) as [Hle|Hgt]; [exact Hle|].
    destruct (Hlast Hgt) as [Hin Hraise].
    destruct (H _ Hin) as [pane Hp]. congruence.
  - intros Hle i Hi. apply in_bounds_spec in Hi.
    rewrite py_index_inside by lia. simpl. eauto.
Qed.

(** C3: [__init__] sets the bounds of [slice_index] to
    (0, volume.shape[2] - 1), and no later setting of a parameter changes
    them.  Hence every permitted index is valid on axis 'z'; on axis 'x'
    every permitted index is valid exactly when the number of slices is at
    most the number of rows, and on axis 'y' exactly when it is at most the
    number of columns; beyond that, the last permitted index makes [view]
    raise IndexError. *)
Theorem slice_index_bounds_follow_z_only
    (path : string) (d : directory) (ps : params) (l l' : log)
    (self : MRIVisualization) (R C N : nat) (plt : pyplot) :
  init path d ps l = (Ok self, l') ->
  shape3 (volume self) = (R, C, N) ->
  let permitted i := in_bounds (slice_index_bounds self) i = true in
  slice_index_bounds self = (0, Z.of_nat N - 1)%Z /\
  (forall es,
      slice_index_bounds (instance (run view_depends (serve self plt) es))
      = (0, Z.of_nat N - 1)%Z) /\
  (forall i, permitted i ->
      exists pane, fst (view (with_parameters self i "z") plt) = Ok pane) /\
  ((forall i, permitted i ->
      exists pane, fst (view (with_parameters self i "x") plt) = Ok pane)
   <-> (N <= R)%nat) /\
  ((forall i, permitted i ->
      exists pane, fst (view (with_parameters self i "y") plt) = Ok pane)
   <-> (N <= C)%nat) /\
  ((R < N)%nat ->
     exists i, permitted i /\
               fst (view (with_parameters self i "x") plt) = Raise IndexError) /\
  ((C < N)%nat ->
     exists i, permitted i /\
               fst (view (with_parameters self i "y") plt) = Raise IndexError).
Proof.
  intros Hinit Hs permitted. subst permitted.
  destruct (init_inv _ _ _ _ _ _ Hinit) as [_ Hb].
  rewrite Hs in Hb. simpl in Hb. rewrite Hb.
  split; [reflexivity|]. split.
  { intros es. destruct (run_keeps view_depends es (serve self plt)) as [H _].
    rewrite H, serve_instance. exact Hb. }
  split.
  { intros i Hi. rewrite (view_with_z self plt i R C N Hs).
    apply (proj1 (permitted_indices_fit N N _)); auto. }
  split; [|split; [|split]].
  - pose proof (proj1 (permitted_indices_fit N R
      (fun k => pane_of {| shape2 := (C, N);
                           at2 := fun a b => at3 (volume self) k a b |}))) as H.
    rewrite <- H. split; intros H0 i Hi; specialize (H0 i Hi);
      now rewrite (view_with_x self plt i R C N Hs) in *.
  - pose proof (proj1 (permitted_indices_fit N C
      (fun k => pane_of {| shape2 := (R, N);
                           at2 := fun a b => at3 (volume self) a k b |}))) as H.
    rewrite <- H. split; intros H0 i Hi; specialize (H0 i Hi);
      now rewrite (view_with_y self plt i R C N Hs) in *.
  - intros Hlt. exists (Z.of_nat N - 1)%Z.
    rewrite (view_with_x self plt _ R C N Hs).
    now apply permitted_indices_fit.
  - intros Hlt. exists (Z.of_nat N - 1)%Z.
    rewrite (view_with_y self plt _ R C N Hs).
    now apply permitted_indices_fit.
Qed.

(** ** The sample series load *)

Lemma thin_loads :
  exists self l',
    init "scans" Sample.thin no_params [] = (Ok self, l') /\
    shape3 (volume self) = (1, 1, 2)%nat /\
    slice_index self = 0%Z /\ view_axis self = "z"%string.
Proof.
  eexists; eexists. split; [reflexivity|].
  repeat split; reflexivity.
Qed.

Lemma square_loads :
  exists self l',
    init "scans" Sample.square no_params [] = (Ok self, l') /\
    shape3 (volume self) = (2, 2, 2)%nat /\
    slice_index self = 0%Z /\ view_axis self = "z"%string.
Proof.
  eexists; eexists. split; [reflexivity|].
  repeat split; reflexivity.
Qed.

Lemma slice_index_bounds_follow_z_only_witness :
  exists self l',
    init "scans" Sample.thin no_params [] = (Ok self, l') /\
    slice_index_bounds self = (0, 1)%Z /\
    exists i, in_bounds (slice_index_bounds self) i = true /\
              fst (view (with_parameters self i "x") []) = Raise IndexError.
Proof.
  destruct thin_loads as (self & l' & E & Hs & _).
  exists self, l'. split; [exact E|].
  destruct (slice_index_bounds_follow_z_only _ _ _ _ _ _ 1 1 2 [] E Hs)
    as (H1 & _ & _ & _ & _ & H6 & _).
  split; [exact H1|]. apply H6. lia.
Defined.

(** C2 as stated fails: in the series of two one-pixel slices the slider
    admits index 1; with the axis set to 'x' and the slider moved to 1 the
    page shows no slice, [view] has raised IndexError. *)
Lemma view_raises_within_slider_bounds :
  exists self l',
    init "scans" Sample.thin no_params [] = (Ok self, l') /\
    in_bounds (slice_index_bounds self) 1 = true /\
    let s := run view_depends (serve self [])
                 [Set_view_axis "x"; Set_slice_index 1] in
    slice_index (instance s) = 1%Z /\
    view_axis (instance s) = "x"%string /\
    displayed s = Raise IndexError /\
    fst (view (instance s) (figures s)) = Raise IndexError.
Proof.
  eexists; eexists. split; [reflexivity|].
  cbv zeta. repeat split; reflexivity.
Qed.

Lemma view_renders_selected_slice_witness :
  exists self l' s,
    init "scans" Sample.square no_params [] = (Ok self, l') /\
    view (with_parameters self 1 "x") [] = (Ok (pane_of s), []) /\
    shape2 s = (2, 2)%nat /\
    forall p q, at2 s p q = at3 (volume self) 1 p q.
Proof.
  destruct square_loads as (self & l' & E & Hs & _).
  destruct (view_renders_selected_slice (with_parameters self 1 "x") [] 2 2 2)
    as (s & Hv & Hx & _).
  - exact Hs.
  - simpl. auto.
  - simpl. unfold axis_extent. simpl. rewrite Hs. simpl. lia.
  - exists self, l', s. split; [exact E|]. split; [exact Hv|].
    apply Hx. reflexivity.
Defined.

(** ** The reactive binding *)

Lemma selected_slice_reads_three_fields (a b : MRIVisualization) :
  volume a = volume b ->
  slice_index a = slice_index b ->
  view_axis a = view_axis b ->
  selected_slice a = selected_slice b.
Proof.
  intros Hv Hi Ha. unfold selected_slice. now rewrite Hv, Hi, Ha.
Qed.

Lemma validate_view_axis_Ok a a' :
  validate_view_axis a = Ok a' -> a' = a /\ In a view_axis_objects.
Proof.
  unfold validate_view_axis.
  destruct (existsb (String.eqb a) view_axis_objects) eqn:E; [|discriminate].
  intros H; inversion H; subst. split; [reflexivity|].
  apply existsb_exists in E. destruct E as (b & Hb & Heq).
  apply String.eqb_eq in Heq. now subst.
Qed.

Lemma validate_view_axis_In a :
  In a view_axis_objects -> validate_view_axis a = Ok a.
Proof.
  intros H. unfold validate_view_axis.
  replace (existsb (String.eqb a) view_axis_objects) with true; [reflexivity|].
  symmetry. apply existsb_exists. exists a. split; [exact H|].
  apply String.eqb_refl.
Qed.

(** Setting a parameter to the value it holds selects the same slice. *)
Lemma set_parameter_unchanged e self self' :
  set_parameter e self = Ok self' ->
  parameter_changed e self = false ->
  selected_slice self' = selected_slice self.
Proof.
  destruct e as [v|a]; simpl; intros H Hc; apply negb_false_iff in Hc.
  - unfold validate_slice_index in H.
    destruct (in_bounds _ _); simpl in H; [|discriminate].
    inversion H; subst. apply Z.eqb_eq in Hc.
    apply selected_slice_reads_three_fields; simpl; auto.
  - destruct (validate_view_axis a) as [a'|x] eqn:E; simpl in H; [|discriminate].
    apply validate_view_axis_Ok in E. destruct E as [-> _].
    inversion H; subst. apply String.eqb_eq in Hc.
    apply selected_slice_reads_three_fields; simpl; auto.
Qed.

Lemma every_event_triggers_view (e : event) :
  existsb (String.eqb (event_parameter e)) view_depends = true.
Proof.
  destruct e; reflexivity.
Qed.

Lemma serve_up_to_date self plt : up_to_date (serve self plt).
Proof.
  unfold up_to_date, serve. rewrite view_spec.
  destruct (selected_slice self) as [x|e] eqn:E; cbn [instance displayed];
    now rewrite E.
Qed.

Lemma step_up_to_date (s : session) (e : event) :
  up_to_date s -> up_to_date (step view_depends s e).
Proof.
  unfold up_to_date. intros H. unfold step.
  destruct (set_parameter e (instance s)) as [self'|x] eqn:E; [|exact H].
  rewrite every_event_triggers_view, andb_true_r.
  destruct (parameter_changed e (instance s)) eqn:Ec.
  - rewrite view_spec.
    destruct (selected_slice self') as [x|e0] eqn:E'; cbn [instance displayed];
      now rewrite E'.
  - cbn [instance displayed].
    now rewrite (set_parameter_unchanged _ _ _ E Ec).
Qed.

Lemma run_up_to_date (es : list event) (s : session) :
  up_to_date s -> up_to_date (run view_depends s es).
Proof.
  revert s; induction es as [|e es IH]; intros s H; simpl; [exact H|].
  apply IH. now apply step_up_to_date.
Qed.

Lemma run_app deps s es es' :
  run deps s (es ++ es') = run deps (run deps s es) es'.
Proof.
  unfold run. apply fold_left_app.
Qed.

Lemma not_in_depends (name : string) (deps : list string) :
  ~ In name deps -> existsb (String.eqb name) deps = false.
Proof.
  intros H. apply not_true_is_false. intros E.
  apply existsb_exists in E. destruct E as (x & Hx & Heq).
  apply String.eqb_eq in Heq. now subst.
Qed.

(** C8: [view] reads the volume, [slice_index] and [view_axis] and nothing
    else.  Two instances that agree on these three select the same slice
    data and return the same pane, whatever their spacing and slider
    bounds and whatever figures pyplot holds at either call; and a
    rendering that returns leaves those figures as they were.  The binding
    is reactive in the two parameters: once the two widgets have been set
    to a pair of accepted values, the instance holds that pair and the
    page displays [view] of it, whatever events came before.  Both
    declared dependencies are needed for that: an event on a parameter
    that is missing from the dependency list changes the instance and
    leaves the page as it was. *)
Theorem view_depends_on_parameters_only
    (a b : MRIVisualization) (plt plt' : pyplot) (es : list event)
    (i : Z) (axis : string) :
  volume a = volume b ->
  slice_index a = slice_index b ->
  view_axis a = view_axis b ->
  selected_slice a = selected_slice b /\
  fst (view a plt) = fst (view b plt') /\
  (forall pane, fst (view a plt) = Ok pane ->
     exists s, selected_slice a = Ok s /\ pane = pane_of s /\
               snd (view a plt) = plt) /\
  (in_bounds (slice_index_bounds a) i = true ->
   In axis view_axis_objects ->
   let s := run view_depends (serve a plt)
                (es ++ [Set_view_axis axis; Set_slice_index i]) in
   slice_index (instance s) = i /\
   view_axis (instance s) = axis /\
   volume (instance s) = volume a /\
   displayed s = fst (view (with_parameters b i axis) plt')) /\
  (forall deps s e self',
     ~ In (event_parameter e) deps ->
     set_parameter e (instance s) = Ok self' ->
     instance (step deps s e) = self' /\
     displayed (step deps s e) = displayed s).
Proof.
  intros Hv Hi Ha.
  pose proof (selected_slice_reads_three_fields a b Hv Hi Ha) as Hsel.
  split; [exact Hsel|]. split; [now rewrite !view_pane, Hsel|].
  split; [|split].
  - intros pane. rewrite view_spec.
    destruct (selected_slice a) as [s|e]; cbn [fst snd]; [|discriminate].
    intros H; inversion H. now exists s.
  - intros Hin Haxis s.
    set (s0 := run view_depends (serve a plt) es).
    destruct (run_keeps view_depends es (serve a plt)) as [Hb0 Hv0].
    fold s0 in Hb0, Hv0. rewrite serve_instance in Hb0, Hv0.
    assert (Hs : s = step view_depends
                       (step view_depends s0 (Set_view_axis axis))
                       (Set_slice_index i)).
    { unfold s. now rewrite run_app. }
    assert (H1 : instance (step view_depends s0 (Set_view_axis axis)) =
                 {| slice_index := slice_index (instance s0);
                    view_axis := axis;
                    slice_index_bounds := slice_index_bounds (instance s0);
                    volume := volume (instance s0);
                    spacing := spacing (instance s0) |}).
    { rewrite step_instance. cbn [set_parameter].
      now rewrite (validate_view_axis_In axis Haxis). }
    assert (H2 : instance s =
                 {| slice_index := i;
                    view_axis := axis;
                    slice_index_bounds := slice_index_bounds (instance s0);
                    volume := volume (instance s0);
                    spacing := spacing (instance s0) |}).
    { rewrite Hs, step_instance, H1. cbn [set_parameter slice_index_bounds].
      unfold validate_slice_index. rewrite Hb0, Hin. reflexivity. }
    assert (Hup : up_to_date s).
    { unfold s. apply run_up_to_date, serve_up_to_date. }
    rewrite H2. cbn [slice_index view_axis volume].
    repeat split; auto.
    unfold up_to_date in Hup. rewrite Hup, view_pane.
    rewrite (selected_slice_reads_three_fields (instance s)
               (with_parameters b i axis)); [reflexivity| | |];
      rewrite H2; cbn [slice_index view_axis volume with_parameters]; congruence.
  - intros deps s e self' Hdep Hset. split.
    + now rewrite step_instance, Hset.
    + unfold step. rewrite Hset, (not_in_depends _ _ Hdep), andb_false_r.
      reflexivity.
Qed.

Lemma square_bounds :
  exists self l',
    init "scans" Sample.square no_params [] = (Ok self, l') /\
    slice_index_bounds self = (0, 1)%Z.
Proof.
  eexists; eexists. split; reflexivity.
Qed.

Lemma view_depends_on_parameters_only_witness :
  exists self l',
    init "scans" Sample.square no_params [] = (Ok self, l') /\
    let other := {| slice_index := slice_index self;
                    view_axis := view_axis self;
                    slice_index_bounds := (0, 100)%Z;
                    volume := volume self;
                    spacing := (1, 1, Empty) |} in
    let busy := [(3%nat, blank rc_figsize)] in
    fst (view self []) = fst (view other busy) /\
    let s := run view_depends (serve self [])
                 ([Set_view_axis "y"; Set_slice_index 7] ++
                  [Set_view_axis "x"; Set_slice_index 1]) in
    displayed s = fst (view (with_parameters other 1 "x") busy).
Proof.
  destruct square_bounds as (self & l' & E & Hb).
  exists self, l'. split; [exact E|]. intros other busy.
  destruct (view_depends_on_parameters_only self other [] busy
              [Set_view_axis "y"; Set_slice_index 7] 1 "x"
              eq_refl eq_refl eq_refl) as (_ & H1 & _ & H2 & _).
  split; [exact H1|]. apply H2.
  - rewrite Hb. reflexivity.
  - simpl. auto.
Defined.
(** ** list.sort *)

Section Sorting.

Context {A : Type}.
Implicit Types (x : Z * A) (l : list (Z * A)).

Lemma insert_by_key_permutation x l :
  Permutation (insert_by_key x l) (x :: l).
Proof.
  induction l as [|y l IH]; simpl; [reflexivity|].
  destruct (fst y <? fst x)%Z; [|reflexivity].
  rewrite IH. apply perm_swap.
Qed.

Lemma stable_sort_permutation l : Permutation (stable_sort l) l.
Proof.
  induction l as [|x l IH]; simpl; [reflexivity|].
  rewrite insert_by_key_permutation. now constructor.
Qed.

Lemma insert_by_key_sorted x l :
  StronglySorted key_le l -> StronglySorted key_le (insert_by_key x l).
Proof.
  induction 1 as [|y l Hl IH Hy]; simpl.
  - repeat constructor.
  - destruct (fst y <? fst x)%Z eqn:E.
    + constructor; [exact IH|].
      rewrite Forall_forall in *. intros z Hz.
      apply (Permutation_in _ (insert_by_key_permutation x l)) in Hz.
      destruct Hz as [<-|Hz]; [|auto].
      apply Z.ltb_lt in E. unfold key_le. lia.
    + apply Z.ltb_ge in E. constructor; [now constructor|].
      constructor; [exact E|].
      rewrite Forall_forall in *. intros z Hz.
      specialize (Hy z Hz). unfold key_le in *. lia.
Qed.

Lemma stable_sort_sorted l : StronglySorted key_le (stable_sort l).
Proof.
  induction l as [|x l IH]; simpl; [constructor|].
  now apply insert_by_key_sorted.
Qed.

(** Insertion in front of the first key that is not smaller keeps the
    new element ahead of the elements of its own key. *)
Lemma insert_by_key_with_key k x l :
  StronglySorted key_le l ->
  with_key k (insert_by_key x l) = with_key k (x :: l).
Proof.
  unfold with_key.
  induction 1 as [|y l Hl IH Hy]; simpl; [reflexivity|].
  destruct (fst y <? fst x)%Z eqn:E; [|reflexivity].
  apply Z.ltb_lt in E. simpl in *. rewrite IH.
  destruct (fst x =? k)%Z eqn:Ex; [|reflexivity].
  apply Z.eqb_eq in Ex.
  replace (fst y =? k)%Z with false by (symmetry; apply Z.eqb_neq; lia).
  reflexivity.
Qed.

(** Stability: elements of equal key keep their order. *)
Lemma stable_sort_stable k l : with_key k (stable_sort l) = with_key k l.
Proof.
  induction l as [|x l IH]; simpl; [reflexivity|].
  rewrite insert_by_key_with_key by apply stable_sort_sorted.
  unfold with_key in *. simpl. now rewrite IH.
Qed.

Lemma stable_sort_length l : List.length (stable_sort l) = List.length l.
Proof.
  apply Permutation_length, stable_sort_permutation.
Qed.

End Sorting.

Lemma sort_keys_inv {A} (key : A -> result Z) (l : list A) ks :
  sort_keys key l = Ok ks ->
  map snd ks = l /\ Forall (fun p => key (snd p) = Ok (fst p)) ks.
Proof.
  revert ks; induction l as [|x l IH]; simpl; intros ks H.
  - inversion H. split; [reflexivity|constructor].
  - destruct (key x) as [k|e] eqn:Ek; simpl in H; [|discriminate].
    destruct (sort_keys key l) as [ks'|e]; simpl in H; [|discriminate].
    inversion H; subst. destruct (IH _ eq_refl) as [H1 H2].
    simpl. split; [now rewrite H1 | now constructor].
Qed.

Lemma sort_keys_total {A} (key : A -> result Z) (l : list A) :
  Forall (fun x => exists k, key x = Ok k) l ->
  exists ks, sort_keys key l = Ok ks.
Proof.
  induction 1 as [|x l [k Hk] _ [ks IH]]; simpl.
  - now exists [].
  - rewrite Hk, IH. simpl. eauto.
Qed.

(** ** The stacking loop *)

Lemma dcmread_Ok (f : entry) (ds : dataset) :
  dcmread f = Ok ds <-> f = Dicom ds.
Proof.
  destruct f; simpl; split; intros H; inversion H; reflexivity.
Qed.

Lemma setitem_z_inv v i a v' R C N :
  shape3 v = (R, C, N) ->
  setitem_z v i a = Ok v' ->
  (i < N)%nat /\
  broadcastable (fst (shape2 a)) R = true /\
  broadcastable (snd (shape2 a)) C = true /\
  shape3 v' = (R, C, N) /\
  (forall x y,
      at3 v' x y i = at2 a (broadcast_index (fst (shape2 a)) x)
                           (broadcast_index (snd (shape2 a)) y)) /\
  (forall x y z, z <> i -> at3 v' x y z = at3 v x y z).
Proof.
  intros Hs. unfold setitem_z. rewrite Hs.
  destruct (shape2 a) as [r c]. simpl.
  destruct (i <? N)%nat eqn:Ei; [|discriminate].
  destruct (broadcastable r R && broadcastable c C) eqn:Eb; [|discriminate].
  apply andb_true_iff in Eb. destruct Eb as [Er Ec].
  apply Nat.ltb_lt in Ei.
  intros H; inversion H; subst; simpl.
  repeat split; auto.
  - intros x y. now rewrite Nat.eqb_refl.
  - intros x y z Hz.
    now replace (z =? i)%nat with false by (symmetry; now apply Nat.eqb_neq).
Qed.

Lemma last_cons_default {A} (l : list A) (a d d' : A) :
  last (a :: l) d = last (a :: l) d'.
Proof.
  revert a; induction l as [|b l IH]; intros a; [reflexivity|].
  change (last (a :: b :: l) d) with (last (b :: l) d).
  change (last (a :: b :: l) d') with (last (b :: l) d').
  apply IH.
Qed.

Lemma stack_loop_inv fs : forall i v ds0 v' ds' R C N,
  shape3 v = (R, C, N) ->
  stack_loop fs i (v, ds0) = Ok (v', ds') ->
  shape3 v' = (R, C, N) /\
  (fs <> [] -> (i + List.length fs <= N)%nat) /\
  (forall k f, nth_error fs k = Some f ->
     exists ds a, snd f = Dicom ds /\
                  pixel_array ds = Ok a /\
                  broadcastable (fst (shape2 a)) R = true /\
                  broadcastable (snd (shape2 a)) C = true /\
                  forall x y, at3 v' x y (i + k) = of_Z (broadcast_sample a x y)) /\
  (forall x y z, (z < i \/ i + List.length fs <= z)%nat ->
     at3 v' x y z = at3 v x y z) /\
  snd (last fs (EmptyString, Dicom ds0)) = Dicom ds'.
Proof.
  induction fs as [|f rest IH]; intros i v ds0 v' ds' R C N Hs H.
  - simpl in H. inversion H; subst. repeat split; auto.
    + intros Hne. now contradiction Hne.
    + intros k f Hk. destruct k; discriminate.
  - cbn [stack_loop] in H.
    destruct (dcmread (snd f)) as [ds|e] eqn:Ed; simpl in H; [|discriminate].
    apply dcmread_Ok in Ed.
    destruct (pixel_array ds) as [a|e] eqn:Ea; simpl in H; [|discriminate].
    destruct (setitem_z v i (astype_float32 a)) as [v1|e] eqn:Es;
      simpl in H; [|discriminate].
    destruct (setitem_z_inv _ _ _ _ _ _ _ Hs Es)
      as (Hi & Hr & Hc & Hs1 & Hat & Hframe).
    simpl in Hr, Hc, Hat.
    destruct (IH _ _ _ _ _ _ _ _ Hs1 H) as (Hs' & Hlen & Hk & Hfr & Hlast).
    split; [exact Hs'|]. split; [|split; [|split]].
    + intros _. destruct rest as [|g rest'].
      * simpl. lia.
      * assert (Hne : g :: rest' <> []) by discriminate.
        specialize (Hlen Hne). simpl in *. lia.
    + intros k g Hg. destruct k as [|k]; simpl in Hg.
      * inversion Hg; subst g. exists ds, a. repeat split; auto.
        intros x y. rewrite Nat.add_0_r.
        rewrite Hfr by (left; lia). apply Hat.
      * destruct (Hk k g Hg) as (dg & ag & H1 & H2 & H3 & H4 & H5).
        exists dg, ag. repeat split; auto.
        intros x y. rewrite <- (H5 x y). f_equal. lia.
    + intros x y z Hz. simpl in Hz.
      rewrite Hfr by lia. apply Hframe. lia.
    + destruct rest as [|g rest'].
      * simpl in *. rewrite Ed. exact Hlast.
      * change (last (f :: g :: rest') (EmptyString, Dicom ds0))
          with (last (g :: rest') (EmptyString, Dicom ds0)).
        now rewrite (last_cons_default rest' g _ (EmptyString, Dicom ds)).
Qed.

Lemma stack_loop_total fs : forall i v ds0 R C N,
  shape3 v = (R, C, N) ->
  (i + List.length fs <= N)%nat ->
  Forall (fits_slice R C) fs ->
  exists v' ds', stack_loop fs i (v, ds0) = Ok (v', ds').
Proof.
  induction fs as [|f rest IH]; intros i v ds0 R C N Hs Hlen Hfit.
  - simpl. eauto.
  - inversion Hfit as [|? ? (ds & a & Hd & Ha & Hr & Hc) Hrest]; subst.
    cbn [stack_loop]. rewrite Hd. cbn [dcmread rbind]. rewrite Ha.
    cbn [rbind fst]. unfold setitem_z. rewrite Hs. cbn [astype_float32 shape2].
    destruct (shape2 a) as [r c]. cbn [fst snd] in Hr, Hc.
    simpl in Hlen.
    replace (i <? N)%nat with true by (symmetry; apply Nat.ltb_lt; lia).
    rewrite Hr, Hc. cbn [andb rbind].
    eapply IH; [reflexivity | lia | exact Hrest].
Qed.

(** ** The sorted file list *)

Lemma instance_key_Ok f k :
  instance_key f = Ok k <->
  exists ds, snd f = Dicom ds /\ InstanceNumber ds = Some (Single k).
Proof.
  unfold instance_key. destruct (snd f) as [|ds|entries]; simpl.
  - split; [discriminate | intros (ds & H & _); discriminate].
  - destruct (InstanceNumber ds) as [[|n|a b more]|] eqn:E; simpl; split;
      try discriminate;
      try (intros (ds' & H & H'); inversion H; subst; congruence).
    intros H; inversion H; subst. eauto.
  - split; [discriminate | intros (ds & H & _); discriminate].
Qed.

Lemma instance_key_number f k :
  instance_key f = Ok k -> readable f /\ instance_number f = k.
Proof.
  intros H. apply instance_key_Ok in H. destruct H as (ds & Hd & Hn).
  split; [now exists ds, k|].
  unfold instance_number. now rewrite Hd, Hn.
Qed.

Lemma keyed_sorted_files (ks : list (Z * (string * entry))) :
  Forall (fun p => instance_key (snd p) = Ok (fst p)) ks ->
  StronglySorted key_le ks ->
  StronglySorted instance_le (map snd ks).
Proof.
  intros Hk. induction 1 as [|p ks Hs IH Hp]; simpl; [constructor|].
  inversion Hk as [|? ? Hp0 Hks]; subst.
  constructor; [now apply IH|].
  apply Forall_map. rewrite Forall_forall in *. intros q Hq.
  specialize (Hp q Hq). specialize (Hks q Hq).
  apply instance_key_number in Hp0, Hks.
  unfold instance_le, key_le in *. destruct Hp0, Hks. lia.
Qed.

Lemma keyed_with_instance k (ks : list (Z * (string * entry))) :
  Forall (fun p => instance_key (snd p) = Ok (fst p)) ks ->
  with_instance k (map snd ks) = map snd (with_key k ks).
Proof.
  unfold with_instance, with_key.
  induction 1 as [|p ks Hp _ IH]; simpl; [reflexivity|].
  apply instance_key_number in Hp. destruct Hp as [_ Hp]. rewrite Hp.
  destruct (fst p =? k)%Z; simpl; now rewrite IH.
Qed.

Lemma sorted_dicom_files_spec d files :
  sorted_dicom_files d = Ok files ->
  Permutation files (listed_dicom_files d) /\
  Forall readable files /\
  StronglySorted instance_le files /\
  (forall k, with_instance k files = with_instance k (listed_dicom_files d)).
Proof.
  unfold sorted_dicom_files, list_sort. cbv zeta.
  destruct (sort_keys instance_key (listed_dicom_files d)) as [ks|e] eqn:E;
    simpl; [|discriminate].
  intros H; inversion H; subst; clear H.
  destruct (sort_keys_inv _ _ _ E) as [Hl Hk].
  assert (Hk' : Forall (fun p => instance_key (snd p) = Ok (fst p))
                       (stable_sort ks)).
  { apply (Permutation_Forall (Permutation_sym (stable_sort_permutation ks))).
    exact Hk. }
  split; [|split; [|split]].
  - rewrite <- Hl. apply Permutation_map, stable_sort_permutation.
  - apply Forall_map. eapply Forall_impl; [|exact Hk'].
    intros p Hp. now apply instance_key_number in Hp.
  - apply keyed_sorted_files; [exact Hk' | apply stable_sort_sorted].
  - intros k. rewrite <- Hl.
    rewrite !keyed_with_instance by assumption.
    now rewrite stable_sort_stable.
Qed.

Lemma sorted_dicom_files_total d :
  Forall readable (listed_dicom_files d) ->
  exists files, sorted_dicom_files d = Ok files.
Proof.
  intros H. unfold sorted_dicom_files, list_sort. cbv zeta.
  destruct (sort_keys_total instance_key (listed_dicom_files d)) as [ks E].
  - eapply Forall_impl; [|exact H].
    intros f (ds & n & Hd & Hn). exists n. apply instance_key_Ok. eauto.
  - rewrite E. simpl. eauto.
Qed.

(** ** The volume before normalization *)

Lemma getitem_0 {A} (l : list A) (a : A) :
  getitem l 0 = Ok a <-> exists rest, l = a :: rest.
Proof.
  destruct l as [|b l]; unfold getitem; simpl.
  - split; [discriminate | intros [rest H]; discriminate].
  - split.
    + intros H; inversion H; eauto.
    + intros [rest H]; inversion H; reflexivity.
Qed.

Lemma img_shape_Ok ds n shape :
  img_shape ds n = Ok shape <->
  exists R C, Rows ds = Some (Single R) /\ Columns ds = Some (Single C) /\
              shape = (R, C, n).
Proof.
  unfold img_shape.
  destruct (Rows ds) as [[|R|a b more]|]; simpl;
    try (split; [discriminate | intros (R' & C' & H & _); discriminate]).
  destruct (Columns ds) as [[|C|a b more]|]; simpl;
    try (split; [discriminate | intros (R' & C' & _ & H & _); discriminate]).
  split.
  - intros H; inversion H. now exists R, C.
  - intros (R' & C' & H1 & H2 & ->). inversion H1; inversion H2. reflexivity.
Qed.

Lemma stack_dicom_series_inv d files raw final :
  stack_dicom_series d = Ok (files, raw, final) ->
  sorted_dicom_files d = Ok files /\
  exists first ds0 rest R C,
    files = first :: rest /\
    snd first = Dicom ds0 /\
    Rows ds0 = Some (Single R) /\
    Columns ds0 = Some (Single C) /\
    shape3 raw = (R, C, List.length files) /\
    (forall k f, nth_error files k = Some f ->
       exists ds a, snd f = Dicom ds /\
                    pixel_array ds = Ok a /\
                    broadcastable (fst (shape2 a)) R = true /\
                    broadcastable (snd (shape2 a)) C = true /\
                    forall x y, at3 raw x y k = of_Z (broadcast_sample a x y)) /\
    snd (last files first) = Dicom final.
Proof.
  unfold stack_dicom_series.
  destruct (sorted_dicom_files d) as [fs|e]; cbn [rbind]; [|discriminate].
  destruct (getitem fs 0) as [first|e] eqn:E0; cbn [rbind]; [|discriminate].
  apply getitem_0 in E0. destruct E0 as [rest ->].
  destruct (dcmread (snd first)) as [ds0|e] eqn:Ed; cbn [rbind]; [|discriminate].
  apply dcmread_Ok in Ed.
  destruct (img_shape ds0 (List.length (first :: rest))) as [shape|e] eqn:Eshape;
    cbn [rbind]; [|discriminate].
  apply img_shape_Ok in Eshape. destruct Eshape as (R & C & HR & HC & ->).
  match goal with
  | |- context [stack_loop ?a ?b ?c] =>
      destruct (stack_loop a b c) as [[v' ds']|e] eqn:El
  end; cbn [rbind fst snd]; [|discriminate].
  intros H; inversion H; subst; clear H.
  split; [reflexivity|].
  exists first, ds0, rest, R, C.
  destruct (stack_loop_inv (first :: rest) 0
              (np_zeros (R, C, List.length (first :: rest)))
              ds0 raw final
              R C (List.length (first :: rest))
              eq_refl El)
    as (Hs & _ & Hk & _ & Hlast).
  repeat split; auto.
  now rewrite (last_cons_default rest first _ (EmptyString, Dicom ds0)).
Qed.

Lemma stack_dicom_series_unfold d first rest ds0 R C :
  sorted_dicom_files d = Ok (first :: rest) ->
  snd first = Dicom ds0 ->
  Rows ds0 = Some (Single R) ->
  Columns ds0 = Some (Single C) ->
  stack_dicom_series d =
  st <~ stack_loop (first :: rest) 0
          (np_zeros (R, C, List.length (first :: rest)), ds0) ;;
  Ok (first :: rest, fst st, snd st).
Proof.
  intros Hsort Hd HR HC. unfold stack_dicom_series.
  rewrite Hsort. cbn [rbind].
  replace (getitem (first :: rest) 0) with (Ok first) by reflexivity.
  cbn [rbind]. rewrite Hd. cbn [dcmread rbind].
  unfold img_shape. rewrite HR, HC. reflexivity.
Qed.

Lemma stack_dicom_series_total d files first ds0 rest R C :
  sorted_dicom_files d = Ok files ->
  files = first :: rest ->
  snd first = Dicom ds0 ->
  Rows ds0 = Some (Single R) ->
  Columns ds0 = Some (Single C) ->
  Forall (fits_slice R C) files ->
  exists raw final, stack_dicom_series d = Ok (files, raw, final).
Proof.
  intros Hsort -> Hd HR HC Hfit.
  rewrite (stack_dicom_series_unfold d first rest ds0 R C Hsort Hd HR HC).
  destruct (stack_loop_total (first :: rest) 0
              (np_zeros (R, C, List.length (first :: rest)))
              ds0 R C (List.length (first :: rest)))
    as (v' & ds' & E); [reflexivity | simpl; lia | exact Hfit |].
  rewrite E. cbn [rbind fst snd]. eauto.
Qed.

(** ** load_dicom_series *)

Lemma load_dicom_series_inv path d l vol sp l' :
  load_dicom_series path d l = (Ok (vol, sp), l') ->
  l' = l ++ [INFO (Loading_DICOM_series_from path)] /\
  exists files raw final,
    stack_dicom_series d = Ok (files, raw, final) /\
    normalize raw = Ok vol /\
    read_spacing final = Ok sp.
Proof.
  unfold load_dicom_series, bind, logging, lift.
  destruct (stack_dicom_series d) as [[[files raw] final]|e] eqn:E1;
    cbn [rbind]; [|discriminate].
  destruct (normalize raw) as [v|e] eqn:E2; cbn [rbind]; [|discriminate].
  destruct (read_spacing final) as [s|e] eqn:E3; cbn [rbind]; [|discriminate].
  intros H; inversion H; subst. split; [reflexivity|].
  exists files, raw, final. auto.
Qed.

Lemma load_dicom_series_Ok path d l files raw final vol sp :
  stack_dicom_series d = Ok (files, raw, final) ->
  normalize raw = Ok vol ->
  read_spacing final = Ok sp ->
  load_dicom_series path d l =
    (Ok (vol, sp), l ++ [INFO (Loading_DICOM_series_from path)]).
Proof.
  intros H1 H2 H3. unfold load_dicom_series, bind, logging, lift.
  rewrite H1. simpl. rewrite H2. simpl. now rewrite H3.
Qed.

Lemma load_dicom_series_unfold path d l files raw final :
  stack_dicom_series d = Ok (files, raw, final) ->
  load_dicom_series path d l =
    (vol <~ normalize raw ;; sp <~ read_spacing final ;; Ok (vol, sp),
     l ++ [INFO (Loading_DICOM_series_from path)]).
Proof.
  intros H. unfold load_dicom_series, bind, logging, lift.
  now rewrite H.
Qed.

Lemma load_dicom_series_raises path d l e :
  stack_dicom_series d = Raise e ->
  load_dicom_series path d l =
    (Raise e, l ++ [INFO (Loading_DICOM_series_from path)]).
Proof.
  intros H. unfold load_dicom_series, bind, logging, lift.
  now rewrite H.
Qed.

Lemma getitem_nat {A} (l : list A) (k : nat) (a : A) :
  getitem l (Z.of_nat k) = Ok a <-> nth_error l k = Some a.
Proof.
  unfold getitem.
  destruct (Nat.lt_ge_cases k (List.length l)) as [Hlt|Hge].
  - rewrite py_index_inside by lia. rewrite Nat2Z.id.
    destruct (nth_error l k) as [b|]; split; intros H; inversion H; reflexivity.
  - rewrite py_index_beyond by lia.
    apply nth_error_None in Hge. rewrite Hge. split; discriminate.
Qed.

Lemma value_getitem_pair {A} (a b : A) (more : list A) :
  value_getitem (MultiValue a b more) 0 = Ok a /\
  value_getitem (MultiValue a b more) 1 = Ok b.
Proof.
  unfold value_getitem. split.
  - apply getitem_0. eauto.
  - apply (getitem_nat (a :: b :: more) 1 b). reflexivity.
Qed.

Lemma read_spacing_inv ds p0 p1 st :
  read_spacing ds = Ok (p0, p1, st) <->
  exists more,
    PixelSpacing ds = Some (MultiValue p0 p1 more) /\
    SliceThickness ds = Some st.
Proof.
  unfold read_spacing.
  destruct (PixelSpacing ds) as [ps|]; cbn [getattr rbind];
    [|split; [discriminate | intros (? & H & _); discriminate]].
  destruct (SliceThickness ds) as [t|]; cbn [getattr rbind];
    [|split; [discriminate | intros (? & _ & H); discriminate]].
  destruct ps as [|p|a b more];
    try (cbn [value_getitem rbind];
         split; [discriminate | intros (? & H & _); discriminate]).
  destruct (value_getitem_pair a b more) as [-> ->]. cbn [rbind].
  split.
  - intros H; inversion H; subst. now exists more.
  - intros (more' & H1 & H2). inversion H1; inversion H2. reflexivity.
Qed.

Lemma last_split {A} (first : A) (rest : list A) :
  exists front, first :: rest = front ++ [last (first :: rest) first].
Proof.
  exists (removelast (first :: rest)).
  apply app_removelast_last. discriminate.
Qed.

(** C7: when [load_dicom_series] returns, the triple next to the volume is
    (PixelSpacing[0], PixelSpacing[1], SliceThickness) of one file, the
    last of the '.dcm' files in ascending order of InstanceNumber (the
    variable [ds] as the loop leaves it). *)
Theorem load_dicom_series_spacing
    (path : string) (d : directory) (l l' : log)
    (vol : ndarray3 f32) (sp : Q * Q * value Q) :
  load_dicom_series path d l = (Ok (vol, sp), l') ->
  exists front final_file final st p0 p1 more,
    sorted_dicom_files d = Ok (front ++ [final_file]) /\
    Permutation (front ++ [final_file]) (listed_dicom_files d) /\
    StronglySorted instance_le (front ++ [final_file]) /\
    snd final_file = Dicom final /\
    PixelSpacing final = Some (MultiValue p0 p1 more) /\
    SliceThickness final = Some st /\
    sp = (p0, p1, st).
Proof.
  intros H. apply load_dicom_series_inv in H.
  destruct H as (_ & files & raw & final & Hstack & _ & Hsp).
  apply stack_dicom_series_inv in Hstack.
  destruct Hstack
    as (Hsort & first & ds0 & rest & R & C & -> & _ & _ & _ & _ & _ & Hlast).
  destruct (last_split first rest) as [front Hfront].
  destruct sp as [[p0 p1] st]. apply read_spacing_inv in Hsp.
  destruct Hsp as (more & Hps & Hst).
  destruct (sorted_dicom_files_spec _ _ Hsort) as (Hperm & _ & Hsorted & _).
  exists front, (last (first :: rest) first), final, st, p0, p1, more.
  rewrite <- Hfront. repeat split; auto.
Qed.

Lemma square_series_loads :
  exists vol sp l',
    load_dicom_series "scans" Sample.square [] = (Ok (vol, sp), l').
Proof.
  do 3 eexists. reflexivity.
Qed.

Lemma load_dicom_series_spacing_witness :
  exists vol sp l',
    load_dicom_series "scans" Sample.square [] = (Ok (vol, sp), l') /\
    exists front final_file final,
      sorted_dicom_files Sample.square = Ok (front ++ [final_file]) /\
      snd final_file = Dicom final /\
      exists st p0 p1 more,
        PixelSpacing final = Some (MultiValue p0 p1 more) /\
        SliceThickness final = Some st /\
        sp = (p0, p1, st).
Proof.
  destruct square_series_loads as (vol & sp & l' & E).
  exists vol, sp, l'. split; [exact E|].
  destruct (load_dicom_series_spacing _ _ _ _ _ _ E)
    as (front & ff & final & st & p0 & p1 & more & H1 & _ & _ & H2 & H3).
  exists front, ff, final. split; [exact H1|]. split; [exact H2|].
  exists st, p0, p1, more. exact H3.
Defined.

Lemma broadcast_index_inside n x :
  (x < n)%nat -> broadcast_index n x = x.
Proof.
  intros H. unfold broadcast_index.
  destruct (n =? 1)%nat eqn:E; [|reflexivity].
  apply Nat.eqb_eq in E. lia.
Qed.

Lemma broadcastable_refl n : broadcastable n n = true.
Proof.
  unfold broadcastable. now rewrite Nat.eqb_refl.
Qed.

Lemma slice_of_shape_fits R C f : slice_of_shape R C f -> fits_slice R C f.
Proof.
  intros (ds & a & Hd & _ & _ & Ha & Hs). exists ds, a.
  rewrite Hs. cbn [fst snd]. repeat split; auto using broadcastable_refl.
Qed.

(** A series of readable files of one shape is stacked without error. *)
Lemma uniform_series_stacks d :
  listed_dicom_files d <> [] ->
  Forall readable (listed_dicom_files d) ->
  uniform_shape (listed_dicom_files d) ->
  exists files raw final, stack_dicom_series d = Ok (files, raw, final).
Proof.
  intros Hne Hread (R & C & Huni).
  destruct (sorted_dicom_files_total d Hread) as [files Hsort].
  destruct (sorted_dicom_files_spec d files Hsort) as (Hperm & Hr & _ & _).
  destruct files as [|first rest].
  { apply Permutation_nil in Hperm. congruence. }
  assert (Huni' : Forall (slice_of_shape R C) (first :: rest))
    by exact (Permutation_Forall (Permutation_sym Hperm) Huni).
  inversion Huni' as [|? ? (ds0 & a0 & Hd0 & HR & HC & _) _]; subst.
  destruct (stack_dicom_series_total d (first :: rest) first ds0 rest R C)
    as (raw & final & E); auto.
  - eapply Forall_impl; [|exact Huni']. apply slice_of_shape_fits.
  - eauto.
Qed.

(** C1, amended: when the directory has at least one '.dcm' file and its
    '.dcm' files all parse, carry one InstanceNumber and declare the same
    Rows and Columns, each with a pixel array of those dimensions,
    [load_dicom_series] lists them, sorts them in
    ascending order of InstanceNumber (files of equal number keep their
    listing order) and stacks them along the third axis: before the
    normalization, [volume[:, :, k]] has the shape of the pixel array of
    the k-th file in that order and holds its samples as float32. *)
Theorem load_stacks_sorted_slices
    (path : string) (d : directory) (l : log) :
  listed_dicom_files d <> [] ->
  Forall readable (listed_dicom_files d) ->
  uniform_shape (listed_dicom_files d) ->
  exists files raw final,
    stack_dicom_series d = Ok (files, raw, final) /\
    load_dicom_series path d l =
      (vol <~ normalize raw ;; sp <~ read_spacing final ;; Ok (vol, sp),
       l ++ [INFO (Loading_DICOM_series_from path)]) /\
    Permutation files (listed_dicom_files d) /\
    StronglySorted instance_le files /\
    (forall n, with_instance n files = with_instance n (listed_dicom_files d)) /\
    forall k f, nth_error files k = Some f ->
      exists ds a s,
        snd f = Dicom ds /\
        pixel_array ds = Ok a /\
        getitem_z raw (Z.of_nat k) = Ok s /\
        shape2 s = shape2 a /\
        forall x y, (x < fst (shape2 a))%nat -> (y < snd (shape2 a))%nat ->
                    at2 s x y = of_Z (at2 a x y).
Proof.
  intros Hne Hread Huni.
  destruct (uniform_series_stacks d Hne Hread Huni) as (files & raw & final & E).
  exists files, raw, final. split; [exact E|].
  split; [exact (load_dicom_series_unfold path d l files raw final E)|].
  destruct (stack_dicom_series_inv _ _ _ _ E)
    as (Hsort & first & ds0 & rest & R & C & Hfiles & Hd0 & HR & HC & Hshape
        & Hk & _).
  destruct (sorted_dicom_files_spec _ _ Hsort) as (Hperm & _ & Hsorted & Hstable).
  repeat split; auto.
  intros k f Hf. destruct (Hk k f Hf) as (ds & a & Hd & Ha & _ & _ & Hat).
  destruct Huni as (R' & C' & Huni).
  assert (Huni' : Forall (slice_of_shape R' C') files)
    by exact (Permutation_Forall (Permutation_sym Hperm) Huni).
  rewrite Forall_forall in Huni'.
  destruct (Huni' first) as (ds0' & a0 & Hd0' & HR' & HC' & _);
    [rewrite Hfiles; now left|].
  rewrite Hd0 in Hd0'. inversion Hd0'; subst ds0'.
  rewrite HR in HR'. rewrite HC in HC'. inversion HR'; inversion HC'; subst R' C'.
  destruct (Huni' f) as (ds' & a' & Hd' & _ & _ & Ha' & Hsa);
    [eapply nth_error_In; eauto|].
  rewrite Hd in Hd'. inversion Hd'; subst ds'.
  rewrite Ha in Ha'. inversion Ha'; subst a'.
  assert (Hlt : (k < List.length files)%nat).
  { apply nth_error_Some. congruence. }
  unfold getitem_z. rewrite Hshape.
  rewrite py_index_inside by lia. simpl. rewrite Nat2Z.id.
  eexists ds, a, _. split; [exact Hd|]. split; [exact Ha|].
  split; [reflexivity|].
  simpl. split; [congruence|].
  intros x y Hx Hy. rewrite Hat. unfold broadcast_sample.
  now rewrite !broadcast_index_inside.
Qed.

Lemma sample_slice_of_shape name number rows columns samples :
  slice_of_shape rows columns (name, Sample.slice number rows columns samples).
Proof.
  eexists _, _. repeat split; reflexivity.
Qed.

Lemma sample_readable name description number rows columns samples :
  readable (name, Sample.slice_as description number rows columns samples).
Proof.
  eexists _, _. split; reflexivity.
Qed.

Lemma load_stacks_sorted_slices_witness :
  exists files raw final,
    stack_dicom_series Sample.square = Ok (files, raw, final) /\
    map fst files = ["B.DCM"; "a.dcm"]%string /\
    forall k f, nth_error files k = Some f ->
      exists ds a s,
        snd f = Dicom ds /\
        pixel_array ds = Ok a /\
        getitem_z raw (Z.of_nat k) = Ok s /\
        shape2 s = shape2 a /\
        forall x y, (x < fst (shape2 a))%nat -> (y < snd (shape2 a))%nat ->
                    at2 s x y = of_Z (at2 a x y).
Proof.
  destruct (load_stacks_sorted_slices "scans" Sample.square [])
    as (files & raw & final & E & _ & _ & _ & _ & H).
  - discriminate.
  - repeat constructor; apply sample_readable.
  - exists 2%nat, 2%nat. repeat constructor; apply sample_slice_of_shape.
  - exists files, raw, final. split; [exact E|]. split; [|exact H].
    destruct (stack_dicom_series_inv _ _ _ _ E) as [Hsort _].
    assert (Hs : sorted_dicom_files Sample.square =
                 Ok [("B.DCM"%string, Sample.slice 1 2 2 (Sample.ramp 2 10));
                     ("a.dcm"%string, Sample.slice 2 2 2 (Sample.ramp 2 1))])
      by reflexivity.
    rewrite Hs in Hsort. inversion Hsort. reflexivity.
Defined.

(** C1 as stated fails: the two '.dcm' files of this directory parse, but
    the second declares one row where the first declares two.  numpy
    broadcasts its single row over the slice: the volume is returned, and
    [volume[:, :, 1]] is a 2 x 2 array, where the pixel array of the file
    is 1 x 2. *)
Lemma ragged_slice_is_not_the_pixel_array :
  exists files raw final vol sp ds a s,
    stack_dicom_series Sample.ragged = Ok (files, raw, final) /\
    load_dicom_series "scans" Sample.ragged [] =
      (Ok (vol, sp), [INFO (Loading_DICOM_series_from "scans")]) /\
    nth_error files 1 = Some ("b.dcm"%string, Dicom ds) /\
    pixel_array ds = Ok a /\
    getitem_z raw 1 = Ok s /\
    shape2 s = (2, 2)%nat /\
    shape2 a = (1, 2)%nat /\
    at2 s 1 0 = at2 s 0 0.
Proof.
  do 8 eexists. repeat split; reflexivity.
Qed.
(** ** Normalization *)

Lemma in_voxels {A} (v : ndarray3 A) R C N x y z :
  shape3 v = (R, C, N) ->
  (x < R)%nat -> (y < C)%nat -> (z < N)%nat ->
  In (at3 v x y z) (voxels v).
Proof.
  intros Hs Hx Hy Hz. unfold voxels. rewrite Hs.
  apply in_flat_map. exists x. split; [apply in_seq; lia|].
  apply in_flat_map. exists y. split; [apply in_seq; lia|].
  apply in_map_iff. exists z. split; [reflexivity | apply in_seq; lia].
Qed.

Lemma voxels_inv {A} (v : ndarray3 A) R C N a :
  shape3 v = (R, C, N) ->
  In a (voxels v) ->
  exists x y z, (x < R)%nat /\ (y < C)%nat /\ (z < N)%nat /\ a = at3 v x y z.
Proof.
  intros Hs. unfold voxels. rewrite Hs. intros H.
  apply in_flat_map in H. destruct H as (x & Hx & H).
  apply in_flat_map in H. destruct H as (y & Hy & H).
  apply in_map_iff in H. destruct H as (z & Hz & Hin).
  apply in_seq in Hx, Hy, Hin. exists x, y, z. repeat split; auto; lia.
Qed.

Lemma normalize_inv raw vol :
  normalize raw = Ok vol ->
  exists lo hi,
    np_min raw = Ok lo /\ np_max raw = Ok hi /\
    vol = np_div_scalar (np_sub_scalar raw lo) (sub hi lo).
Proof.
  unfold normalize.
  destruct (np_min raw) as [lo|e]; simpl; [|discriminate].
  destruct (np_max raw) as [hi|e]; simpl; [|discriminate].
  intros H; inversion H. now exists lo, hi.
Qed.

Lemma normalize_total raw :
  voxels raw <> [] -> exists vol, normalize raw = Ok vol.
Proof.
  intros H. unfold normalize, np_min, np_max.
  destruct (voxels raw) as [|a l]; [congruence|]. simpl. eauto.
Qed.

Lemma normalize_shape raw vol :
  normalize raw = Ok vol -> shape3 vol = shape3 raw.
Proof.
  intros H. apply normalize_inv in H. destruct H as (lo & hi & _ & _ & ->).
  reflexivity.
Qed.

(** ** Rounding to float32 *)

Lemma pow2_pos (z : Z) : 0 < 2 ^ z.
Proof.
  apply Qpower_0_lt. reflexivity.
Qed.

Lemma pow2_add (x y : Z) : 2 ^ (x + y) == 2 ^ x * 2 ^ y.
Proof.
  apply Qpower_plus. discriminate.
Qed.

Lemma pow2_le (x y : Z) : (x <= y)%Z -> 2 ^ x <= 2 ^ y.
Proof.
  intros H. apply Qpower_le_compat_l; [exact H | discriminate].
Qed.

Lemma pow2_lt_inv (x y : Z) : 2 ^ x < 2 ^ y -> (x < y)%Z.
Proof.
  intros H. apply (Qpower_lt_compat_l_inv 2); [exact H | reflexivity].
Qed.

Lemma pow2_inject (a : Z) : (0 <= a)%Z -> inject_Z (2 ^ a) == 2 ^ a.
Proof.
  intros H. now rewrite Zpower_Qpower.
Qed.

Lemma log2_bounds (n : Z) :
  (0 < n)%Z ->
  2 ^ Z.log2 n <= inject_Z n /\ inject_Z n < 2 ^ (Z.log2 n + 1).
Proof.
  intros Hn. destruct (Z.log2_spec n Hn) as [Hlo Hhi].
  pose proof (Z.log2_nonneg n) as Hnn.
  rewrite <- !pow2_inject by lia. rewrite <- Zle_Qle, <- Zlt_Qlt.
  split; [exact Hlo|]. now rewrite Z.add_1_r.
Qed.

Lemma ilog2_spec (q : Q) :
  0 < q -> 2 ^ ilog2 q <= q /\ q < 2 ^ (ilog2 q + 1).
Proof.
  intros Hq. destruct q as [n d].
  assert (Hn : (0 < n)%Z).
  { unfold Qlt in Hq. simpl in Hq. lia. }
  destruct (log2_bounds n Hn) as [Hn1 Hn2].
  destruct (log2_bounds (Zpos d) eq_refl) as [Hd1 Hd2].
  set (a := Z.log2 n) in *. set (b := Z.log2 (Zpos d)) in *.
  assert (Hdpos : 0 < inject_Z (Zpos d)) by reflexivity.
  assert (Hupper : n # d < 2 ^ (a - b + 1)).
  { rewrite (Qmake_Qdiv n d). apply Qlt_shift_div_r; [exact Hdpos|].
    apply (Qlt_le_trans _ (2 ^ (a + 1))); [exact Hn2|].
    replace (a + 1)%Z with ((a - b + 1) + b)%Z by ring.
    rewrite pow2_add. apply Qmult_le_l; [apply pow2_pos | exact Hd1]. }
  assert (Hlower : 2 ^ (a - b - 1) <= n # d).
  { rewrite (Qmake_Qdiv n d). apply Qle_shift_div_l; [exact Hdpos|].
    apply (Qle_trans _ (2 ^ a)); [|exact Hn1].
    replace a with ((a - b - 1) + (b + 1))%Z at 2 by ring.
    rewrite pow2_add. apply Qmult_le_l; [apply pow2_pos|].
    now apply Qlt_le_weak. }
  unfold ilog2. cbn [Qnum Qden]. fold a b.
  destruct (Qle_bool (2 ^ (a - b)) (n # d)) eqn:E.
  - apply Qle_bool_iff in E. split; assumption.
  - split; [exact Hlower|].
    replace (a - b - 1 + 1)%Z with (a - b)%Z by ring.
    apply Qnot_le_lt. intros H. apply Qle_bool_iff in H. congruence.
Qed.

Lemma floor_bounds (q : Q) :
  inject_Z (Qfloor q) <= q /\ q < inject_Z (Qfloor q) + 1.
Proof.
  split; [apply Qfloor_le|].
  pose proof (Qlt_floor q) as H. rewrite inject_Z_plus in H. exact H.
Qed.

Lemma round_half_even_Z (z : Z) : round_half_even (inject_Z z) = z.
Proof.
  unfold round_half_even. rewrite Qfloor_Z.
  destruct (Qcompare_spec (inject_Z z - inject_Z z) (1 # 2)) as [H|H|H];
    [exfalso; lra | reflexivity | exfalso; lra].
Qed.

Lemma round_half_even_cases (q : Q) :
  round_half_even q = Qfloor q \/ round_half_even q = (Qfloor q + 1)%Z.
Proof.
  unfold round_half_even.
  destruct (Qcompare (q - inject_Z (Qfloor q)) (1 # 2)); auto.
  destruct (Z.even (Qfloor q)); auto.
Qed.

Lemma round_half_even_mono (x y : Q) :
  x <= y -> (round_half_even x <= round_half_even y)%Z.
Proof.
  intros Hxy. pose proof (Qfloor_resp_le x y Hxy) as Hf.
  destruct (Z.eq_dec (Qfloor x) (Qfloor y)) as [E|NE].
  - unfold round_half_even. rewrite <- E.
    destruct (Qcompare_spec (x - inject_Z (Qfloor x)) (1 # 2)) as [Hx|Hx|Hx];
    destruct (Qcompare_spec (y - inject_Z (Qfloor x)) (1 # 2)) as [Hy|Hy|Hy];
      try destruct (Z.even (Qfloor x)); try lia; exfalso; lra.
  - destruct (round_half_even_cases x) as [-> | ->];
    destruct (round_half_even_cases y) as [-> | ->]; lia.
Qed.

Lemma round_half_even_between (q : Q) (lo hi : Z) :
  inject_Z lo <= q -> q <= inject_Z hi ->
  (lo <= round_half_even q <= hi)%Z.
Proof.
  intros Hlo Hhi. split.
  - rewrite <- (round_half_even_Z lo). now apply round_half_even_mono.
  - rewrite <- (round_half_even_Z hi). now apply round_half_even_mono.
Qed.

Lemma scaled_significand (q : Q) :
  0 < q ->
  let s := (ilog2 q - (prec - 1))%Z in
  inject_Z (2 ^ (prec - 1)) <= q * 2 ^ (- s) /\
  q * 2 ^ (- s) <= inject_Z (2 ^ prec).
Proof.
  intros Hq s. destruct (ilog2_spec q Hq) as [Hlo Hhi].
  pose proof (pow2_pos (- s)) as Hs.
  rewrite !pow2_inject by (unfold prec; lia). split.
  - replace (prec - 1)%Z with (ilog2 q + - s)%Z by (unfold s; ring).
    rewrite pow2_add. now apply Qmult_le_r.
  - replace prec with ((ilog2 q + 1) + - s)%Z at 1 by (unfold s; ring).
    rewrite pow2_add. apply Qlt_le_weak. now apply Qmult_lt_r.
Qed.

Lemma round_pos_binade (q : Q) :
  0 < q ->
  2 ^ ilog2 q <= round_pos q /\ round_pos q <= 2 ^ (ilog2 q + 1).
Proof.
  intros Hq. destruct (scaled_significand q Hq) as [Hlo Hhi].
  unfold round_pos. set (s := (ilog2 q - (prec - 1))%Z) in *.
  destruct (round_half_even_between _ _ _ Hlo Hhi) as [Hm1 Hm2].
  pose proof (pow2_pos s) as Hs.
  rewrite Zle_Qle in Hm1, Hm2.
  rewrite pow2_inject in Hm1, Hm2 by (unfold prec; lia). split.
  - replace (ilog2 q) with ((prec - 1) + s)%Z at 1 by (unfold s; ring).
    rewrite pow2_add. now apply Qmult_le_r.
  - replace (ilog2 q + 1)%Z with (prec + s)%Z by (unfold s; ring).
    rewrite pow2_add. now apply Qmult_le_r.
Qed.

Lemma round_pos_positive (q : Q) : 0 < q -> 0 < round_pos q.
Proof.
  intros Hq. destruct (round_pos_binade q Hq) as [H _].
  apply (Qlt_le_trans _ (2 ^ ilog2 q)); [apply pow2_pos | exact H].
Qed.

Lemma ilog2_mono (x y : Q) : 0 < x -> x <= y -> (ilog2 x <= ilog2 y)%Z.
Proof.
  intros Hx Hxy.
  assert (Hy : 0 < y) by (apply (Qlt_le_trans _ x); assumption).
  destruct (ilog2_spec x Hx) as [Hx1 _].
  destruct (ilog2_spec y Hy) as [_ Hy2].
  assert (H : 2 ^ ilog2 x < 2 ^ (ilog2 y + 1)).
  { apply (Qle_lt_trans _ x); [exact Hx1|].
    apply (Qle_lt_trans _ y); assumption. }
  apply pow2_lt_inv in H. lia.
Qed.

Lemma round_pos_mono (x y : Q) :
  0 < x -> x <= y -> round_pos x <= round_pos y.
Proof.
  intros Hx Hxy.
  assert (Hy : 0 < y) by (apply (Qlt_le_trans _ x); assumption).
  pose proof (ilog2_mono x y Hx Hxy) as He.
  destruct (Z.eq_dec (ilog2 x) (ilog2 y)) as [E|NE].
  - unfold round_pos. rewrite E.
    set (s := (ilog2 y - (prec - 1))%Z).
    apply Qmult_le_r; [apply pow2_pos|].
    rewrite <- Zle_Qle. apply round_half_even_mono.
    apply Qmult_le_r; [apply pow2_pos | exact Hxy].
  - destruct (round_pos_binade x Hx) as [_ Hx2].
    destruct (round_pos_binade y Hy) as [Hy1 _].
    apply (Qle_trans _ (2 ^ (ilog2 x + 1))); [exact Hx2|].
    apply (Qle_trans _ (2 ^ ilog2 y)); [|exact Hy1].
    apply pow2_le. lia.
Qed.

Lemma round_mono (x y : Q) : x <= y -> round x <= round y.
Proof.
  intros Hxy. unfold round.
  destruct (Qcompare_spec x 0) as [Hx|Hx|Hx];
  destruct (Qcompare_spec y 0) as [Hy|Hy|Hy]; try (exfalso; lra).
  - apply Qle_refl.
  - apply Qlt_le_weak. now apply round_pos_positive.
  - assert (H : 0 < round_pos (- x)) by (apply round_pos_positive; lra). lra.
  - assert (H : round_pos (- y) <= round_pos (- x))
      by (apply round_pos_mono; lra).
    lra.
  - assert (H1 : 0 < round_pos (- x)) by (apply round_pos_positive; lra).
    assert (H2 : 0 < round_pos y) by now apply round_pos_positive.
    lra.
  - now apply round_pos_mono.
Qed.

Lemma round_compat (x y : Q) : x == y -> round x == round y.
Proof.
  intros H. apply Qle_antisym; apply round_mono; lra.
Qed.

Lemma round_0 : round 0 = 0.
Proof.
  reflexivity.
Qed.

Lemma round_1 : round 1 == 1.
Proof.
  vm_compute. reflexivity.
Qed.

Lemma round_nonneg (x : Q) : 0 <= x -> 0 <= round x.
Proof.
  intros H. rewrite <- round_0 at 1. now apply round_mono.
Qed.

Lemma round_positive (x : Q) : 0 < x -> 0 < round x.
Proof.
  intros H. unfold round.
  destruct (Qcompare_spec x 0) as [Hx|Hx|Hx]; try (exfalso; lra).
  now apply round_pos_positive.
Qed.

Lemma round_unit_interval (x : Q) : 0 <= x -> x <= 1 -> 0 <= round x <= 1.
Proof.
  intros H0 H1. split; [now apply round_nonneg|].
  rewrite <- round_1. now apply round_mono.
Qed.


(** ** Minimum and maximum *)

Lemma round_zero q : q == 0 -> round q = 0.
Proof.
  intros H. unfold round. apply Qeq_alt in H. now rewrite H.
Qed.

Lemma sub_self q : sub (Finite q) (Finite q) = Finite 0.
Proof.
  simpl. f_equal. apply round_zero. ring.
Qed.

Lemma lt_irrefl q : lt (Finite q) (Finite q) = false.
Proof.
  simpl. apply negb_false_iff. apply Qle_bool_iff. apply Qle_refl.
Qed.

Lemma fold_minimum_constant q l :
  (forall b, In b l -> b = Finite q) ->
  fold_left minimum l (Finite q) = Finite q.
Proof.
  induction l as [|b l IH]; intros H; simpl; [reflexivity|].
  rewrite (H b (or_introl eq_refl)).
  unfold minimum at 2. cbn [isnan]. rewrite lt_irrefl.
  apply IH. intros b' Hb'. apply H. now right.
Qed.

Lemma fold_maximum_constant q l :
  (forall b, In b l -> b = Finite q) ->
  fold_left maximum l (Finite q) = Finite q.
Proof.
  induction l as [|b l IH]; intros H; simpl; [reflexivity|].
  rewrite (H b (or_introl eq_refl)).
  unfold maximum at 2. cbn [isnan]. rewrite lt_irrefl.
  apply IH. intros b' Hb'. apply H. now right.
Qed.

Lemma minimum_finite (a b : Q) :
  minimum (Finite a) (Finite b) = Finite (if Qle_bool a b then a else b).
Proof.
  unfold minimum. cbn [isnan lt]. now destruct (Qle_bool a b).
Qed.

Lemma maximum_finite (a b : Q) :
  maximum (Finite a) (Finite b) = Finite (if Qle_bool b a then a else b).
Proof.
  unfold maximum. cbn [isnan lt]. now destruct (Qle_bool b a).
Qed.

Lemma fold_minimum_finite (qs : list Q) : forall q0,
  exists m,
    fold_left minimum (map Finite qs) (Finite q0) = Finite m /\
    In m (q0 :: qs) /\
    forall q, In q (q0 :: qs) -> m <= q.
Proof.
  induction qs as [|q1 qs IH]; intros q0.
  - exists q0. simpl. repeat split; auto.
    intros q [<-|[]]. apply Qle_refl.
  - cbn [map fold_left]. rewrite minimum_finite.
    destruct (Qle_bool q0 q1) eqn:E.
    + apply Qle_bool_iff in E.
      destruct (IH q0) as (m & Hm & Hin & Hle).
      exists m. split; [exact Hm|]. split.
      * destruct Hin as [<-|Hin]; [now left | right; now right].
      * intros q [<-|[<-|Hq]].
        -- apply Hle. now left.
        -- apply (Qle_trans _ q0); [apply Hle; now left | exact E].
        -- apply Hle. now right.
    + assert (E' : q1 <= q0).
      { apply Qlt_le_weak, Qnot_le_lt. intros H.
        apply Qle_bool_iff in H. congruence. }
      destruct (IH q1) as (m & Hm & Hin & Hle).
      exists m. split; [exact Hm|]. split.
      * now right.
      * intros q [<-|Hq]; [|now apply Hle].
        apply (Qle_trans _ q1); [apply Hle; now left | exact E'].
Qed.

Lemma fold_maximum_finite (qs : list Q) : forall q0,
  exists m,
    fold_left maximum (map Finite qs) (Finite q0) = Finite m /\
    In m (q0 :: qs) /\
    forall q, In q (q0 :: qs) -> q <= m.
Proof.
  induction qs as [|q1 qs IH]; intros q0.
  - exists q0. simpl. repeat split; auto.
    intros q [<-|[]]. apply Qle_refl.
  - cbn [map fold_left]. rewrite maximum_finite.
    destruct (Qle_bool q1 q0) eqn:E.
    + apply Qle_bool_iff in E.
      destruct (IH q0) as (m & Hm & Hin & Hle).
      exists m. split; [exact Hm|]. split.
      * destruct Hin as [<-|Hin]; [now left | right; now right].
      * intros q [<-|[<-|Hq]].
        -- apply Hle. now left.
        -- apply (Qle_trans _ q0); [exact E | apply Hle; now left].
        -- apply Hle. now right.
    + assert (E' : q0 <= q1).
      { apply Qlt_le_weak, Qnot_le_lt. intros H.
        apply Qle_bool_iff in H. congruence. }
      destruct (IH q1) as (m & Hm & Hin & Hle).
      exists m. split; [exact Hm|]. split.
      * now right.
      * intros q [<-|Hq]; [|now apply Hle].
        apply (Qle_trans _ q1); [exact E' | apply Hle; now left].
Qed.

Lemma finite_list (l : list f32) :
  (forall b, In b l -> exists q, b = Finite q) ->
  exists qs, l = map Finite qs.
Proof.
  induction l as [|b l IH]; intros H.
  - now exists [].
  - destruct (H b (or_introl eq_refl)) as [q ->].
    destruct IH as [qs ->]; [intros b' Hb'; apply H; now right|].
    now exists (q :: qs).
Qed.

(** ** Integers that float32 holds exactly *)

Lemma round_half_even_compat (x y : Q) :
  x == y -> round_half_even x = round_half_even y.
Proof.
  intros H. apply Z.le_antisymm; apply round_half_even_mono; lra.
Qed.

Lemma round_pos_compat (x y : Q) :
  0 < x -> x == y -> round_pos x == round_pos y.
Proof.
  intros Hx H. apply Qle_antisym; apply round_pos_mono; lra.
Qed.

Lemma round_pos_small_integer (z : Z) :
  (0 < z < 2 ^ prec)%Z -> round_pos (inject_Z z) == inject_Z z.
Proof.
  intros [Hz0 Hz1].
  assert (Hq : 0 < inject_Z z).
  { change (inject_Z 0 < inject_Z z). now rewrite <- Zlt_Qlt. }
  destruct (ilog2_spec _ Hq) as [He _].
  assert (Hlt : 2 ^ ilog2 (inject_Z z) < 2 ^ prec).
  { apply (Qle_lt_trans _ (inject_Z z)); [exact He|].
    rewrite <- pow2_inject by (unfold prec; lia). now rewrite <- Zlt_Qlt. }
  apply pow2_lt_inv in Hlt.
  unfold round_pos. set (s := (ilog2 (inject_Z z) - (prec - 1))%Z).
  assert (Hs : (0 <= - s)%Z) by (unfold s; lia).
  rewrite (round_half_even_compat _ (inject_Z (z * 2 ^ (- s)))).
  - rewrite round_half_even_Z, inject_Z_mult, pow2_inject by exact Hs.
    rewrite <- Qmult_assoc, <- pow2_add.
    replace (- s + s)%Z with 0%Z by ring. simpl. ring.
  - now rewrite inject_Z_mult, pow2_inject.
Qed.

Lemma round_pos_integer (z : Z) :
  (0 < z <= 2 ^ prec)%Z -> round_pos (inject_Z z) == inject_Z z.
Proof.
  intros [Hz0 Hz1]. destruct (Z.eq_dec z (2 ^ prec)) as [->|Hne].
  - vm_compute. reflexivity.
  - apply round_pos_small_integer. lia.
Qed.

Lemma of_Z_exact (z : Z) :
  (Z.abs z <= 2 ^ prec)%Z ->
  exists q, of_Z z = Finite q /\ q == inject_Z z.
Proof.
  intros Hz. unfold of_Z. eexists. split; [reflexivity|].
  unfold round.
  destruct (Qcompare_spec (inject_Z z) 0) as [H|H|H].
  - now rewrite H.
  - assert (Hneg : (z < 0)%Z) by (rewrite (Zlt_Qlt z 0); exact H).
    rewrite (round_pos_compat _ (inject_Z (- z))).
    + rewrite round_pos_integer by lia. rewrite inject_Z_opp. ring.
    + lra.
    + now rewrite inject_Z_opp.
  - assert (Hpos : (0 < z)%Z) by (rewrite (Zlt_Qlt 0 z); exact H).
    apply round_pos_integer. lia.
Qed.

(** ** Normalized voxels *)

Lemma normalized_voxel (r lo hi : Q) :
  lo <= r -> r <= hi -> lo < hi ->
  let q := round (round (r - lo) / round (hi - lo)) in
  div (sub (Finite r) (Finite lo)) (sub (Finite hi) (Finite lo)) = Finite q /\
  0 <= q /\ q <= 1 /\
  (r == lo -> q == 0) /\ (r == hi -> q == 1).
Proof.
  intros Hlo Hhi Hlt. cbn [sub].
  set (a := round (r - lo)). set (b := round (hi - lo)).
  assert (Hb : 0 < b) by (apply round_positive; lra).
  assert (Ha0 : 0 <= a) by (apply round_nonneg; lra).
  assert (Hab : a <= b) by (apply round_mono; lra).
  cbn [div].
  assert (Hbz : Qeq_bool b 0 = false).
  { apply not_true_is_false. intros H. apply Qeq_bool_iff in H. lra. }
  rewrite Hbz.
  assert (Hq0 : 0 <= a / b) by (apply Qle_shift_div_l; lra).
  assert (Hq1 : a / b <= 1) by (apply Qle_shift_div_r; lra).
  split; [reflexivity|].
  destruct (round_unit_interval _ Hq0 Hq1) as [H0 H1].
  split; [exact H0|]. split; [exact H1|]. split.
  - intros E.
    assert (Ea : a == 0).
    { unfold a. rewrite (round_compat (r - lo) 0) by lra. reflexivity. }
    rewrite (round_compat (a / b) 0); [reflexivity|].
    rewrite Ea. unfold Qdiv. ring.
  - intros E.
    assert (Ea : a == b) by (apply round_compat; lra).
    rewrite (round_compat (a / b) 1); [apply round_1|].
    rewrite Ea. unfold Qdiv. apply Qmult_inv_r. lra.
Qed.

(** Without contrast the quotient is [0 / 0]. *)
Lemma degenerate_voxel (r lo hi : Q) :
  lo <= r -> r <= hi -> lo == hi ->
  sub (Finite hi) (Finite lo) = Finite 0 /\
  div (sub (Finite r) (Finite lo)) (sub (Finite hi) (Finite lo)) = NaN.
Proof.
  intros Hlo Hhi E. cbn [sub].
  rewrite (round_zero (hi - lo)) by lra.
  rewrite (round_zero (r - lo)) by lra.
  split; reflexivity.
Qed.

Lemma stacked_voxels_finite d files raw final :
  stack_dicom_series d = Ok (files, raw, final) ->
  forall b, In b (voxels raw) -> exists q, b = Finite q.
Proof.
  intros Hstack b Hb.
  destruct (stack_dicom_series_inv _ _ _ _ Hstack)
    as (_ & first & ds0 & rest & R & C & _ & _ & _ & _ & Hshape & Hk & _).
  destruct (voxels_inv raw _ _ _ b Hshape Hb)
    as (x & y & z & _ & _ & Hz & ->).
  destruct (nth_error files z) as [f|] eqn:Ef.
  - destruct (Hk z f Ef) as (ds & a & _ & _ & _ & _ & Hat).
    rewrite Hat. unfold of_Z. eauto.
  - apply nth_error_None in Ef. lia.
Qed.

(** C6: the normalization of line 49 in float32.  When
    [load_dicom_series] returns, the minimum [lo] and the maximum [hi] of
    the stacked volume are finite and are the values of some voxels, and
    every voxel [r] of the stacked volume has become
    [(r - lo) / (hi - lo)], computed in float32.  If [lo < hi] that is the
    finite number [round (round (r - lo) / round (hi - lo))]; it lies in
    [0, 1], a voxel that held the minimum becomes 0 and one that held the
    maximum becomes 1.  If all stacked values are equal the divisor is 0
    and the quotient [0 / 0]: every voxel is NaN. *)
Theorem load_dicom_series_normalized
    (path : string) (d : directory) (l l' : log)
    (vol : ndarray3 f32) (sp : Q * Q * value Q) (R C N : nat) :
  load_dicom_series path d l = (Ok (vol, sp), l') ->
  shape3 vol = (R, C, N) ->
  exists raw lo hi,
    (exists files final, stack_dicom_series d = Ok (files, raw, final)) /\
    shape3 raw = (R, C, N) /\
    np_min raw = Ok (Finite lo) /\
    np_max raw = Ok (Finite hi) /\
    (exists x y z, (x < R)%nat /\ (y < C)%nat /\ (z < N)%nat /\
                   at3 raw x y z = Finite lo) /\
    (exists x y z, (x < R)%nat /\ (y < C)%nat /\ (z < N)%nat /\
                   at3 raw x y z = Finite hi) /\
    forall x y z, (x < R)%nat -> (y < C)%nat -> (z < N)%nat ->
      exists r,
        at3 raw x y z = Finite r /\ lo <= r /\ r <= hi /\
        at3 vol x y z =
          div (sub (Finite r) (Finite lo)) (sub (Finite hi) (Finite lo)) /\
        (lo < hi ->
           let q := round (round (r - lo) / round (hi - lo)) in
           at3 vol x y z = Finite q /\ 0 <= q /\ q <= 1 /\
           (r == lo -> q == 0) /\ (r == hi -> q == 1)) /\
        (lo == hi ->
           sub (Finite hi) (Finite lo) = Finite 0 /\ at3 vol x y z = NaN).
Proof.
  intros Hload Hshape.
  apply load_dicom_series_inv in Hload.
  destruct Hload as (_ & files & raw & final & Hstack & Hnorm & _).
  pose proof (stacked_voxels_finite _ _ _ _ Hstack) as Hfin.
  assert (Hraw : shape3 raw = (R, C, N)).
  { now rewrite <- (normalize_shape _ _ Hnorm). }
  destruct (finite_list _ Hfin) as [qs Hqs].
  destruct (normalize_inv _ _ Hnorm) as (vlo & vhi & Hmin & Hmax & Hvol).
  unfold np_min in Hmin. unfold np_max in Hmax. rewrite Hqs in Hmin, Hmax.
  destruct qs as [|q0 qs]; [discriminate|]. cbn [map] in Hmin, Hmax.
  destruct (fold_minimum_finite qs q0) as (lo & Elo & Hlo_in & Hlo).
  destruct (fold_maximum_finite qs q0) as (hi & Ehi & Hhi_in & Hhi).
  rewrite Elo in Hmin. rewrite Ehi in Hmax.
  inversion Hmin; subst vlo. inversion Hmax; subst vhi. clear Hmin Hmax.
  assert (Hidx : forall m, In m (q0 :: qs) ->
            exists x y z, (x < R)%nat /\ (y < C)%nat /\ (z < N)%nat /\
                          at3 raw x y z = Finite m).
  { intros m Hm.
    assert (Hv : In (Finite m) (voxels raw)).
    { rewrite Hqs. change (Finite q0 :: map Finite qs)
        with (map Finite (q0 :: qs)). now apply in_map. }
    destruct (voxels_inv raw _ _ _ _ Hraw Hv)
      as (x & y & z & Hx & Hy & Hz & E).
    exists x, y, z. auto. }
  exists raw, lo, hi.
  split; [eauto|]. split; [exact Hraw|].
  split; [unfold np_min; rewrite Hqs; cbn [map]; now rewrite Elo|].
  split; [unfold np_max; rewrite Hqs; cbn [map]; now rewrite Ehi|].
  split; [now apply Hidx|]. split; [now apply Hidx|].
  intros x y z Hx Hy Hz.
  pose proof (in_voxels raw _ _ _ x y z Hraw Hx Hy Hz) as Hin.
  destruct (Hfin _ Hin) as [r Hr].
  assert (Hr_in : In r (q0 :: qs)).
  { rewrite Hr, Hqs in Hin.
    change (Finite q0 :: map Finite qs) with (map Finite (q0 :: qs)) in Hin.
    apply in_map_iff in Hin. destruct Hin as (r' & E & Hr').
    inversion E. now subst. }
  assert (Hv : at3 vol x y z =
               div (sub (Finite r) (Finite lo)) (sub (Finite hi) (Finite lo))).
  { subst vol. cbn [np_div_scalar np_sub_scalar at3]. now rewrite Hr. }
  exists r. split; [exact Hr|]. split; [now apply Hlo|].
  split; [now apply Hhi|]. split; [exact Hv|]. split.
  - intros Hlt. rewrite Hv.
    exact (normalized_voxel r lo hi (Hlo r Hr_in) (Hhi r Hr_in) Hlt).
  - intros Heq. rewrite Hv.
    exact (degenerate_voxel r lo hi (Hlo r Hr_in) (Hhi r Hr_in) Heq).
Qed.

(** ** Series that load *)

Lemma slice_image_readable f : slice_image f -> readable f.
Proof.
  intros (ds & n & R & C & a & p0 & p1 & more & st & Hd & Hn & _).
  now exists ds, n.
Qed.

Lemma slice_image_spacing f ds :
  slice_image f -> snd f = Dicom ds -> exists sp, read_spacing ds = Ok sp.
Proof.
  intros (ds' & n & R & C & a & p0 & p1 & more & st & Hd & _ & _ & _ & _ & _
          & _ & _ & Hps & Hst) E.
  rewrite E in Hd. inversion Hd; subst ds'.
  exists (p0, p1, st). apply read_spacing_inv. now exists more.
Qed.

Lemma slice_image_extent f ds R C :
  slice_image f -> snd f = Dicom ds ->
  Rows ds = Some (Single R) -> Columns ds = Some (Single C) ->
  (1 <= R)%nat /\ (1 <= C)%nat.
Proof.
  intros (ds' & n & R' & C' & a & p0 & p1 & more & st & Hd & _ & HR & HC & H1
          & H2 & _) E ER EC.
  rewrite E in Hd. inversion Hd; subst ds'.
  rewrite ER in HR. rewrite EC in HC. inversion HR; inversion HC; subst.
  auto.
Qed.

Lemma slice_image_declares f :
  slice_image f ->
  exists ds R C, snd f = Dicom ds /\
                 Rows ds = Some (Single R) /\ Columns ds = Some (Single C).
Proof.
  intros (ds & n & R & C & a & p0 & p1 & more & st & Hd & _ & HR & HC & _).
  now exists ds, R, C.
Qed.

(** A directory of slice images with compatible pixel arrays loads; the
    stages of the load, by name. *)
Lemma series_loads (path : string) (d : directory) (l : log) :
  listed_dicom_files d <> [] ->
  Forall slice_image (listed_dicom_files d) ->
  broadcast_compatible d ->
  exists vol sp first rest ds0 R C raw final,
    sorted_dicom_files d = Ok (first :: rest) /\
    Permutation (first :: rest) (listed_dicom_files d) /\
    snd first = Dicom ds0 /\
    Rows ds0 = Some (Single R) /\
    Columns ds0 = Some (Single C) /\
    stack_dicom_series d = Ok (first :: rest, raw, final) /\
    shape3 raw = (R, C, List.length (listed_dicom_files d)) /\
    normalize raw = Ok vol /\
    read_spacing final = Ok sp /\
    load_dicom_series path d l =
      (Ok (vol, sp), l ++ [INFO (Loading_DICOM_series_from path)]).
Proof.
  intros Hne Himg Hcompat.
  assert (Hread : Forall readable (listed_dicom_files d)).
  { eapply Forall_impl; [|exact Himg]. apply slice_image_readable. }
  destruct (sorted_dicom_files_total d Hread) as [files Hsort].
  destruct (sorted_dicom_files_spec d files Hsort) as (Hperm & Hr & _ & _).
  destruct files as [|first rest].
  { apply Permutation_nil in Hperm. congruence. }
  assert (Himg' : forall f, In f (first :: rest) -> slice_image f).
  { intros f Hf. rewrite Forall_forall in Himg. apply Himg.
    eapply Permutation_in; eauto. }
  destruct (slice_image_declares first (Himg' _ (or_introl eq_refl)))
    as (ds0 & R & C & Hd0 & HR & HC).
  destruct (slice_image_extent first ds0 R C (Himg' _ (or_introl eq_refl))
              Hd0 HR HC) as [HR1 HC1].
  destruct (stack_dicom_series_total d _ first ds0 rest R C Hsort eq_refl
              Hd0 HR HC) as (raw & final & E); [now apply (Hcompat _ _ ds0)|].
  destruct (stack_dicom_series_inv _ _ _ _ E)
    as (_ & first' & ds0' & rest' & R' & C' & Hfiles & Hd0' & HR' & HC'
        & Hshape & Hk & Hlast).
  inversion Hfiles; subst first' rest'. rewrite Hd0 in Hd0'.
  inversion Hd0'; subst ds0'. rewrite HR in HR'. rewrite HC in HC'.
  inversion HR'; inversion HC'; subst R' C'. clear Hfiles Hd0' HR' HC'.
  destruct (last_split first rest) as [front Hfront].
  destruct (slice_image_spacing (last (first :: rest) first) final)
    as [sp Hsp]; [| exact Hlast |].
  { apply Himg'. rewrite Hfront at 2. apply in_or_app. right. now left. }
  destruct (normalize_total raw) as [vol Hvol].
  { intros Hnil.
    pose proof (in_voxels raw _ _ _ 0 0 0 Hshape) as Hin.
    rewrite Hnil in Hin. simpl in Hin. apply Hin; simpl; lia. }
  exists vol, sp, first, rest, ds0, R, C, raw, final.
  repeat split; auto.
  - now rewrite Hshape, (Permutation_length Hperm).
  - now apply (load_dicom_series_Ok path d l (first :: rest) raw final).
Qed.

(** C5, amended: for a directory whose '.dcm' entries are N >= 1 DICOM
    slice images with pixel arrays that have, or broadcast to, the
    dimensions declared by the first file in sorted order,
    [load_dicom_series] returns a volume of shape (Rows, Columns, N) with
    Rows and Columns those of that first file, and the k-th file in sorted
    order supplies slice k and only that slice: before the normalization
    the slice holds the samples of the file as float32, and in the
    returned volume each of its voxels is that value less the minimum of
    the stacked volume, divided by the maximum less the minimum. *)
Theorem load_returns_volume_of_series_shape
    (path : string) (d : directory) (l : log) :
  listed_dicom_files d <> [] ->
  Forall slice_image (listed_dicom_files d) ->
  broadcast_compatible d ->
  exists vol sp first rest ds0 R C raw final lo hi,
    load_dicom_series path d l =
      (Ok (vol, sp), l ++ [INFO (Loading_DICOM_series_from path)]) /\
    sorted_dicom_files d = Ok (first :: rest) /\
    List.length (first :: rest) = List.length (listed_dicom_files d) /\
    snd first = Dicom ds0 /\
    Rows ds0 = Some (Single R) /\
    Columns ds0 = Some (Single C) /\
    shape3 vol = (R, C, List.length (listed_dicom_files d)) /\
    stack_dicom_series d = Ok (first :: rest, raw, final) /\
    np_min raw = Ok lo /\
    np_max raw = Ok hi /\
    forall k f, nth_error (first :: rest) k = Some f ->
      exists ds a,
        snd f = Dicom ds /\
        pixel_array ds = Ok a /\
        forall x y,
          at3 raw x y k = of_Z (broadcast_sample a x y) /\
          at3 vol x y k = div (sub (at3 raw x y k) lo) (sub hi lo).
Proof.
  intros Hne Himg Hcompat.
  destruct (series_loads path d l Hne Himg Hcompat)
    as (vol & sp & first & rest & ds0 & R & C & raw & final & Hsort & Hperm
        & Hd0 & HR & HC & Hstack & Hshape & Hvol & Hsp & Hload).
  destruct (normalize_inv _ _ Hvol) as (lo & hi & Hlo & Hhi & Hv).
  destruct (stack_dicom_series_inv _ _ _ _ Hstack)
    as (_ & first' & ds0' & rest' & R' & C' & _ & _ & _ & _ & _ & Hk & _).
  exists vol, sp, first, rest, ds0, R, C, raw, final, lo, hi.
  split; [exact Hload|]. split; [exact Hsort|].
  split; [exact (Permutation_length Hperm)|].
  split; [exact Hd0|]. split; [exact HR|]. split; [exact HC|].
  split; [now rewrite (normalize_shape _ _ Hvol)|].
  split; [exact Hstack|]. split; [exact Hlo|]. split; [exact Hhi|].
  intros k f Hf. destruct (Hk k f Hf) as (ds & a & Hd & Ha & _ & _ & Hat).
  exists ds, a. split; [exact Hd|]. split; [exact Ha|].
  intros x y. split; [apply Hat|]. subst vol. reflexivity.
Qed.

Lemma square_sorted :
  sorted_dicom_files Sample.square =
  Ok [("B.DCM"%string, Sample.slice 1 2 2 (Sample.ramp 2 10));
      ("a.dcm"%string, Sample.slice 2 2 2 (Sample.ramp 2 1))].
Proof.
  reflexivity.
Qed.

Lemma sample_slice_image name description number rows columns samples :
  (1 <= rows)%nat -> (1 <= columns)%nat ->
  slice_image (name, Sample.slice_as description number rows columns samples).
Proof.
  intros HR HC. unfold slice_image, Sample.slice_as. cbn [snd].
  do 9 eexists. repeat split; try reflexivity; assumption.
Qed.

Lemma sample_fits name description number rows columns samples :
  fits_slice rows columns
    (name, Sample.slice_as description number rows columns samples).
Proof.
  eexists _, _. split; [reflexivity|]. split; [reflexivity|]. simpl.
  split; apply broadcastable_refl.
Qed.

Lemma square_is_a_series :
  listed_dicom_files Sample.square <> [] /\
  Forall slice_image (listed_dicom_files Sample.square) /\
  broadcast_compatible Sample.square.
Proof.
  split; [discriminate|]. split.
  - repeat constructor; apply sample_slice_image; lia.
  - intros first rest ds0 R C Hsort Hd HR HC. rewrite square_sorted in Hsort.
    inversion Hsort; subst. simpl in Hd. inversion Hd; subst.
    simpl in HR, HC. inversion HR; inversion HC; subst.
    repeat constructor; apply sample_fits.
Qed.

Lemma load_returns_volume_of_series_shape_witness :
  exists vol sp,
    load_dicom_series "scans" Sample.square [] =
      (Ok (vol, sp), [INFO (Loading_DICOM_series_from "scans")]) /\
    shape3 vol = (2, 2, 2)%nat.
Proof.
  destruct square_is_a_series as (H1 & H2 & H3).
  destruct (load_returns_volume_of_series_shape "scans" Sample.square [] H1 H2 H3)
    as (vol & sp & first & rest & ds0 & R & C & raw & final & lo & hi & Hload
        & Hsort & _ & Hd & HR & HC & Hshape & _).
  exists vol, sp. split; [exact Hload|].
  rewrite square_sorted in Hsort. inversion Hsort; subst.
  simpl in Hd. inversion Hd; subst. simpl in HR, HC.
  inversion HR; inversion HC; subst. exact Hshape.
Defined.

(** C5 as stated fails: the two '.dcm' files of this directory are DICOM
    slice images, one of 2 x 2 and one of 3 x 3 pixels.  The volume gets
    the dimensions of the first, the assignment of the second to its slice
    raises ValueError, and no volume is returned. *)
Lemma mismatched_series_is_not_loaded :
  Forall slice_image (listed_dicom_files Sample.mismatched) /\
  List.length (listed_dicom_files Sample.mismatched) = 2%nat /\
  load_dicom_series "scans" Sample.mismatched [] =
    (Raise ValueError, [INFO (Loading_DICOM_series_from "scans")]).
Proof.
  split; [|split; reflexivity].
  repeat constructor; apply sample_slice_image; lia.
Qed.

Lemma square_series_loads_with_log :
  exists vol sp,
    load_dicom_series "scans" Sample.square [] =
      (Ok (vol, sp), [INFO (Loading_DICOM_series_from "scans")]).
Proof.
  do 2 eexists. reflexivity.
Qed.

Lemma load_dicom_series_normalized_witness :
  exists vol sp raw lo hi,
    load_dicom_series "scans" Sample.square [] =
      (Ok (vol, sp), [INFO (Loading_DICOM_series_from "scans")]) /\
    np_min raw = Ok (Finite lo) /\
    np_max raw = Ok (Finite hi) /\
    lo < hi /\
    forall x y z, (x < 2)%nat -> (y < 2)%nat -> (z < 2)%nat ->
      exists r,
        at3 raw x y z = Finite r /\ lo <= r /\ r <= hi /\
        let q := round (round (r - lo) / round (hi - lo)) in
        at3 vol x y z = Finite q /\ 0 <= q /\ q <= 1 /\
        (r == lo -> q == 0) /\ (r == hi -> q == 1).
Proof.
  destruct square_series_loads_with_log as (vol & sp & Hload).
  assert (Hshape : shape3 vol = (2, 2, 2)%nat).
  { destruct (load_dicom_series_inv _ _ _ _ _ _ Hload)
      as (_ & files & raw & final & Hstack & Hnorm & _).
    rewrite (normalize_shape _ _ Hnorm).
    destruct (stack_dicom_series_inv _ _ _ _ Hstack)
      as (Hsort & first & ds0 & rest & R & C & -> & Hd & HR & HC & Hs & _).
    rewrite square_sorted in Hsort. inversion Hsort; subst.
    simpl in Hd. inversion Hd; subst. simpl in HR, HC.
    inversion HR; inversion HC; subst. exact Hs. }
  destruct (load_dicom_series_normalized _ _ _ _ _ _ _ _ _ Hload Hshape)
    as (raw & lo & hi & (files & final & Hstack) & _ & Hmin & Hmax & _ & _ & H).
  assert (Hlt : lo < hi).
  { assert (E : exists files0 raw0 final0,
                stack_dicom_series Sample.square = Ok (files0, raw0, final0) /\
                np_min raw0 = Ok (Finite (round 1)) /\
                np_max raw0 = Ok (Finite (round 13))).
    { do 3 eexists. split; [reflexivity|]. split; reflexivity. }
    destruct E as (files0 & raw0 & final0 & E0 & Emin & Emax).
    rewrite Hstack in E0. inversion E0; subst.
    rewrite Hmin in Emin. rewrite Hmax in Emax.
    inversion Emin; subst. inversion Emax; subst.
    vm_compute. reflexivity. }
  exists vol, sp, raw, lo, hi.
  split; [exact Hload|]. split; [exact Hmin|]. split; [exact Hmax|].
  split; [exact Hlt|].
  intros x y z Hx Hy Hz.
  destruct (H x y z Hx Hy Hz) as (r & Hr & H1 & H2 & _ & Hq & _).
  exists r. split; [exact Hr|]. split; [exact H1|]. split; [exact H2|].
  exact (Hq Hlt).
Defined.

(** ** How create_mri_visualization follows load_dicom_series *)

Lemma init_no_params path d l :
  init path d no_params l =
  match load_dicom_series path d l with
  | (Ok (vol, sp), l') =>
      (Ok {| slice_index := default_slice_index;
             view_axis := default_view_axis;
             slice_index_bounds :=
               (0, Z.of_nat (snd (shape3 vol)) - 1)%Z;
             volume := vol;
             spacing := sp |}, l')
  | (Raise e, l') => (Raise e, l')
  end.
Proof.
  unfold init, bind, lift, ret. cbn [p_slice_index p_view_axis no_params].
  destruct (load_dicom_series path d l) as [[[vol sp]|e] l']; [|reflexivity].
  now destruct (shape3 vol) as [[R C] N].
Qed.

Lemma create_outcome (path : string) (d : directory) (l : log) :
  create_mri_visualization path d l =
  match load_dicom_series path d l with
  | (Ok (vol, sp), l') =>
      (Ok (panel {| slice_index := 0;
                    view_axis := "z";
                    slice_index_bounds :=
                      (0, Z.of_nat (snd (shape3 vol)) - 1)%Z;
                    volume := vol;
                    spacing := sp |}), l')
  | (Raise e, l') =>
      (Raise e, l' ++ [ERROR (Failed_to_create_visualization e)])
  end.
Proof.
  unfold create_mri_visualization, try_except, bind.
  rewrite init_no_params.
  destruct (load_dicom_series path d l) as [[[vol sp]|e] l']; reflexivity.
Qed.

Lemma create_raises path d l e :
  load_dicom_series path d l =
    (Raise e, l ++ [INFO (Loading_DICOM_series_from path)]) ->
  create_mri_visualization path d l =
    (Raise e, l ++ [INFO (Loading_DICOM_series_from path);
                    ERROR (Failed_to_create_visualization e)]).
Proof.
  intros H. rewrite create_outcome, H. now rewrite <- app_assoc.
Qed.

(** What [create_mri_visualization] does is decided by
    [load_dicom_series]: when the load returns, the panel of a fresh
    instance (slice 0, axis 'z', bounds (0, N - 1)) is returned and nothing
    is added to the log of the load; when the load raises, one ERROR record
    naming the exception is appended and the same exception is raised.  No
    exception is swallowed and no panel is returned after a failure. *)
Theorem create_mri_visualization_follows_load
    (path : string) (d : directory) (l l' : log) :
  (forall vol sp,
      load_dicom_series path d l = (Ok (vol, sp), l') ->
      create_mri_visualization path d l =
      (Ok (panel {| slice_index := 0;
                    view_axis := "z";
                    slice_index_bounds :=
                      (0, Z.of_nat (snd (shape3 vol)) - 1)%Z;
                    volume := vol;
                    spacing := sp |}), l')) /\
  (forall e,
      load_dicom_series path d l = (Raise e, l') ->
      create_mri_visualization path d l =
      (Raise e, l' ++ [ERROR (Failed_to_create_visualization e)])) /\
  (forall p, create_mri_visualization path d l = (Ok p, l') ->
      exists vol sp, load_dicom_series path d l = (Ok (vol, sp), l')).
Proof.
  rewrite create_outcome.
  destruct (load_dicom_series path d l) as [[[vol sp]|e] l0].
  - repeat split.
    + intros v s H. now inversion H.
    + intros e H. discriminate.
    + intros p H. inversion H. eauto.
  - repeat split.
    + intros v s H. discriminate.
    + intros e' H. now inversion H.
    + intros p H. discriminate.
Qed.

Lemma create_mri_visualization_follows_load_witness :
  exists vol sp,
    load_dicom_series "scans" Sample.square [] =
      (Ok (vol, sp), [INFO (Loading_DICOM_series_from "scans")]) /\
    create_mri_visualization "scans" Sample.square [] =
      (Ok (panel {| slice_index := 0;
                    view_axis := "z";
                    slice_index_bounds :=
                      (0, Z.of_nat (snd (shape3 vol)) - 1)%Z;
                    volume := vol;
                    spacing := sp |}),
       [INFO (Loading_DICOM_series_from "scans")]).
Proof.
  destruct square_series_loads_with_log as (vol & sp & H).
  exists vol, sp. split; [exact H|].
  now apply (create_mri_visualization_follows_load "scans" Sample.square []).
Defined.

(** ** Entries that cannot be read *)

Lemma instance_key_failure f e :
  instance_key f = Raise e <-> key_failure (snd f) e.
Proof.
  unfold instance_key. destruct (snd f) as [|ds|entries]; simpl.
  - split.
    + intros H; inversion H. constructor.
    + intros H; now inversion H.
  - destruct (InstanceNumber ds) as [[|n|a b more]|] eqn:E; simpl; split;
      intros H; inversion H; subst; try congruence;
      eauto using key_absent, key_empty, key_multi_valued.
  - split.
    + intros H; inversion H. constructor.
    + intros H; now inversion H.
Qed.

Lemma readable_or_failure f :
  readable f \/ exists e, key_failure (snd f) e.
Proof.
  destruct (instance_key f) as [k|e] eqn:E.
  - left. now apply instance_key_number in E.
  - right. exists e. now apply instance_key_failure.
Qed.

Lemma readable_key f : readable f -> exists k, instance_key f = Ok k.
Proof.
  intros (ds & n & Hd & Hn). exists n. apply instance_key_Ok. eauto.
Qed.

Lemma first_unreadable (l : list (string * entry)) :
  (exists f, In f l /\ ~ readable f) ->
  exists pre f post e,
    l = pre ++ f :: post /\ Forall readable pre /\ ~ readable f /\
    key_failure (snd f) e.
Proof.
  induction l as [|g l IH]; intros (f & Hin & Hf); [destruct Hin|].
  destruct (readable_or_failure g) as [Hg|[e He]].
  - destruct IH as (pre & f' & post & e & -> & Hpre & Hf' & He).
    + destruct Hin as [->|Hin]; [contradiction | eauto].
    + exists (g :: pre), f', post, e. repeat split; auto.
  - exists [], g, l, e. repeat split; auto.
    intros Hr. apply readable_key in Hr. destruct Hr as [k Hk].
    apply instance_key_failure in He. congruence.
Qed.

Lemma sort_keys_first_failure {A} (key : A -> result Z) pre f post e :
  Forall (fun x => exists k, key x = Ok k) pre ->
  key f = Raise e ->
  sort_keys key (pre ++ f :: post) = Raise e.
Proof.
  induction 1 as [|x pre [k Hk] _ IH]; intros Hf; simpl.
  - now rewrite Hf.
  - rewrite Hk. simpl. now rewrite IH.
Qed.

(** Where [find_t1_series] passes over a '.dcm' file that is not DICOM,
    [load_dicom_series] does not.  When some '.dcm' entry of the listing
    is not a file that parses and carries one InstanceNumber, the sort of
    line 37 raises at the first such entry in listing order: the
    exception of [dcmread] for a file it cannot read (InvalidDicomError
    when the file is not DICOM), IsADirectoryError for a directory, AttributeError for a data set without InstanceNumber,
    TypeError for an InstanceNumber that is empty or has several values.
    The load raises that exception before any volume is built, and
    [create_mri_visualization] logs it and raises it again. *)
Theorem load_dicom_series_unreadable_file
    (path : string) (d : directory) (l : log) :
  (exists f, In f (listed_dicom_files d) /\ ~ readable f) ->
  exists pre f post e,
    listed_dicom_files d = pre ++ f :: post /\
    Forall readable pre /\
    ~ readable f /\
    key_failure (snd f) e /\
    sorted_dicom_files d = Raise e /\
    load_dicom_series path d l =
      (Raise e, l ++ [INFO (Loading_DICOM_series_from path)]) /\
    create_mri_visualization path d l =
      (Raise e, l ++ [INFO (Loading_DICOM_series_from path);
                      ERROR (Failed_to_create_visualization e)]).
Proof.
  intros H. destruct (first_unreadable _ H) as (pre & f & post & e & E & Hpre & Hf & He).
  exists pre, f, post, e.
  assert (Hsort : sorted_dicom_files d = Raise e).
  { unfold sorted_dicom_files, list_sort. cbv zeta. rewrite E.
    rewrite (sort_keys_first_failure instance_key pre f post e);
      [reflexivity | | now apply instance_key_failure].
    eapply Forall_impl; [|exact Hpre]. apply readable_key. }
  assert (Hload : load_dicom_series path d l =
                  (Raise e, l ++ [INFO (Loading_DICOM_series_from path)])).
  { apply load_dicom_series_raises. unfold stack_dicom_series.
    now rewrite Hsort. }
  repeat split; auto. now apply create_raises.
Qed.

Lemma load_dicom_series_unreadable_file_witness :
  let d := [("a.dcm", Sample.slice 1 2 2 (Sample.ramp 2 1));
            ("old.dcm", Dir []);
            ("broken.dcm", NotDicom)] in
  exists pre f post e,
    listed_dicom_files d = pre ++ f :: post /\
    Forall readable pre /\
    ~ readable f /\
    key_failure (snd f) e /\
    sorted_dicom_files d = Raise e /\
    load_dicom_series "scans" d [] =
      (Raise e, [] ++ [INFO (Loading_DICOM_series_from "scans")]) /\
    create_mri_visualization "scans" d [] =
      (Raise e, [] ++ [INFO (Loading_DICOM_series_from "scans");
                       ERROR (Failed_to_create_visualization e)]).
Proof.
  intros d. apply (load_dicom_series_unreadable_file "scans" d []).
  exists ("broken.dcm"%string, NotDicom). split.
  - simpl. auto.
  - intros (ds & n & H & _). discriminate.
Defined.

(** ** Slices of another size *)

Lemma stack_loop_mismatch pre : forall i v ds0 R C N f post ds a,
  shape3 v = (R, C, N) ->
  (i + List.length (pre ++ f :: post) <= N)%nat ->
  Forall decodes pre ->
  snd f = Dicom ds ->
  pixel_array ds = Ok a ->
  broadcastable (fst (shape2 a)) R && broadcastable (snd (shape2 a)) C = false ->
  stack_loop (pre ++ f :: post) i (v, ds0) = Raise ValueError.
Proof.
  induction pre as [|g pre IH]; intros i v ds0 R C N f post ds a Hs Hlen Hpre
    Hd Ha Hb.
  - cbn [app stack_loop]. rewrite Hd. cbn [dcmread rbind]. rewrite Ha.
    cbn [rbind fst]. unfold setitem_z. rewrite Hs.
    cbn [astype_float32 shape2]. destruct (shape2 a) as [r c].
    cbn [fst snd] in Hb. simpl in Hlen.
    replace (i <? N)%nat with true by (symmetry; apply Nat.ltb_lt; lia).
    now rewrite Hb.
  - inversion Hpre as [|? ? (dg & ag & Hdg & Hag) Hpre']; subst.
    cbn [app stack_loop]. rewrite Hdg. cbn [dcmread rbind]. rewrite Hag.
    cbn [rbind fst]. unfold setitem_z. rewrite Hs.
    cbn [astype_float32 shape2]. destruct (shape2 ag) as [r c].
    simpl in Hlen.
    replace (i <? N)%nat with true by (symmetry; apply Nat.ltb_lt; lia).
    destruct (broadcastable r R && broadcastable c C); [|reflexivity].
    cbn [rbind].
    apply (IH (S i) _ dg R C N f post ds a); auto. lia.
Qed.

(** A file whose pixel array neither has nor broadcasts to the Rows x
    Columns of the first file in sorted order stops the load: when the
    pixel arrays of the files before it decode, the assignment
    [volume[:, :, i] = ...] raises ValueError at that file or earlier,
    whatever the files after it are. *)
Theorem load_dicom_series_shape_mismatch
    (path : string) (d : directory) (l : log)
    (first : string * entry) (rest pre post : list (string * entry))
    (f : string * entry) (ds0 ds : dataset) (a : ndarray2 Z) (R C : nat) :
  sorted_dicom_files d = Ok (first :: rest) ->
  snd first = Dicom ds0 ->
  Rows ds0 = Some (Single R) ->
  Columns ds0 = Some (Single C) ->
  rest = pre ++ f :: post ->
  Forall decodes (first :: pre) ->
  snd f = Dicom ds ->
  pixel_array ds = Ok a ->
  broadcastable (fst (shape2 a)) R && broadcastable (snd (shape2 a)) C = false ->
  load_dicom_series path d l =
    (Raise ValueError, l ++ [INFO (Loading_DICOM_series_from path)]) /\
  create_mri_visualization path d l =
    (Raise ValueError,
     l ++ [INFO (Loading_DICOM_series_from path);
           ERROR (Failed_to_create_visualization ValueError)]).
Proof.
  intros Hsort Hd HR HC -> Hdec Hf Ha Hb.
  assert (Hload : load_dicom_series path d l =
            (Raise ValueError, l ++ [INFO (Loading_DICOM_series_from path)])).
  { apply load_dicom_series_raises.
    rewrite (stack_dicom_series_unfold d first _ ds0 R C Hsort Hd HR HC).
    rewrite (stack_loop_mismatch (first :: pre) 0 _ ds0 R C
               (List.length (first :: pre ++ f :: post)) f post ds a);
      auto. }
  split; [exact Hload | now apply create_raises].
Qed.

Lemma load_dicom_series_shape_mismatch_witness :
  load_dicom_series "scans" Sample.mismatched [] =
    (Raise ValueError, [] ++ [INFO (Loading_DICOM_series_from "scans")]) /\
  create_mri_visualization "scans" Sample.mismatched [] =
    (Raise ValueError,
     [] ++ [INFO (Loading_DICOM_series_from "scans");
            ERROR (Failed_to_create_visualization ValueError)]).
Proof.
  eapply (load_dicom_series_shape_mismatch "scans" Sample.mismatched []
            _ _ [] [] ("b.dcm"%string, Sample.slice 2 3 3 (Sample.ramp 3 1))).
  - reflexivity.
  - reflexivity.
  - reflexivity.
  - reflexivity.
  - reflexivity.
  - repeat constructor. eexists _, _. split; reflexivity.
  - reflexivity.
  - reflexivity.
  - reflexivity.
Defined.

(** ** Where find_t1_series looks *)

Lemma startswith_refl s : PyStr.startswith s s = true.
Proof.
  induction s as [|c s IH]; simpl; [reflexivity|].
  now rewrite Ascii.eqb_refl.
Qed.

Lemma startswith_app s t : PyStr.startswith (s ++ t) s = true.
Proof.
  induction s as [|c s IH]; simpl; [now destruct t|].
  now rewrite Ascii.eqb_refl.
Qed.

Lemma startswith_trans s p q :
  PyStr.startswith s p = true -> PyStr.startswith p q = true ->
  PyStr.startswith s q = true.
Proof.
  revert s p; induction q as [|c q IH]; intros s p Hsp Hpq;
    [now destruct s|].
  destruct p as [|b p]; [discriminate|].
  destruct s as [|a s]; [discriminate|].
  simpl in *. apply andb_true_iff in Hsp, Hpq.
  destruct Hsp as [Hba Hsp], Hpq as [Hcb Hpq].
  apply Ascii.eqb_eq in Hba, Hcb. subst.
  rewrite Ascii.eqb_refl. simpl. eauto.
Qed.

Lemma path_join_relative (a b : string) :
  PyStr.startswith b "/" = false ->
  PyStr.startswith (PyStr.path_join a b) a = true.
Proof.
  intros H. unfold PyStr.path_join. rewrite H.
  destruct (String.eqb a "" || PyStr.endswith a "/"); apply startswith_app.
Qed.

Lemma walk_roots : forall e top t,
  relative_names e = true ->
  In t (walk top e) -> PyStr.startswith (fst (fst t)) top = true.
Proof.
  fix IH 1. intros [| ds | entries] top t Hrel Hin; simpl in Hin;
    try contradiction.
  destruct Hin as [<-|Hin]; [apply startswith_refl|].
  cbn [relative_names] in Hrel.
  induction entries as [|[n sd] entries IHs]; simpl in Hin; [destruct Hin|].
  cbn [forallb fst snd] in Hrel. apply andb_true_iff in Hrel.
  destruct Hrel as [Hn Hrest]. apply andb_true_iff in Hn.
  destruct Hn as [Hn Hsd]. apply negb_true_iff in Hn.
  apply in_app_or in Hin. destruct Hin as [Hin|Hin]; [|now apply IHs].
  apply (IH sd _ t Hsd) in Hin.
  apply (startswith_trans _ _ _ Hin). now apply path_join_relative.
Qed.

Lemma scan_outcome_found es root :
  scan_outcome es = Ok (Some root) ->
  exists f, In (root, f) es /\ verdict_of f = Found.
Proof.
  induction es as [|[r f] es IH]; simpl; [discriminate|].
  destruct (verdict_of f) eqn:E; try discriminate.
  - intros H. destruct (IH H) as (g & Hg & Hv). eauto.
  - intros H. destruct (IH H) as (g & Hg & Hv). eauto.
  - intros H. inversion H; subst. eauto.
Qed.

Lemma walk_entries_top path d :
  walk_entries (os_walk path d) =
  map (pair path) (filter (fun p => negb (is_dir (snd p))) d) ++
  walk_entries (flat_map (fun p => walk (PyStr.path_join path (fst p)) (snd p)) d).
Proof.
  reflexivity.
Qed.

(** The search stays inside the directory it was given and serves its own
    files first.  When no name below the directory starts with a
    separator, a root that [find_t1_series] returns starts with the path
    it was called on and is the root of a directory of the walk that holds
    a T1 file.  And when the directory itself holds a T1 file, with no
    file that stops the search among its own files before it, the path
    itself is returned, whatever its subdirectories contain. *)
Theorem find_t1_series_stays_inside
    (path : string) (d : directory) (l : log) :
  (forall root l',
      relative_names (Dir d) = true ->
      find_t1_series path d l = (Ok (Some root), l') ->
      PyStr.startswith root path = true /\
      exists dirnames files f,
        In (root, dirnames, files) (os_walk path d) /\
        In f files /\ t1_file f) /\
  (forall pre f post,
      filter (fun p => negb (is_dir (snd p))) d = pre ++ f :: post ->
      Forall (fun g => ~ t1_file g /\ forall x, ~ stopping_file g x) pre ->
      t1_file f ->
      exists l', find_t1_series path d l = (Ok (Some path), l')).
Proof.
  split.
  - intros root l' Hrel. rewrite find_t1_series_spec. cbv zeta. intros H.
    assert (Hroot : scan_outcome (walk_entries (os_walk path d)) = Ok (Some root))
      by congruence.
    clear H. apply scan_outcome_found in Hroot. destruct Hroot as (f & Hin & Hv).
    apply walk_entries_files in Hin. destruct Hin as (t & Ht & Hr & Hf).
    cbn [fst snd] in Hr, Hf. split.
    + rewrite <- Hr. now apply (walk_roots (Dir d)).
    + destruct t as [[r dirnames] files]. cbn [fst snd] in *. subst r.
      exists dirnames, files, f. split; [exact Ht|]. split; [exact Hf|].
      now apply verdict_found.
  - intros pre f post E Hpre Hf.
    rewrite find_t1_series_spec. cbv zeta.
    set (below := walk_entries
                    (flat_map (fun p => walk (PyStr.path_join path (fst p)) (snd p)) d)).
    assert (Hes : walk_entries (os_walk path d) =
                  map (pair path) pre ++ (path, f) :: (map (pair path) post ++ below)).
    { rewrite walk_entries_top, E, map_app. cbn [map].
      now rewrite <- app_assoc. }
    assert (Hgo : Forall goes_on (map (pair path) pre)).
    { apply (passed_over_all_go_on path d).
      - intros e He. rewrite Hes. apply in_or_app. now left.
      - apply Forall_map. eapply Forall_impl; [|exact Hpre].
        intros g Hg. exact Hg. }
    rewrite Hes.
    destruct (scan_first (map (pair path) pre) path f
                (map (pair path) post ++ below) Hgo) as [Ho _].
    apply verdict_found in Hf. rewrite Hf in Ho. rewrite Ho. eauto.
Qed.

Lemma find_t1_series_stays_inside_witness :
  let d := [("deep", Dir [("d.dcm", Sample.slice 1 1 1 (Sample.ramp 1 0))]);
            ("notes.txt", NotDicom);
            ("top.dcm", Sample.slice 1 1 1 (Sample.ramp 1 0))] in
  (exists root l',
     find_t1_series "scans/" d [] = (Ok (Some root), l') /\
     PyStr.startswith root "scans/" = true) /\
  exists l', find_t1_series "scans/" d [] = (Ok (Some "scans/"), l').
Proof.
  intros d. destruct (find_t1_series_stays_inside "scans/" d []) as [H1 H2].
  split.
  - eexists; eexists. split; [reflexivity|].
    apply (H1 _ _ eq_refl eq_refl).
  - apply (H2 [("notes.txt"%string, NotDicom)]
              ("top.dcm"%string, Sample.slice 1 1 1 (Sample.ramp 1 0)) []).
    + reflexivity.
    + apply Forall_cons; [|constructor]. split.
      * intros (_ & ds & text & H & _). discriminate H.
      * intros x [_ [[_ (ds & a & b & more & H & _)] | [H Hne]]].
        -- discriminate H.
        -- apply Hne. simpl in H. now inversion H.
    + apply (sample_slice_is_t1 "top").
Defined.

(** ** The order of the listing *)

Lemma sorted_permutation_unique (l1 : list (string * entry)) : forall l2,
  StronglySorted instance_le l1 ->
  StronglySorted instance_le l2 ->
  Permutation l1 l2 ->
  NoDup (map instance_number l1) ->
  l1 = l2.
Proof.
  induction l1 as [|a l1 IH]; intros l2 H1 H2 Hp Hnd.
  - apply Permutation_nil in Hp. now subst.
  - destruct l2 as [|b l2].
    { apply Permutation_sym, Permutation_nil in Hp. discriminate. }
    inversion H1 as [|? ? H1' Ha]; subst.
    inversion H2 as [|? ? H2' Hb]; subst.
    inversion Hnd as [|? ? Hna Hnd']; subst.
    rewrite Forall_forall in Ha, Hb.
    assert (Hab : a = b).
    { assert (Hin_b : In b (a :: l1)).
      { apply (Permutation_in _ (Permutation_sym Hp)). now left. }
      destruct Hin_b as [E|Hb1]; [exact E|].
      assert (Hin_a : In a (b :: l2)).
      { apply (Permutation_in _ Hp). now left. }
      destruct Hin_a as [E|Ha2]; [now symmetry|].
      exfalso. apply Hna.
      specialize (Ha b Hb1). specialize (Hb a Ha2).
      unfold instance_le in *.
      replace (instance_number a) with (instance_number b) by lia.
      now apply in_map. }
    subst b. f_equal.
    apply IH; auto. now apply Permutation_cons_inv in Hp.
Qed.

(** [os.listdir] returns the entries in an arbitrary order; when the
    '.dcm' files are readable and their InstanceNumbers are pairwise
    distinct, that order has no influence: two listings of the same files
    give the same sorted list, and [load_dicom_series] has the same outcome
    and log. *)
Theorem load_dicom_series_listing_order
    (path : string) (d1 d2 : directory) (l : log) :
  Permutation (listed_dicom_files d1) (listed_dicom_files d2) ->
  Forall readable (listed_dicom_files d1) ->
  NoDup (map instance_number (listed_dicom_files d1)) ->
  sorted_dicom_files d1 = sorted_dicom_files d2 /\
  load_dicom_series path d1 l = load_dicom_series path d2 l.
Proof.
  intros Hp Hr Hnd.
  assert (Hr2 : Forall readable (listed_dicom_files d2))
    by exact (Permutation_Forall Hp Hr).
  destruct (sorted_dicom_files_total d1 Hr) as [f1 E1].
  destruct (sorted_dicom_files_total d2 Hr2) as [f2 E2].
  destruct (sorted_dicom_files_spec _ _ E1) as (P1 & _ & S1 & _).
  destruct (sorted_dicom_files_spec _ _ E2) as (P2 & _ & S2 & _).
  assert (E : f1 = f2).
  { apply sorted_permutation_unique; auto.
    - rewrite P1, Hp. now symmetry.
    - apply (Permutation_NoDup (l := map instance_number (listed_dicom_files d1)));
        [|exact Hnd].
      apply Permutation_map. now symmetry. }
  subst f2. split; [congruence|].
  unfold load_dicom_series, bind, logging, lift, stack_dicom_series.
  now rewrite E1, E2.
Qed.

Lemma load_dicom_series_listing_order_witness :
  let d2 := [("B.DCM", Sample.slice 1 2 2 (Sample.ramp 2 10));
             ("a.dcm", Sample.slice 2 2 2 (Sample.ramp 2 1))] in
  sorted_dicom_files Sample.square = sorted_dicom_files d2 /\
  load_dicom_series "scans" Sample.square [] = load_dicom_series "scans" d2 [].
Proof.
  intros d2. apply load_dicom_series_listing_order.
  - apply perm_swap.
  - repeat constructor; apply sample_readable.
  - simpl. repeat constructor; simpl; intuition discriminate.
Defined.

(** ** The parameters stay valid *)

Lemma set_parameter_valid e self self' :
  valid_parameters self ->
  set_parameter e self = Ok self' ->
  valid_parameters self'.
Proof.
  intros [Hb Ha]. destruct e as [v|a]; simpl.
  - unfold validate_slice_index.
    destruct (in_bounds (slice_index_bounds self) v) eqn:E; simpl;
      [|discriminate].
    intros H; inversion H; subst. split; assumption.
  - destruct (validate_view_axis a) as [a'|x] eqn:E; simpl; [|discriminate].
    apply validate_view_axis_Ok in E. destruct E as [-> Hin].
    intros H; inversion H; subst. split; assumption.
Qed.

Lemma run_valid deps es : forall s,
  valid_parameters (instance s) ->
  valid_parameters (instance (run deps s es)).
Proof.
  induction es as [|e es IH]; intros s H; simpl; [exact H|].
  apply IH. rewrite step_instance.
  destruct (set_parameter e (instance s)) as [self'|x] eqn:E; [|exact H].
  eapply set_parameter_valid; eauto.
Qed.

Lemma init_loaded_shape path d ps l self l' :
  init path d ps l = (Ok self, l') ->
  exists R C N, shape3 (volume self) = (R, C, S N).
Proof.
  intros H. destruct (init_inv _ _ _ _ _ _ H) as [Hload _].
  apply load_dicom_series_inv in Hload.
  destruct Hload as (_ & files & raw & final & Hstack & Hnorm & _).
  apply stack_dicom_series_inv in Hstack.
  destruct Hstack as (_ & first & ds0 & rest & R & C & -> & _ & _ & _ & Hshape & _).
  rewrite (normalize_shape _ _ Hnorm), Hshape. simpl. eauto.
Qed.

(** Behind the served page the two parameters never hold a value that
    their widgets could not show: starting from the instance that
    [create_mri_visualization] builds, after any sequence of widget events
    (accepted or rejected) [slice_index] lies within the bounds set by
    [__init__] and [view_axis] is one of 'x', 'y', 'z'; and whenever the
    axis is 'z' the page shows a rendered slice, not an error. *)
Theorem widgets_keep_parameters_valid
    (path : string) (d : directory) (l l' : log)
    (self : MRIVisualization) (plt : pyplot) (es : list event) :
  init path d no_params l = (Ok self, l') ->
  let s := run view_depends (serve self plt) es in
  valid_parameters (instance s) /\
  slice_index_bounds (instance s) = slice_index_bounds self /\
  (view_axis (instance s) = "z"%string ->
     exists img, displayed s = Ok (pane_of img)).
Proof.
  intros Hinit s.
  destruct (init_loaded_shape _ _ _ _ _ _ Hinit) as (R & C & N & Hshape).
  destruct (init_inv _ _ _ _ _ _ Hinit) as [_ Hb].
  rewrite Hshape in Hb. cbn [snd] in Hb.
  assert (H0 : valid_parameters self).
  { rewrite init_no_params in Hinit.
    destruct (load_dicom_series path d l) as [[[vol sp]|e] l0];
      [|discriminate].
    inversion Hinit; subst; clear Hinit. cbn [volume] in Hshape.
    unfold valid_parameters. cbn [slice_index slice_index_bounds view_axis].
    rewrite Hshape. cbn [snd]. split.
    - apply in_bounds_spec. unfold default_slice_index. lia.
    - unfold default_view_axis, view_axis_objects. simpl. auto. }
  assert (H0' : valid_parameters (instance (serve self plt)))
    by now rewrite serve_instance.
  pose proof (run_valid view_depends es (serve self plt) H0') as Hv.
  destruct (run_keeps view_depends es (serve self plt)) as [Hkb Hkv].
  fold s in Hv, Hkb, Hkv. rewrite serve_instance in Hkb, Hkv.
  split; [exact Hv|]. split; [exact Hkb|].
  intros Hz.
  assert (Hd : up_to_date s).
  { apply run_up_to_date, serve_up_to_date. }
  unfold up_to_date in Hd. rewrite Hd, (selected_z _ Hz).
  unfold getitem_z. rewrite Hkv, Hshape.
  destruct Hv as [Hin _]. rewrite Hkb, Hb in Hin.
  apply in_bounds_spec in Hin.
  rewrite py_index_inside by lia. cbn [rbind]. eauto.
Qed.

Lemma widgets_keep_parameters_valid_witness :
  exists self l',
    init "scans" Sample.thin no_params [] = (Ok self, l') /\
    let s := run view_depends (serve self [])
                 [Set_slice_index 1; Set_slice_index 2; Set_view_axis "w";
                  Set_view_axis "x"; Set_view_axis "z"] in
    valid_parameters (instance s) /\
    slice_index_bounds (instance s) = slice_index_bounds self /\
    (view_axis (instance s) = "z"%string ->
       exists img, displayed s = Ok (pane_of img)).
Proof.
  destruct thin_loads as (self & l' & E & _).
  exists self, l'. split; [exact E|].
  exact (widgets_keep_parameters_valid "scans" Sample.thin [] l' self [] _ E).
Defined.

(** ** A series without contrast *)

Lemma normalize_constant raw vol q R C N :
  shape3 raw = (R, C, N) ->
  (forall x y z, (x < R)%nat -> (y < C)%nat -> (z < N)%nat ->
                 at3 raw x y z = Finite q) ->
  normalize raw = Ok vol ->
  forall x y z, (x < R)%nat -> (y < C)%nat -> (z < N)%nat ->
                at3 vol x y z = NaN.
Proof.
  intros Hs Hconst Hnorm x y z Hx Hy Hz.
  assert (Hall : forall b, In b (voxels raw) -> b = Finite q).
  { intros b Hb. destruct (voxels_inv raw _ _ _ b Hs Hb)
      as (x' & y' & z' & Hx' & Hy' & Hz' & ->). now apply Hconst. }
  apply normalize_inv in Hnorm. destruct Hnorm as (lo & hi & Hlo & Hhi & ->).
  unfold np_min in Hlo. unfold np_max in Hhi.
  destruct (voxels raw) as [|a vs]; [discriminate|].
  pose proof (Hall a (or_introl eq_refl)) as Ha. subst a.
  rewrite fold_minimum_constant in Hlo by (intros; apply Hall; now right).
  rewrite fold_maximum_constant in Hhi by (intros; apply Hall; now right).
  inversion Hlo; subst lo. inversion Hhi; subst hi.
  cbn [np_div_scalar np_sub_scalar at3].
  rewrite (Hconst x y z Hx Hy Hz), sub_self. reflexivity.
Qed.

(** A series of slice images whose samples all have the same value is
    loaded without any exception, but it has no contrast to normalize:
    minimum and maximum coincide, every voxel becomes 0 / 0, and each
    voxel of the returned volume is NaN. *)
Theorem load_dicom_series_constant_samples
    (path : string) (d : directory) (l : log) (c : Z) :
  listed_dicom_files d <> [] ->
  Forall slice_image (listed_dicom_files d) ->
  broadcast_compatible d ->
  (forall f ds a x y,
      In f (listed_dicom_files d) -> snd f = Dicom ds ->
      pixel_array ds = Ok a -> at2 a x y = c) ->
  exists vol sp R C,
    load_dicom_series path d l =
      (Ok (vol, sp), l ++ [INFO (Loading_DICOM_series_from path)]) /\
    shape3 vol = (R, C, List.length (listed_dicom_files d)) /\
    (1 <= R)%nat /\ (1 <= C)%nat /\
    forall x y z,
      (x < R)%nat -> (y < C)%nat ->
      (z < List.length (listed_dicom_files d))%nat ->
      at3 vol x y z = NaN.
Proof.
  intros Hne Himg Hcompat Hconst.
  destruct (series_loads path d l Hne Himg Hcompat)
    as (vol & sp & first & rest & ds0 & R & C & raw & final & Hsort & Hperm
        & Hd0 & HR & HC & Hstack & Hshape & Hvol & Hsp & Hload).
  assert (Hfirst : slice_image first).
  { rewrite Forall_forall in Himg. apply Himg.
    apply (Permutation_in _ Hperm). now left. }
  destruct (slice_image_extent first ds0 R C Hfirst Hd0 HR HC) as [HR1 HC1].
  exists vol, sp, R, C. split; [exact Hload|].
  split; [now rewrite (normalize_shape _ _ Hvol)|].
  split; [exact HR1|]. split; [exact HC1|].
  apply (normalize_constant raw vol (round (inject_Z c)) _ _ _ Hshape);
    [|exact Hvol].
  intros x y z Hx Hy Hz.
  destruct (stack_dicom_series_inv _ _ _ _ Hstack)
    as (_ & first' & ds0' & rest' & R' & C' & _ & _ & _ & _ & _ & Hk & _).
  destruct (nth_error (first :: rest) z) as [f|] eqn:Ef.
  - destruct (Hk z f Ef) as (ds & a & Hd & Ha & _ & _ & Hat).
    rewrite Hat. unfold broadcast_sample.
    rewrite (Hconst f ds a _ _); [reflexivity | | exact Hd | exact Ha].
    apply (Permutation_in _ Hperm). eapply nth_error_In; eauto.
  - apply nth_error_None in Ef. rewrite (Permutation_length Hperm) in Ef. lia.
Qed.

Lemma flat_is_a_series :
  listed_dicom_files Sample.flat <> [] /\
  Forall slice_image (listed_dicom_files Sample.flat) /\
  broadcast_compatible Sample.flat.
Proof.
  split; [discriminate|]. split.
  - repeat constructor; apply sample_slice_image; lia.
  - intros first rest ds0 R C Hsort Hd HR HC.
    assert (E : sorted_dicom_files Sample.flat =
                Ok [("a.dcm"%string, Sample.slice 1 2 2 (fun _ _ => 4%Z));
                    ("b.dcm"%string, Sample.slice 2 2 2 (fun _ _ => 4%Z))])
      by reflexivity.
    rewrite E in Hsort.
    inversion Hsort; subst. simpl in Hd. inversion Hd; subst.
    simpl in HR, HC. inversion HR; inversion HC; subst.
    repeat constructor; apply sample_fits.
Qed.

Lemma load_dicom_series_constant_samples_witness :
  exists vol sp R C,
    load_dicom_series "scans" Sample.flat [] =
      (Ok (vol, sp), [] ++ [INFO (Loading_DICOM_series_from "scans")]) /\
    shape3 vol = (R, C, 2%nat) /\
    (1 <= R)%nat /\ (1 <= C)%nat /\
    forall x y z, (x < R)%nat -> (y < C)%nat -> (z < 2)%nat ->
                  at3 vol x y z = NaN.
Proof.
  destruct flat_is_a_series as (H1 & H2 & H3).
  apply (load_dicom_series_constant_samples "scans" Sample.flat [] 4 H1 H2 H3).
  intros f ds a x y Hin Hd Ha. simpl in Hin.
  destruct Hin as [<-|[<-|[]]]; simpl in Hd; inversion Hd; subst;
    simpl in Ha; inversion Ha; reflexivity.
Defined.

(** ** Samples that float32 holds exactly *)

(** The conversion [astype(np.float32)] of line 46 loses nothing on
    samples of at most 24 bits: when the volume is stacked, a voxel of
    slice k whose sample in the k-th sorted file has magnitude at most
    2^24 holds exactly that sample.  The bound is tight: the sample
    2^24 + 1 is stored as 2^24. *)
Theorem stacked_samples_exact
    (d : directory) (files : list (string * entry)) (raw : ndarray3 f32)
    (final : dataset) (k : nat) (f : string * entry) (ds : dataset)
    (a : ndarray2 Z) (x y : nat) :
  stack_dicom_series d = Ok (files, raw, final) ->
  nth_error files k = Some f ->
  snd f = Dicom ds ->
  pixel_array ds = Ok a ->
  (Z.abs (broadcast_sample a x y) <= 16777216)%Z ->
  (exists q, at3 raw x y k = Finite q /\
             q == inject_Z (broadcast_sample a x y)) /\
  (exists q, of_Z 16777217 = Finite q /\ q == 16777216).
Proof.
  intros Hstack Hk Hd Ha Hb. split.
  - destruct (stack_dicom_series_inv _ _ _ _ Hstack)
      as (_ & first & ds0 & rest & R & C & _ & _ & _ & _ & _ & Hat & _).
    destruct (Hat k f Hk) as (ds' & a' & Hd' & Ha' & _ & _ & Hv).
    rewrite Hd in Hd'. inversion Hd'; subst ds'.
    rewrite Ha in Ha'. inversion Ha'; subst a'.
    rewrite Hv. apply of_Z_exact. exact Hb.
  - eexists. split; [reflexivity|]. vm_compute. reflexivity.
Qed.

Lemma stacked_samples_exact_witness :
  exists files raw final q,
    stack_dicom_series Sample.square = Ok (files, raw, final) /\
    at3 raw 1 1 1 = Finite q /\ q == 4.
Proof.
  assert (E : exists files raw final,
            stack_dicom_series Sample.square = Ok (files, raw, final) /\
            nth_error files 1 =
              Some ("a.dcm"%string, Sample.slice 2 2 2 (Sample.ramp 2 1))).
  { do 3 eexists. split; reflexivity. }
  destruct E as (files & raw & final & Hstack & Hk).
  destruct (stacked_samples_exact Sample.square files raw final 1 _ _ _ 1 1
              Hstack Hk eq_refl eq_refl) as [(q & Hq & Hv) _].
  - vm_compute. discriminate.
  - exists files, raw, final, q. split; [exact Hstack|].
    split; [exact Hq | exact Hv].
Defined.

(** ** The script *)

Lemma load_log_frame path d l :
  load_dicom_series path d l =
  (fst (load_dicom_series path d []), l ++ snd (load_dicom_series path d [])).
Proof.
  unfold load_dicom_series, bind, logging, lift. reflexivity.
Qed.

Lemma create_log_frame path d l :
  create_mri_visualization path d l =
  (fst (create_mri_visualization path d []),
   l ++ snd (create_mri_visualization path d [])).
Proof.
  rewrite !create_outcome. rewrite (load_log_frame path d l).
  destruct (load_dicom_series path d []) as [[[vol sp]|e] k]; cbn [fst snd].
  - reflexivity.
  - now rewrite app_assoc.
Qed.

Lemma find_log_frame path d l :
  find_t1_series path d l =
  (fst (find_t1_series path d []), l ++ snd (find_t1_series path d [])).
Proof.
  rewrite !find_t1_series_spec. reflexivity.
Qed.

Lemma scan_outcome_raises es e :
  scan_outcome es = Raise e ->
  exists root f, In (root, f) es /\ verdict_of f = Stops e.
Proof.
  induction es as [|[r f] es IH]; simpl; [discriminate|].
  destruct (verdict_of f) eqn:E; try discriminate.
  - intros H. destruct (IH H) as (r' & g & Hg & Hv). eauto.
  - intros H. destruct (IH H) as (r' & g & Hg & Hv). eauto.
  - intros H. inversion H; subst. eauto.
Qed.

Lemma scan_log_records es r :
  In r (scan_log es) ->
  (exists filepath, r = WARNING (Invalid_DICOM_file filepath)) \/
  (exists root, r = INFO (T1_series_found_at root)).
Proof.
  induction es as [|[root f] es IH]; simpl; [contradiction|].
  destruct (verdict_of f); simpl; intros H.
  - auto.
  - destruct H as [<-|H]; eauto.
  - destruct H as [<-|[]]. eauto.
  - contradiction.
Qed.

(** Run as a script, the module searches for a T1 series and then builds
    the visualization of the same directory.  When the search returns,
    what it found is dropped: the outcome is the panel or the exception of
    [create_mri_visualization] alone, and the log is what was there, then
    the records of the search, then those of the visualization.  When the
    search raises, which it does at a '.dcm' file whose SeriesDescription
    has several values (AttributeError) or whose reading raises an
    exception other than InvalidDicomError, the script ends with that
    exception before the series is loaded: its log holds no record of a
    load. *)
Theorem main_outcome (d : directory) (l : log) :
  let dicom_directory := "dicom/SER00002"%string in
  (forall found ls,
      find_t1_series dicom_directory d [] = (Ok found, ls) ->
      main d l =
        (fst (create_mri_visualization dicom_directory d []),
         l ++ ls ++ snd (create_mri_visualization dicom_directory d []))) /\
  (forall e ls,
      find_t1_series dicom_directory d [] = (Raise e, ls) ->
      (exists root f,
          In (root, f) (walk_entries (os_walk dicom_directory d)) /\
          stopping_file f e) /\
      main d l = (Raise e, l ++ ls) /\
      forall path, ~ In (INFO (Loading_DICOM_series_from path)) ls).
Proof.
  intros p. split.
  - intros found ls H. unfold main. cbv zeta. fold p. unfold bind at 1.
    rewrite (find_log_frame p d l), H. cbn [fst snd].
    unfold bind. rewrite create_log_frame.
    destruct (create_mri_visualization p d []) as [[v|e] k];
      cbn [fst snd]; unfold ret; now rewrite <- app_assoc.
  - intros e ls H.
    assert (Hmain : main d l = (Raise e, l ++ ls)).
    { unfold main. cbv zeta. fold p. unfold bind at 1.
      now rewrite (find_log_frame p d l), H. }
    rewrite find_t1_series_spec in H. cbv zeta in H.
    remember (walk_entries (os_walk p d)) as es eqn:Ees.
    assert (Hs : scan_outcome es = Raise e) by congruence.
    rewrite Hs in H. cbn [app] in H. rewrite app_nil_r in H.
    assert (Hls : ls = INFO Searching_for_T1_series :: scan_log es)
      by congruence.
    split; [|split; [exact Hmain|]].
    + apply scan_outcome_raises in Hs. destruct Hs as (root & f & Hin & Hv).
      exists root, f. subst es. split; [exact Hin|].
      apply (verdict_stops f e); [|exact Hv].
      exact (os_walk_entries_files p d (root, f) Hin).
    + intros path Hin. subst ls.
      destruct Hin as [Hin|Hin]; [discriminate|].
      apply scan_log_records in Hin.
      destruct Hin as [[x Hx]|[x Hx]]; discriminate.
Qed.

Lemma main_outcome_witness :
  (main Sample.two_descriptions [] =
     (Raise AttributeError, [] ++ [INFO Searching_for_T1_series]) /\
   forall path,
     ~ In (INFO (Loading_DICOM_series_from path))
          [INFO Searching_for_T1_series]) /\
  main Sample.square [] =
    (fst (create_mri_visualization "dicom/SER00002" Sample.square []),
     [] ++ [INFO Searching_for_T1_series;
            INFO (T1_series_found_at "dicom/SER00002")] ++
           snd (create_mri_visualization "dicom/SER00002" Sample.square [])).
Proof.
  split.
  - destruct (proj2 (main_outcome Sample.two_descriptions [])
                AttributeError [INFO Searching_for_T1_series] eq_refl)
      as (_ & H1 & H2).
    split; [exact H1 | exact H2].
  - exact (proj1 (main_outcome Sample.square [])
             (Some "dicom/SER00002"%string)
             [INFO Searching_for_T1_series;
              INFO (T1_series_found_at "dicom/SER00002")] eq_refl).
Defined.

(** ** Spacing metadata *)

(** The spacing is read only after the whole volume has been stacked and
    normalized, and only from the last file in sorted order.  If that file
    has no PixelSpacing or no SliceThickness the load ends in
    AttributeError; if both are there and PixelSpacing is empty or has a
    single value, indexing it ends the load in TypeError; in both cases no
    volume is returned.  If PixelSpacing has two values or more the load
    returns the volume with the first two and the SliceThickness as it is
    read, None for an element without a value. *)
Theorem load_dicom_series_missing_spacing
    (path : string) (d : directory) (l : log)
    (files : list (string * entry)) (raw vol : ndarray3 f32) (final : dataset) :
  stack_dicom_series d = Ok (files, raw, final) ->
  normalize raw = Ok vol ->
  (PixelSpacing final = None \/ SliceThickness final = None ->
   load_dicom_series path d l =
     (Raise AttributeError, l ++ [INFO (Loading_DICOM_series_from path)])) /\
  (forall st,
     SliceThickness final = Some st ->
     (PixelSpacing final = Some Empty \/
      exists p, PixelSpacing final = Some (Single p)) ->
     load_dicom_series path d l =
       (Raise TypeError, l ++ [INFO (Loading_DICOM_series_from path)])) /\
  (forall p0 p1 more st,
     PixelSpacing final = Some (MultiValue p0 p1 more) ->
     SliceThickness final = Some st ->
     load_dicom_series path d l =
       (Ok (vol, (p0, p1, st)),
        l ++ [INFO (Loading_DICOM_series_from path)])).
Proof.
  intros Hstack Hnorm.
  rewrite (load_dicom_series_unfold path d l files raw final Hstack).
  rewrite Hnorm. cbn [rbind]. split; [|split].
  - unfold read_spacing. intros [H|H].
    + now rewrite H.
    + rewrite H. now destruct (PixelSpacing final).
  - unfold read_spacing. intros st Hst [H|[p H]]; now rewrite H, Hst.
  - intros p0 p1 more st Hps Hst.
    assert (E : read_spacing final = Ok (p0, p1, st))
      by (apply read_spacing_inv; eauto).
    now rewrite E.
Qed.

Lemma load_dicom_series_missing_spacing_witness :
  let ds := {| SeriesDescription := None;
               InstanceNumber := Some (Single 1%Z);
               Rows := Some (Single 1%nat);
               Columns := Some (Single 1%nat);
               pixel_array := Ok {| shape2 := (1, 1)%nat;
                                    at2 := fun _ _ => 3%Z |};
               PixelSpacing := Some (Single (1 # 2));
               SliceThickness := Some Empty |} in
  let isotropic :=
        {| SeriesDescription := None;
           InstanceNumber := Some (Single 1%Z);
           Rows := Some (Single 1%nat);
           Columns := Some (Single 1%nat);
           pixel_array := Ok {| shape2 := (1, 1)%nat;
                                at2 := fun _ _ => 3%Z |};
           PixelSpacing := Some (MultiValue (1 # 2) (1 # 2) []);
           SliceThickness := Some Empty |} in
  load_dicom_series "scans" [("only.dcm", Dicom ds)] [] =
    (Raise TypeError, [] ++ [INFO (Loading_DICOM_series_from "scans")]) /\
  exists vol,
    load_dicom_series "scans" [("only.dcm", Dicom isotropic)] [] =
      (Ok (vol, (1 # 2, 1 # 2, Empty)),
       [] ++ [INFO (Loading_DICOM_series_from "scans")]).
Proof.
  intros ds isotropic. split.
  - assert (E : exists files raw final vol,
              stack_dicom_series [("only.dcm"%string, Dicom ds)] =
                Ok (files, raw, final) /\
              normalize raw = Ok vol /\
              PixelSpacing final = Some (Single (1 # 2)) /\
              SliceThickness final = Some Empty).
    { do 4 eexists. split; [reflexivity|]. repeat split; reflexivity. }
    destruct E as (files & raw & final & vol & Hstack & Hnorm & Hps & Hst).
    apply (proj1 (proj2 (load_dicom_series_missing_spacing "scans" _ [] _ _ _ _
                           Hstack Hnorm)) Empty Hst).
    right. eauto.
  - assert (E : exists files raw final vol,
              stack_dicom_series [("only.dcm"%string, Dicom isotropic)] =
                Ok (files, raw, final) /\
              normalize raw = Ok vol /\
              PixelSpacing final = Some (MultiValue (1 # 2) (1 # 2) []) /\
              SliceThickness final = Some Empty).
    { do 4 eexists. split; [reflexivity|]. repeat split; reflexivity. }
    destruct E as (files & raw & final & vol & Hstack & Hnorm & Hps & Hst).
    exists vol.
    exact (proj2 (proj2 (load_dicom_series_missing_spacing "scans" _ [] _ _ _ _
                           Hstack Hnorm)) _ _ _ _ Hps Hst).
Defined.

(** ** Figures left open *)






(** ** The '.dcm' entries of a listing *)

